(** * stlab::copy_on_write<T>: a shallow embedding and its verification

    The development follows [include/stlab/copy_on_write.hpp] and the
    [document] class and [main] of [examples/basic_usage_test.cpp].

    - A [model] is the heap-resident pair of an atomic [_count] and the
      wrapped [_value]; the function-local static [default_s] of
      [default_model()] lives in the same store at the reserved address
      [default_loc].
    - A [copy_on_write] object is a named slot holding its [_self] pointer
      ([None] is [nullptr]).  Temporaries of the member functions are
      objects too: they get a fresh name, are constructed, and are
      destroyed at the end of the full expression, exactly as in the
      source.
    - Member functions are computations in a small state-and-exception
      monad; [noexcept] turns an escaping exception into [Terminate], and
      a failed [assert] (a contract violation) is [Undefined].
    - [std::size_t] is taken to be 64 bits wide and [fetch_add] /
      [fetch_sub] wrap around accordingly.
    - The model is sequential: a member function runs from its first to
      its last step without another thread in between, and the memory
      orders of the atomic operations play no part.
    - No exception leaves a member function while one of its temporaries
      is alive (what follows the construction of a temporary is
      [noexcept]), so stack unwinding needs no model. *)

From Stdlib Require Import ZArith Lia.
From stdpp Require Import gmap list fin_maps strings.

Local Open Scope Z_scope.

(** ** The element type *)

(** What the wrapper consumes from [T] ("T models Regular").  Every
    operation of [T] may raise an exception of type [E].
    - [T_default]: the outcome of [T()], or [None] when [T] is not default
      constructible.
    - [T_copy x]: the outcome of [T(const T&)]; a copy equals its source.
    - [T_assign x y]: the outcome of [x = y]; on success [x] equals [y],
      on failure [x] is left at some value of [T].
    - [T_eq], [T_lt]: the outcomes of [x == y] and [x < y]. *)
Class Regular (T E : Type) := {
  T_default : option (E + T);
  T_copy : T → E + T;
  T_assign : T → T → (E * T) + T;
  T_eq : T → T → E + bool;
  T_lt : T → T → E + bool;
  T_copy_eq : ∀ x y, T_copy x = inr y → y = x;
  T_assign_eq : ∀ x y z, T_assign x y = inr z → z = y
}.

(** Exceptions seen by a caller: [std::bad_alloc] from [new], or whatever
    the element type raised. *)
Inductive exn (E : Type) : Type :=
| bad_alloc
| T_exn (e : E).
Arguments bad_alloc {E}.
Arguments T_exn {E} e.

(** Addresses of [model] objects and names of [copy_on_write] objects. *)
Abbreviation loc := positive (only parsing).
Abbreviation name := positive (only parsing).

(** [struct model { std::atomic<std::size_t> _count{1}; T _value; }] *)
Record model (T : Type) : Type := Model { _count : Z; _value : T }.
Arguments Model {T} _ _.
Arguments _count {T} _.
Arguments _value {T} _.

(** The program state.
    - [cells]: the live [model] objects;
    - [next]: the next address [new] hands out (addresses are not reused,
      so an address identifies one cell for ever);
    - [space]: how many more cells the free store can provide;
    - [freed]: the log of [delete] calls, most recent first;
    - [handles]: the live [copy_on_write] objects with their [_self]. *)
Record world (T : Type) : Type := World {
  cells : gmap loc (model T);
  next : loc;
  space : nat;
  freed : list loc;
  handles : gmap name (option loc)
}.
Arguments World {T} _ _ _ _ _.
Arguments cells {T} _.
Arguments next {T} _.
Arguments space {T} _.
Arguments freed {T} _.
Arguments handles {T} _.

(** The address of [static model default_s]. *)
Definition default_loc : loc := 1%positive.

(** Before [main]: no object, no cell, [default_s] not yet initialised. *)
Definition init {T} (capacity : nat) : world T :=
  World ∅ 2%positive capacity [] ∅.

(** [std::size_t] arithmetic. *)
Definition SIZE_MOD : Z := 2 ^ 64.
Definition wrap (z : Z) : Z := z mod SIZE_MOD.

(** A [copy_on_write] object occupies one pointer (eight bytes) of a
    64-bit address space, so at most [2^61] of them are alive at once. *)
Definition MAX_OBJECTS : Z := 2 ^ 61.

(** ** Outcomes and the monad *)

Inductive outcome (T E A : Type) : Type :=
| Return (a : A) (w : world T)   (* normal completion *)
| Throw (e : exn E) (w : world T) (* an exception reaches the caller *)
| Terminate                       (* std::terminate *)
| Undefined.                      (* contract violation / undefined behaviour *)
Arguments Return {T E A} a w.
Arguments Throw {T E A} e w.
Arguments Terminate {T E A}.
Arguments Undefined {T E A}.

Definition M (T E A : Type) : Type := world T → outcome T E A.

Definition ret {T E A} (a : A) : M T E A := λ w, Return a w.

Definition bind {T E A B} (m : M T E A) (f : A → M T E B) : M T E B :=
  λ w, match m w with
       | Return a w' => f a w'
       | Throw e w' => Throw e w'
       | Terminate => Terminate
       | Undefined => Undefined
       end.

Notation "x <- m ;; k" := (bind m (λ x, k))
  (at level 100, m at next level, right associativity).
Notation "m ;; k" := (bind m (λ _, k))
  (at level 100, right associativity).

Definition throw {T E A} (e : exn E) : M T E A := λ w, Throw e w.

(** A function declared [noexcept]: an exception that would leave it calls
    [std::terminate]. *)
Definition noexcept {T E A} (m : M T E A) : M T E A :=
  λ w, match m w with
       | Throw _ _ => Terminate
       | r => r
       end.

(** [assert(b)]: a contract check. *)
Definition assert {T E} (b : bool) : M T E unit :=
  λ w, if b then Return tt w else Undefined.

(** The outcome of an element-type operation, seen from the wrapper. *)
Definition lift {T E A} (r : E + A) : M T E A :=
  match r with
  | inl e => throw (T_exn e)
  | inr a => ret a
  end.

(** ** Primitive accesses *)

Section primitives.
Context {T E : Type}.

Definition upd_cells (f : gmap loc (model T) → gmap loc (model T))
    (w : world T) : world T :=
  World (f (cells w)) (next w) (space w) (freed w) (handles w).

Definition upd_handles (f : gmap name (option loc) → gmap name (option loc))
    (w : world T) : world T :=
  World (cells w) (next w) (space w) (freed w) (f (handles w)).

(** Read the member [_self] of the live object [this]. *)
Definition get_self (this : name) : M T E (option loc) :=
  λ w, match handles w !! this with
       | Some p => Return p w
       | None => Undefined
       end.

(** Write the member [_self] of the live object [this]. *)
Definition set_self (this : name) (p : option loc) : M T E unit :=
  λ w, match handles w !! this with
       | Some _ => Return tt (upd_handles <[this:=p]> w)
       | None => Undefined
       end.

(** The object [this] starts to exist, with [_self] initialised to [p]. *)
Definition declare (this : name) (p : option loc) : M T E unit :=
  λ w, match handles w !! this with
       | Some _ => Undefined
       | None => Return tt (upd_handles <[this:=p]> w)
       end.

(** The storage of [this] is released at the end of its destructor. *)
Definition undeclare (this : name) : M T E unit :=
  λ w, Return tt (upd_handles (delete this) w).

(** A name for a temporary. *)
Definition fresh_name : M T E name :=
  λ w, Return (fresh (dom (handles w))) w.

(** Dereference a [model*]. *)
Definition load (l : loc) : M T E (model T) :=
  λ w, match cells w !! l with
       | Some m => Return m w
       | None => Undefined
       end.

Definition deref (p : option loc) : M T E (model T) :=
  match p with
  | Some l => load l
  | None => λ _, Undefined
  end.

Definition store (l : loc) (m : model T) : M T E unit :=
  λ w, match cells w !! l with
       | Some _ => Return tt (upd_cells <[l:=m]> w)
       | None => Undefined
       end.

(** [_count.fetch_add(1)] and [_count.fetch_sub(1)]: the old value is
    returned. *)
Definition fetch_add (l : loc) : M T E Z :=
  m <- load l;;
  store l (Model (wrap (_count m + 1)) (_value m));;
  ret (_count m).

Definition fetch_sub (l : loc) : M T E Z :=
  m <- load l;;
  store l (Model (wrap (_count m - 1)) (_value m));;
  ret (_count m).

(** [new model(args...)]: [mk] is the outcome of constructing [_value]
    from the forwarded arguments.  When the free store is exhausted the
    expression throws [std::bad_alloc]; when the constructor of [T]
    throws, the memory is given back and the exception propagates. *)
Definition new_model (mk : E + T) : M T E loc :=
  λ w, match space w with
       | O => Throw bad_alloc w
       | S n =>
         match mk with
         | inl e => Throw (T_exn e) w
         | inr v =>
           Return (next w)
             (World (<[next w:=Model 1 v]> (cells w)) (Pos.succ (next w)) n
                    (freed w) (handles w))
         end
       end.

(** [delete p]: only a live heap cell may be deleted. *)
Definition delete_model (l : loc) : M T E unit :=
  λ w, match cells w !! l with
       | Some _ =>
         if decide (l = default_loc) then Undefined
         else Return tt
                (World (delete l (cells w)) (next w) (S (space w))
                       (l :: freed w) (handles w))
       | None => Undefined
       end.

End primitives.

(** ** The member functions of [copy_on_write<T>] *)

Section copy_on_write.
Context {T E : Type} {RT : Regular T E}.

(** [NDEBUG]: whether [assert] is compiled out.  A violated assertion is a
    contract violation in either build ([Undefined]); the flag only decides
    whether the call [default_model()] inside the destructor's assertion is
    evaluated. *)
Variable NDEBUG : bool.

(** [assert(p)] for a pointer, giving the cell it points to. *)
Definition nonnull (p : option loc) : M T E loc :=
  match p with
  | Some l => ret l
  | None => λ _, Undefined
  end.

(** [default_model()]: [static model default_s; return &default_s;].  The
    static is initialised by the first call that completes; [_count{1}]. *)
Definition default_model : M T E loc :=
  λ w, match cells w !! default_loc with
       | Some _ => Return default_loc w
       | None =>
         match T_default with
         | Some (inr v) =>
           Return default_loc (upd_cells <[default_loc:=Model 1 v]> w)
         | Some (inl e) => Throw (T_exn e) w
         | None => Undefined
         end
       end.

(** [copy_on_write()] *)
Definition ctor_default (this : name) : M T E unit :=
  l <- default_model;;
  declare this (Some l);;
  fetch_add l;;
  ret tt.

(** [copy_on_write(U&& x)] and [copy_on_write(U&& x, V&& y, Args&&...)]:
    [_self(new model(...))]. *)
Definition ctor_value (this : name) (mk : E + T) : M T E unit :=
  l <- new_model mk;;
  declare this (Some l).

(** [copy_on_write(const copy_on_write& x) noexcept] *)
Definition ctor_copy (this x : name) : M T E unit :=
  noexcept (
    p <- get_self x;;
    declare this p;;
    l <- nonnull p;;
    fetch_add l;;
    ret tt).

(** [copy_on_write(copy_on_write&& x) noexcept]:
    [_self{std::exchange(x._self, nullptr)}]. *)
Definition ctor_move (this x : name) : M T E unit :=
  noexcept (
    p <- get_self x;;
    set_self x None;;
    declare this p;;
    nonnull p;;
    ret tt).

(** [~copy_on_write()] *)
Definition dtor (this : name) : M T E unit :=
  noexcept (
    p <- get_self this;;
    match p with
    | None => ret tt
    | Some l =>
      m <- load l;;
      assert (0 <? _count m);;
      old <- fetch_sub l;;
      if old =? 1 then
        (if NDEBUG then ret tt
         else match T_default with
              | Some _ => d <- default_model;; assert (bool_decide (l ≠ d))
              | None => ret tt
              end);;
        delete_model l
      else ret tt
    end;;
    undeclare this).

(** [read() const noexcept] *)
Definition read (this : name) : M T E T :=
  noexcept (
    p <- get_self this;;
    l <- nonnull p;;
    m <- load l;;
    ret (_value m)).

(** [unique() const noexcept] *)
Definition unique (this : name) : M T E bool :=
  noexcept (
    p <- get_self this;;
    l <- nonnull p;;
    m <- load l;;
    ret (_count m =? 1)).

(** [identity(const copy_on_write& x) const noexcept] *)
Definition identity (this x : name) : M T E bool :=
  noexcept (
    p <- get_self this;;
    q <- get_self x;;
    l <- nonnull p;;
    k <- nonnull q;;
    ret (bool_decide (l = k))).

(** [swap(copy_on_write& x, copy_on_write& y) noexcept] *)
Definition swap (x y : name) : M T E unit :=
  noexcept (
    px <- get_self x;;
    py <- get_self y;;
    set_self x py;;
    set_self y px).

(** [operator=(copy_on_write&& x) noexcept] *)
Definition move_assign (this x : name) : M T E unit :=
  noexcept (
    tmp <- fresh_name;;
    ctor_move tmp x;;
    swap this tmp;;
    dtor tmp).

(** [operator=(const copy_on_write& x) noexcept]:
    [return *this = copy_on_write(x);] *)
Definition copy_assign (this x : name) : M T E unit :=
  noexcept (
    assert (bool_decide (this ≠ x));;
    tmp <- fresh_name;;
    ctor_copy tmp x;;
    move_assign this tmp;;
    dtor tmp).

(** [*this = copy_on_write(args)]: the temporary is built from [mk], moved
    from, and destroyed. *)
Definition assign_new (this : name) (mk : E + T) : M T E unit :=
  tmp <- fresh_name;;
  ctor_value tmp mk;;
  move_assign this tmp;;
  dtor tmp.

(** [operator=(U&& x)], for an argument [x] of type [const T&]. *)
Definition value_assign (this : name) (x : T) : M T E unit :=
  p <- get_self this;;
  u <- match p with
       | Some _ => unique this
       | None => ret false
       end;;
  if u then
    l <- nonnull p;;
    m <- load l;;
    match T_assign (_value m) x with
    | inr v => store l (Model (_count m) v)
    | inl (e, v) => store l (Model (_count m) v);; throw (T_exn e)
    end
  else assign_new this (T_copy x).

(** [write()]: the result is the cell that [_self->_value] designates. *)
Definition write (this : name) : M T E loc :=
  u <- unique this;;
  (if negb u then
     v <- read this;;
     assign_new this (T_copy v)
   else ret tt);;
  p <- get_self this;;
  nonnull p.

(** [write(Transform transform, Inplace inplace)].  [transform] maps the
    value to the outcome of the call; [inplace] maps it to the value it
    leaves behind and to the exception it raised, if any.  The value
    returned by [transform] is moved into the new cell. *)
Definition write_with (this : name) (transform : T → E + T)
    (inplace : T → T * option E) : M T E loc :=
  u <- unique this;;
  (if negb u then
     v <- read this;;
     v' <- lift (transform v);;
     assign_new this (inr v')
   else
     p <- get_self this;;
     l <- nonnull p;;
     m <- load l;;
     store l (Model (_count m) (inplace (_value m)).1);;
     match (inplace (_value m)).2 with
     | Some e => throw (T_exn e)
     | None => ret tt
     end);;
  p <- get_self this;;
  nonnull p.

(** *** Comparisons (all [noexcept]) *)

(** [x < y] *)
Definition op_lt (x y : name) : M T E bool :=
  noexcept (
    i <- identity x y;;
    if negb i then
      a <- read x;;
      b <- read y;;
      lift (T_lt a b)
    else ret false).

Definition op_lt_hv (x : name) (y : T) : M T E bool :=
  noexcept (a <- read x;; lift (T_lt a y)).

Definition op_lt_vh (x : T) (y : name) : M T E bool :=
  noexcept (b <- read y;; lift (T_lt x b)).

(** [x > y] is [y < x] *)
Definition op_gt (x y : name) : M T E bool := noexcept (op_lt y x).
Definition op_gt_hv (x : name) (y : T) : M T E bool := noexcept (op_lt_vh y x).
Definition op_gt_vh (x : T) (y : name) : M T E bool := noexcept (op_lt_hv y x).

(** [x <= y] is [!(y < x)] *)
Definition op_le (x y : name) : M T E bool :=
  noexcept (b <- op_lt y x;; ret (negb b)).
Definition op_le_hv (x : name) (y : T) : M T E bool :=
  noexcept (b <- op_lt_vh y x;; ret (negb b)).
Definition op_le_vh (x : T) (y : name) : M T E bool :=
  noexcept (b <- op_lt_hv y x;; ret (negb b)).

(** [x >= y] is [!(x < y)] *)
Definition op_ge (x y : name) : M T E bool :=
  noexcept (b <- op_lt x y;; ret (negb b)).
Definition op_ge_hv (x : name) (y : T) : M T E bool :=
  noexcept (b <- op_lt_hv x y;; ret (negb b)).
Definition op_ge_vh (x : T) (y : name) : M T E bool :=
  noexcept (b <- op_lt_vh x y;; ret (negb b)).

(** [x == y] *)
Definition op_eq (x y : name) : M T E bool :=
  noexcept (
    i <- identity x y;;
    if i then ret true
    else
      a <- read x;;
      b <- read y;;
      lift (T_eq a b)).

Definition op_eq_hv (x : name) (y : T) : M T E bool :=
  noexcept (a <- read x;; lift (T_eq a y)).

Definition op_eq_vh (x : T) (y : name) : M T E bool :=
  noexcept (b <- read y;; lift (T_eq x b)).

(** [x != y] is [!(x == y)] *)
Definition op_ne (x y : name) : M T E bool :=
  noexcept (b <- op_eq x y;; ret (negb b)).
Definition op_ne_hv (x : name) (y : T) : M T E bool :=
  noexcept (b <- op_eq_hv x y;; ret (negb b)).
Definition op_ne_vh (x : T) (y : name) : M T E bool :=
  noexcept (b <- op_eq_vh x y;; ret (negb b)).

(** ** Programs *)

(** What a client does with its named objects, one statement at a time.
    [Write h f] is [h.write()] followed by a mutation [f] through the
    returned reference. *)
Inductive op : Type :=
| Default (h : name)
| Value (h : name) (mk : E + T)
| Copy (h x : name)
| Move (h x : name)
| Destroy (h : name)
| CopyAssign (h x : name)
| MoveAssign (h x : name)
| ValueAssign (h : name) (v : T)
| Write (h : name) (f : T → T)
| WriteWith (h : name) (transform : T → E + T) (inplace : T → T * option E)
| Swap (x y : name).

Definition exec (o : op) : M T E unit :=
  match o with
  | Default h => ctor_default h
  | Value h mk => ctor_value h mk
  | Copy h x => ctor_copy h x
  | Move h x => ctor_move h x
  | Destroy h => dtor h
  | CopyAssign h x => copy_assign h x
  | MoveAssign h x => move_assign h x
  | ValueAssign h v => value_assign h v
  | Write h f =>
    l <- write h;;
    m <- load l;;
    store l (Model (_count m) (f (_value m)))
  | WriteWith h transform inplace => write_with h transform inplace;; ret tt
  | Swap x y => swap x y
  end.

(** A statement that brings a new object into existence needs storage for
    it. *)
Definition creates (o : op) : bool :=
  match o with
  | Default _ | Value _ _ | Copy _ _ | Move _ _ => true
  | _ => false
  end.

Definition admissible (o : op) (w : world T) : Prop :=
  creates o = true → Z.of_nat (size (handles w)) < MAX_OBJECTS.

(** The statement completes, normally or by an exception the client
    catches, and leaves the state [w']. *)
Definition completes {A} (r : outcome T E A) (w' : world T) : Prop :=
  match r with
  | Return _ w | Throw _ w => w' = w
  | Terminate | Undefined => False
  end.

Inductive reachable (capacity : nat) : world T → Prop :=
| reach_init : reachable capacity (init capacity)
| reach_step w o w' :
    reachable capacity w →
    admissible o w →
    completes (exec o w) w' →
    reachable capacity w'.

End copy_on_write.

(** ** Reference counting: what the counts are supposed to be *)

(** The object stored under a name points to the cell [l]. *)
Definition points_to (l : loc) (kv : name * option loc) : Prop :=
  kv.2 = Some l.

#[global] Instance points_to_dec l kv : Decision (points_to l kv).
Proof. unfold points_to. apply _. Defined.

(** The number of live [copy_on_write] objects whose [_self] is [l]. *)
Definition refs (hs : gmap name (option loc)) (l : loc) : nat :=
  size (filter (points_to l) hs).

(** The unit of count that [_count{1}] of the static [default_s] carries
    for ever. *)
Definition extra (l : loc) : Z :=
  if decide (l = default_loc) then 1 else 0.

(** Every live cell counts the objects that point to it. *)
Definition counted {T} (cs : gmap loc (model T))
    (hs : gmap name (option loc)) : Prop :=
  ∀ l m, cs !! l = Some m → _count m = Z.of_nat (refs hs l) + extra l.

(** No object points to a cell that is not alive. *)
Definition attached {T} (cs : gmap loc (model T))
    (hs : gmap name (option loc)) : Prop :=
  ∀ h l, hs !! h = Some (Some l) → is_Some (cs !! l).

(** The free store: addresses in use are below [next], a deleted cell is
    gone and was deleted once, and [default_s] was never deleted. *)
Record heap_ok {T} (cs : gmap loc (model T)) (nx : loc) (fr : list loc) : Prop := {
  heap_next : ∀ l, is_Some (cs !! l) → (l < nx)%positive;
  heap_next_default : (default_loc < nx)%positive;
  heap_freed_next : ∀ l, l ∈ fr → (l < nx)%positive;
  heap_freed_dead : ∀ l, l ∈ fr → cs !! l = None;
  heap_freed_nodup : NoDup fr;
  heap_freed_default : default_loc ∉ fr
}.

(** The state invariant. *)
Record Inv {T} (w : world T) : Prop := {
  inv_counted : counted (cells w) (handles w);
  inv_attached : attached (cells w) (handles w);
  inv_heap : heap_ok (cells w) (next w) (freed w)
}.

(** At most [k] objects are alive. *)
Definition bounded {T} (k : Z) (w : world T) : Prop :=
  Z.of_nat (size (handles w)) ≤ k.

(** The invariant, with at most [k] objects alive. *)
Definition InvB {T} (k : Z) (w : world T) : Prop := Inv w ∧ bounded k w.

(** Partial-correctness triples: [Q] on normal completion, [R] when an
    exception leaves the computation. *)
Definition hoare {T E A} (P : world T → Prop) (m : M T E A)
    (Q : A → world T → Prop) (R : world T → Prop) : Prop :=
  ∀ w, P w →
    match m w with
    | Return a w' => Q a w'
    | Throw _ w' => R w'
    | Terminate | Undefined => True
    end.

(** [1] when the pointer [p] is [l], else [0]. *)
Definition hit (p : option loc) (l : loc) : nat :=
  if decide (p = Some l) then 1%nat else 0%nat.

(** The cell that [p] designates gives up one unit of count and stays
    alive: what the destructor of an object holding [p] does to the cells
    when it is not the last owner. *)
Definition detach {T} (p : option loc) (cs : gmap loc (model T)) :
    gmap loc (model T) :=
  match p with
  | Some l =>
    match cs !! l with
    | Some m => <[l:=Model (wrap (_count m - 1)) (_value m)]> cs
    | None => cs
    end
  | None => cs
  end.

(** The object holding [p] is not the last owner of a cell. *)
Definition not_last {T} (p : option loc) (cs : gmap loc (model T)) : Prop :=
  match p with
  | Some l => ∃ m, cs !! l = Some m ∧ 0 < _count m ∧ _count m ≠ 1
  | None => True
  end.

(** ** Sample element types and states *)

(** [copy_on_write<unsigned>]-like: no operation of the element type ever
    throws. *)
Definition nat_ops : Regular nat unit :=
  {| T_default := Some (inr 0%nat);
     T_copy x := inr x;
     T_assign x y := inr y;
     T_eq x y := inr (Nat.eqb x y);
     T_lt x y := inr (Nat.ltb x y);
     T_copy_eq x y H :=
       eq_sym (f_equal (λ r, match r with inr z => z | inl _ => x end) H);
     T_assign_eq x y z H :=
       eq_sym (f_equal (λ r, match r with inr z => z | inl _ => y end) H) |}.

(** After [copy_on_write<T> h1; copy_on_write<T> h2(h1);]: two objects on
    [default_s]. *)
Definition w_shared : world nat :=
  World {[1%positive := Model 3 0%nat]} 2%positive 3%nat []
        {[1%positive := Some 1%positive; 2%positive := Some 1%positive]}.

(** After [copy_on_write<T> h1(7u);]: one object owning a heap cell. *)
Definition w_unique : world nat :=
  World {[2%positive := Model 1 7%nat]} 3%positive 2%nat []
        {[1%positive := Some 2%positive]}.

(** After [copy_on_write<T> h1(7u); copy_on_write<T> h2(std::move(h1));]:
    [h1] is moved from. *)
Definition w_moved : world nat :=
  World {[2%positive := Model 1 7%nat]} 3%positive 2%nat []
        {[1%positive := None; 2%positive := Some 2%positive]}.

(** ** Comparisons of raw values *)

(** What [x > y], [x <= y], [x >= y] and [x != y] mean for two values of
    the element type: the standard rewriting to [<] and [==] (the wrapper
    never calls any other comparison of [T]). *)
Section value_comparisons.
Context {T E : Type} {RT : Regular T E}.

Definition negated (r : E + bool) : E + bool :=
  match r with
  | inl e => inl e
  | inr b => inr (negb b)
  end.

Definition value_lt (x y : T) : E + bool := T_lt x y.
Definition value_gt (x y : T) : E + bool := T_lt y x.
Definition value_le (x y : T) : E + bool := negated (T_lt y x).
Definition value_ge (x y : T) : E + bool := negated (T_lt x y).
Definition value_eq (x y : T) : E + bool := T_eq x y.
Definition value_ne (x y : T) : E + bool := negated (T_eq x y).

(** The outcome, in a [noexcept] operator, of a comparison of raw values
    in the state [w]. *)
Definition outcome_of (r : E + bool) (w : world T) : outcome T E bool :=
  match r with
  | inl _ => Terminate
  | inr b => Return b w
  end.

(** [!r] for the outcome of a comparison. *)
Definition not_outcome (r : outcome T E bool) : outcome T E bool :=
  match r with
  | Return b w => Return (negb b) w
  | r => r
  end.

End value_comparisons.

(** An element type all of whose operations throw. *)
Definition fragile_ops : Regular nat unit :=
  {| T_default := Some (inl tt);
     T_copy x := inl tt;
     T_assign x y := inl (tt, x);
     T_eq x y := inl tt;
     T_lt x y := inl tt;
     T_copy_eq x y H :=
       match H in _ = r return match r with inr _ => y = x | inl _ => True end
       with eq_refl => Logic.I end;
     T_assign_eq x y z H :=
       match H in _ = r return match r with inr _ => z = y | inl _ => True end
       with eq_refl => Logic.I end |}.

(** After [copy_on_write<T> h1(7u); copy_on_write<T> h2(h1);]: two objects
    on one heap cell. *)
Definition w_pair : world nat :=
  World {[2%positive := Model 2 7%nat]} 3%positive 2%nat []
        {[1%positive := Some 2%positive; 2%positive := Some 2%positive]}.

(** Two objects, each alone on its own heap cell. *)
Definition w_two : world nat :=
  World {[2%positive := Model 1 7%nat; 3%positive := Model 1 8%nat]}
        4%positive 1%nat []
        {[1%positive := Some 2%positive; 2%positive := Some 3%positive]}.

(** ** Auxiliary notions for the statements about [default_s] and the
    destructor *)

(** [default_s] has been initialised. *)
Definition default_live {T} (w : world T) : Prop :=
  is_Some (cells w !! default_loc).

(** A computation that keeps [P], however it ends. *)
Definition keeps {T E A} (P : world T → Prop) (m : M T E A) : Prop :=
  hoare P m (λ _, P) P.

(** The cells after the call [default_model()] in the destructor's
    assertion [assert(_self != default_model())], which only a build with
    assertions evaluates and only for a default-constructible [T]; [None]
    when that call throws (inside the [noexcept] destructor). *)
Definition asserted_cells {T E} {RT : Regular T E} (NDEBUG : bool)
    (w : world T) : option (gmap loc (model T)) :=
  if NDEBUG then Some (cells w)
  else match T_default with
       | None => Some (cells w)
       | Some r =>
         match cells w !! default_loc with
         | Some _ => Some (cells w)
         | None =>
           match r with
           | inl _ => None
           | inr v => Some (<[default_loc:=Model 1 v]> (cells w))
           end
         end
       end.

(** After [copy_on_write<T> h1;]: one object on [default_s]; and after the
    destruction of [h1]. *)
Definition w_default1 : world nat :=
  World {[1%positive := Model 2 0%nat]} 2%positive 3%nat []
        {[1%positive := Some 1%positive]}.

Definition w_default0 : world nat :=
  World {[1%positive := Model 1 0%nat]} 2%positive 3%nat [] ∅.


(** ** What a statement leaves alone *)

(** The objects a statement constructs, destroys, or takes by a reference
    through which it writes. *)
Definition modifies {T E} (o : @op T E) : list name :=
  match o with
  | Default h | Value h _ | Copy h _ | Destroy h | CopyAssign h _
  | ValueAssign h _ | Write h _ | WriteWith h _ _ => [h]
  | Move h x | MoveAssign h x => [h; x]
  | Swap x y => [x; y]
  end.

(** The value in the cell [l], if the cell is alive, satisfies [Φ]. *)
Definition holds_at {T} (Φ : T → Prop) (l : loc)
    (cs : gmap loc (model T)) : Prop :=
  ∀ m, cs !! l = Some m → Φ (_value m).

(** Why nobody may write into the cell [l]: an object [h] that the
    statement does not modify points to it, or it is [default_s] (whose
    initial value satisfies [Φ]). *)
Definition anchored {T E} {RT : Regular T E} (a : option name)
    (Φ : T → Prop) (l : loc) (hs : gmap name (option loc)) : Prop :=
  match a with
  | Some h => hs !! h = Some (Some l)
  | None => l = default_loc ∧ ∀ v, T_default = Some (inr v) → Φ v
  end.

Definition framed {T E} {RT : Regular T E} (a : option name)
    (Φ : T → Prop) (l : loc) (w : world T) : Prop :=
  holds_at Φ l (cells w) ∧ anchored a Φ l (handles w).

(** The invariant together with a framed cell. *)
Definition FInv {T E} {RT : Regular T E} (a : option name)
    (Φ : T → Prop) (l : loc) (k : Z) (w : world T) : Prop :=
  InvB k w ∧ framed a Φ l w.


(** After [h2 = 9u;] in [w_shared]: [h2] has left [default_s]. *)
Definition w_shared_assigned : world nat :=
  World {[1%positive := Model 2 0%nat; 2%positive := Model 1 9%nat]}
        3%positive 2%nat []
        {[1%positive := Some 1%positive; 2%positive := Some 2%positive]}.

(** ** The [document] class of [examples/basic_usage_test.cpp] *)

(** A [std::vector<std::string>] is the list of its elements; its capacity
    is not part of its value, so [reserve] leaves it as it is.  The
    allocations made by [std::vector] and [std::string] inside the two
    lambdas of [insert] and [erase] are taken to succeed; the allocation
    of the [model] by [copy_on_write] may fail as before. *)

(** [v.insert(v.begin() + index, x)], for [index <= v.size()] (beyond the
    end the call has no defined behaviour; the callers assert the bound
    first). *)
Fixpoint vector_insert {A} (index : nat) (x : A) (v : list A) : list A :=
  match index, v with
  | O, _ => x :: v
  | S i, y :: v' => y :: vector_insert i x v'
  | S _, [] => [x]
  end.

(** [v.erase(v.begin() + index)], for [index < v.size()]. *)
Fixpoint vector_erase {A} (index : nat) (v : list A) : list A :=
  match v with
  | [] => []
  | y :: v' =>
    match index with
    | O => v'
    | S i => y :: vector_erase i v'
    end
  end.

(** [v.insert(v.end(), first, last)] with the range [first, last) given as
    a list. *)
Definition vector_append {A} (v range : list A) : list A := v ++ range.

(** The first lambda of [insert]: a new vector built from
    [lines[0, index)], [line], and [lines[index, size)]. *)
Definition insert_transform (line : string) (index : nat)
    (lines : list string) : list string :=
  let new_lines := [] in
  let new_lines := vector_append new_lines (take index lines) in
  let new_lines := vector_append new_lines [line] in
  let new_lines := vector_append new_lines (drop index lines) in
  new_lines.

(** The second lambda of [insert]. *)
Definition insert_inplace (line : string) (index : nat)
    (lines : list string) : list string :=
  vector_insert index line lines.

(** The first lambda of [erase]: [lines[0, index)] and
    [lines[index + 1, size)]. *)
Definition erase_transform (index : nat) (lines : list string) : list string :=
  let new_lines := [] in
  let new_lines := vector_append new_lines (take index lines) in
  let new_lines := vector_append new_lines (drop (index + 1) lines) in
  new_lines.

(** The second lambda of [erase]. *)
Definition erase_inplace (index : nat) (lines : list string) : list string :=
  vector_erase index lines.

Section document.
Context {E : Type} {RT : Regular (list string) E}.
Variable NDEBUG : bool.

(** [document() = default] and [document(const document&) = default]: the
    member [_lines] is constructed. *)
Definition document_default (d : name) : M (list string) E unit :=
  ctor_default d.

Definition document_copy (d other : name) : M (list string) E unit :=
  ctor_copy d other.

(** [~document()] *)
Definition document_dtor (d : name) : M (list string) E unit :=
  dtor NDEBUG d.

(** The range [[begin(), end())]. *)
Definition document_lines (d : name) : M (list string) E (list string) :=
  read d.

Definition document_size (d : name) : M (list string) E nat :=
  lines <- read d;; ret (length lines).

Definition document_empty (d : name) : M (list string) E bool :=
  lines <- read d;;
  ret (match lines with [] => true | _ :: _ => false end).

Definition document_identity (d other : name) : M (list string) E bool :=
  identity d other.

(** [void insert(std::string&& line, size_t index)] *)
Definition document_insert (d : name) (line : string) (index : nat) :
    M (list string) E unit :=
  n <- document_size d;;
  assert (index <=? n)%nat;;
  write_with NDEBUG d
    (λ lines, inr (insert_transform line index lines))
    (λ lines, (insert_inplace line index lines, None));;
  ret tt.

(** [void erase(size_t index)] *)
Definition document_erase (d : name) (index : nat) : M (list string) E unit :=
  n <- document_size d;;
  assert (index <? n)%nat;;
  write_with NDEBUG d
    (λ lines, inr (erase_transform index lines))
    (λ lines, (erase_inplace index lines, None));;
  ret tt.

(** [main()], with [d0] and [d1] named [1] and [2]: the lines written to
    [std::cout] are returned.  The two locals are destroyed at the end, in
    reverse order of construction. *)
Definition main : M (list string) E (list string) :=
  let d0 := 1%positive in
  let d1 := 2%positive in
  document_default d0;;
  document_insert d0 "Hello, world!" 0;;
  document_insert d0 "After Hello" 1;;
  document_copy d1 d0;;
  i <- document_identity d0 d1;;
  assert i;;
  document_insert d1 "Start of d1" 0;;
  i <- document_identity d0 d1;;
  assert (negb i);;
  lines0 <- document_lines d0;;
  lines1 <- document_lines d1;;
  document_dtor d1;;
  document_dtor d0;;
  ret (["d0:"] ++ lines0 ++ ["d1:"] ++ lines1).

End document.

(** [std::vector<std::string>] as an element type whose operations do not
    fail; [<] is [std::lexicographical_compare] over [std::string]'s [<]. *)
Fixpoint vector_lt (x y : list string) : bool :=
  match x, y with
  | _, [] => false
  | [], _ :: _ => true
  | a :: x', b :: y' =>
    if String.ltb a b then true
    else if String.ltb b a then false
    else vector_lt x' y'
  end.

Definition vector_ops : Regular (list string) unit :=
  {| T_default := Some (inr []);
     T_copy x := inr x;
     T_assign x y := inr y;
     T_eq x y := inr (bool_decide (x = y));
     T_lt x y := inr (vector_lt x y);
     T_copy_eq x y H :=
       eq_sym (f_equal (λ r, match r with inr z => z | inl _ => x end) H);
     T_assign_eq x y z H :=
       eq_sym (f_equal (λ r, match r with inr z => z | inl _ => y end) H) |}.

(** After [document d0; d0.insert("Hello, world!", 0);
    d0.insert("After Hello", 1); document d1(d0);] with room for two
    cells, and after [d1.insert("Start of d1", 0);] then. *)
Definition w_doc : world (list string) :=
  World {[1%positive := Model 1 [];
          2%positive := Model 2 ["Hello, world!"; "After Hello"]]}
        3%positive 1%nat []
        {[1%positive := Some 2%positive; 2%positive := Some 2%positive]}.

Definition w_doc_inserted : world (list string) :=
  World {[1%positive := Model 1 [];
          2%positive := Model 1 ["Hello, world!"; "After Hello"];
          3%positive :=
            Model 1 ["Start of d1"; "Hello, world!"; "After Hello"]]}
        4%positive 0%nat []
        {[1%positive := Some 2%positive; 2%positive := Some 3%positive]}.

(** ** Storage *)

(** The cells that come from the free store: all but [default_s]. *)
Definition heap_cells {T} (w : world T) : gmap loc (model T) :=
  delete default_loc (cells w).

(** Storage is neither lost nor invented: what is free and what is in use
    add up to what there was. *)
Definition conserved {T} (capacity : nat) (w : world T) : Prop :=
  (space w + size (heap_cells w))%nat = capacity.

(** No cell is kept with a count of zero. *)
Definition owned {T} (w : world T) : Prop :=
  ∀ l m, cells w !! l = Some m → 1 ≤ _count m.

Definition tidy {T} (capacity : nat) (w : world T) : Prop :=
  conserved capacity w ∧ owned w.

(** ** Statements within contract *)

(** The object named [h] is alive, and is alive and not moved-from. *)
Definition live {T} (w : world T) (h : name) : Prop :=
  is_Some (handles w !! h).

Definition engaged {T} (w : world T) (h : name) : Prop :=
  ∃ l, handles w !! h = Some (Some l).

(** What the language and the assertions of the member functions ask of a
    statement: a constructor runs on storage that holds no object yet (and
    the default constructor exists only for a default constructible [T]),
    every other operand is a live object, the source of a copy or a move
    and the object of [write] are not moved-from, and copy assignment is
    not self-assignment. *)
Definition well_formed {T E} {RT : Regular T E} (o : @op T E)
    (w : world T) : Prop :=
  match o with
  | Default h => handles w !! h = None ∧ is_Some (T_default (T:=T))
  | Value h _ => handles w !! h = None
  | Copy h x | Move h x => handles w !! h = None ∧ engaged w x
  | Destroy h => live w h
  | CopyAssign h x => live w h ∧ engaged w x ∧ h ≠ x
  | MoveAssign h x => live w h ∧ engaged w x
  | ValueAssign h _ => live w h
  | Write h _ | WriteWith h _ _ => engaged w h
  | Swap x y => live w x ∧ live w y
  end.

(** The one way to [std::terminate]: a build with assertions, [default_s]
    not initialised yet, and a default constructor of [T] that throws. *)
Definition debug_corner {T E} {RT : Regular T E} (NDEBUG : bool)
    (w : world T) : Prop :=
  NDEBUG = false ∧ cells w !! default_loc = None ∧
  ∃ e, T_default (T:=T) = Some (inl e).

(** An outcome that is not undefined behaviour, and is a call of
    [std::terminate] only in the corner above. *)
Definition safe {T E A} {RT : Regular T E} (NDEBUG : bool) (w : world T)
    (r : outcome T E A) : Prop :=
  match r with
  | Return _ _ | Throw _ _ => True
  | Terminate => debug_corner NDEBUG w
  | Undefined => False
  end.

(** The statements built from [noexcept] functions only. *)
Definition declared_noexcept {T E} (o : @op T E) : bool :=
  match o with
  | Copy _ _ | Move _ _ | CopyAssign _ _ | MoveAssign _ _ | Swap _ _ => true
  | Destroy _ => true
  | Default _ | Value _ _ | ValueAssign _ _ | Write _ _ | WriteWith _ _ _ =>
    false
  end.

(* ================================================================== *)
(** * Verification *)

(** ** Counting references *)

Section refs.
Implicit Types (hs : gmap name (option loc)) (p : option loc) (l : loc).

Lemma refs_delete hs h p l :
  hs !! h = Some p → refs hs l = (refs (delete h hs) l + hit p l)%nat.
Proof.
  intros Hh. unfold refs, hit. rewrite map_filter_delete, map_size_delete.
  destruct (decide (p = Some l)) as [->|Hne].
  - rewrite (map_lookup_filter_Some_2 _ _ _ _ Hh) by done.
    assert (size (filter (points_to l) hs) ≠ 0%nat).
    { apply map_size_ne_0_lookup_2 with h.
      rewrite (map_lookup_filter_Some_2 _ _ _ _ Hh); done. }
    simpl. lia.
  - assert (filter (points_to l) hs !! h = None) as ->.
    { apply map_lookup_filter_None_2. right. intros x Hx.
      unfold points_to. simpl. congruence. }
    simpl. lia.
Qed.

Lemma refs_delete_None hs h l : hs !! h = None → refs (delete h hs) l = refs hs l.
Proof. intros Hh. by rewrite delete_id. Qed.

Lemma refs_insert hs h p l :
  refs (<[h:=p]> hs) l = (refs (delete h hs) l + hit p l)%nat.
Proof.
  rewrite (refs_delete (<[h:=p]> hs) h p l) by apply lookup_insert_eq.
  by rewrite delete_insert_eq.
Qed.

Lemma refs_insert_None hs h p l :
  hs !! h = None → refs (<[h:=p]> hs) l = (refs hs l + hit p l)%nat.
Proof. intros Hh. by rewrite refs_insert, refs_delete_None. Qed.

Lemma refs_le_size hs l : (refs hs l ≤ size hs)%nat.
Proof. apply map_subseteq_size, map_filter_subseteq. Qed.

Lemma refs_pos hs h l : hs !! h = Some (Some l) → (1 ≤ refs hs l)%nat.
Proof.
  intros Hh. rewrite (refs_delete hs h (Some l) l Hh).
  unfold hit. rewrite decide_True by done. lia.
Qed.

Lemma refs_two hs a b l :
  a ≠ b → hs !! a = Some (Some l) → hs !! b = Some (Some l) →
  (2 ≤ refs hs l)%nat.
Proof.
  intros Hab Ha Hb. rewrite (refs_delete hs a (Some l) l Ha).
  assert (1 ≤ refs (delete a hs) l)%nat.
  { apply refs_pos with b. by rewrite lookup_delete_ne. }
  unfold hit. rewrite decide_True by done. lia.
Qed.

Lemma refs_zero hs l : (∀ h, hs !! h ≠ Some (Some l)) → refs hs l = 0%nat.
Proof.
  intros Hno. unfold refs.
  assert (filter (points_to l) hs = ∅) as ->; [|apply map_size_empty].
  apply map_empty. intros h. apply map_lookup_filter_None_2.
  destruct (hs !! h) as [p|] eqn:Hh; [right|by left].
  intros x [= <-]. unfold points_to. simpl. intros ->. by apply (Hno h).
Qed.

End refs.

(** ** Arithmetic of [std::size_t] *)

Lemma wrap_small z : 0 ≤ z < SIZE_MOD → wrap z = z.
Proof. intros. unfold wrap. by apply Z.mod_small. Qed.

Lemma MAX_OBJECTS_small : MAX_OBJECTS + 8 < SIZE_MOD.
Proof. unfold MAX_OBJECTS, SIZE_MOD. lia. Qed.

Lemma extra_range l : 0 ≤ extra l ≤ 1.
Proof. unfold extra. case_decide; lia. Qed.

Lemma extra_default : extra default_loc = 1.
Proof. unfold extra. by rewrite decide_True. Qed.

Lemma extra_other l : l ≠ default_loc → extra l = 0.
Proof. intros. unfold extra. by rewrite decide_False. Qed.

Lemma hit_same l : hit (Some l) l = 1%nat.
Proof. unfold hit. by rewrite decide_True. Qed.

Lemma hit_other l k : l ≠ k → hit (Some l) k = 0%nat.
Proof. intros. unfold hit. rewrite decide_False; congruence. Qed.

Lemma hit_null l : hit None l = 0%nat.
Proof. done. Qed.

(** ** How the invariant fares under the updates the code performs *)

Section updates.
Context {T : Type}.
Implicit Types (cs : gmap loc (model T)) (hs : gmap name (option loc)).
Implicit Types (l : loc) (m : model T) (p : option loc).

Lemma counted_range cs hs l m k :
  counted cs hs → Z.of_nat (size hs) ≤ k → cs !! l = Some m →
  0 ≤ _count m ≤ k + 1.
Proof.
  intros Hc Hk Hl. rewrite (Hc l m Hl).
  pose proof (refs_le_size hs l). pose proof (extra_range l). lia.
Qed.

Lemma counted_pos cs hs h l m :
  counted cs hs → hs !! h = Some (Some l) → cs !! l = Some m →
  1 + extra l ≤ _count m.
Proof.
  intros Hc Hh Hl. rewrite (Hc l m Hl). pose proof (refs_pos hs h l Hh). lia.
Qed.

(** A cell whose count is about to reach zero is not [default_s]. *)
Lemma counted_last cs hs h l m :
  counted cs hs → hs !! h = Some (Some l) → cs !! l = Some m →
  _count m = 1 → l ≠ default_loc.
Proof.
  intros Hc Hh Hl H1 ->. pose proof (counted_pos _ _ _ _ _ Hc Hh Hl) as Hp.
  rewrite extra_default in Hp. lia.
Qed.

Lemma attached_dead cs hs l :
  attached cs hs → cs !! l = None → refs hs l = 0%nat.
Proof.
  intros Ha Hl. apply refs_zero. intros h Hh.
  destruct (Ha h l Hh) as [m Hm]. congruence.
Qed.

(** *** Updates of the cells *)

Lemma heap_ok_update cs nx fr l m m' :
  heap_ok cs nx fr → cs !! l = Some m → heap_ok (<[l:=m']> cs) nx fr.
Proof.
  intros [H1 H2 H3 H4 H5 H6] Hl. split; try done.
  - intros k. rewrite lookup_insert_is_Some. intros [<-|[_ Hk]]; eauto.
  - intros k Hk. rewrite lookup_insert_ne; [eauto|].
    intros <-. specialize (H4 _ Hk). congruence.
Qed.

Lemma attached_update cs hs l m :
  attached cs hs → attached (<[l:=m]> cs) hs.
Proof.
  intros Ha h k Hh. rewrite lookup_insert_is_Some'. right. eauto.
Qed.

(** Only the value of a cell changes. *)
Lemma counted_set_value cs hs l m v :
  counted cs hs → cs !! l = Some m →
  counted (<[l:=Model (_count m) v]> cs) hs.
Proof.
  intros Hc Hl k mk. destruct (decide (k = l)) as [->|Hne].
  - rewrite lookup_insert_eq. intros [= <-]. simpl. eauto.
  - rewrite lookup_insert_ne by done. eauto.
Qed.

(** [default_s] is initialised. *)
Lemma counted_default_init cs hs v :
  counted cs hs → attached cs hs → cs !! default_loc = None →
  counted (<[default_loc:=Model 1 v]> cs) hs.
Proof.
  intros Hc Ha Hd k mk. destruct (decide (k = default_loc)) as [->|Hne].
  - rewrite lookup_insert_eq. intros [= <-]. simpl.
    rewrite (attached_dead _ _ _ Ha Hd), extra_default. lia.
  - rewrite lookup_insert_ne by done. eauto.
Qed.

Lemma heap_ok_default_init cs nx fr v :
  heap_ok cs nx fr → heap_ok (<[default_loc:=Model 1 v]> cs) nx fr.
Proof.
  intros [H1 H2 H3 H4 H5 H6]. split; try done.
  - intros k. rewrite lookup_insert_is_Some. intros [<-|[_ Hk]]; eauto.
  - intros k Hk. rewrite lookup_insert_ne; [eauto|]. by intros <-.
Qed.

(** [new]: a cell at the address [nx]. *)
Lemma heap_ok_new cs nx fr m :
  heap_ok cs nx fr → heap_ok (<[nx:=m]> cs) (Pos.succ nx) fr.
Proof.
  intros [H1 H2 H3 H4 H5 H6]. split; try done.
  - intros k. rewrite lookup_insert_is_Some. intros [<-|[_ Hk]]; [lia|].
    specialize (H1 _ Hk). lia.
  - lia.
  - intros k Hk. specialize (H3 _ Hk). lia.
  - intros k Hk. rewrite lookup_insert_ne; [eauto|].
    intros <-. specialize (H3 _ Hk). lia.
Qed.

Lemma heap_ok_fresh cs nx fr : heap_ok cs nx fr → cs !! nx = None.
Proof.
  intros [H1 _ _ _ _ _]. destruct (cs !! nx) eqn:Hnx; [|done].
  assert (nx < nx)%positive by eauto. lia.
Qed.

(** [delete]: the cell at [l] goes to the log. *)
Lemma heap_ok_delete cs nx fr l m :
  heap_ok cs nx fr → cs !! l = Some m → l ≠ default_loc →
  heap_ok (delete l cs) nx (l :: fr).
Proof.
  intros [H1 H2 H3 H4 H5 H6] Hl Hd. split; try done.
  - intros k. rewrite lookup_delete_is_Some. intros [_ Hk]. eauto.
  - intros k. rewrite elem_of_cons. intros [->|Hk]; eauto.
  - intros k. rewrite elem_of_cons. intros [->|Hk].
    + apply lookup_delete_eq.
    + rewrite lookup_delete_ne; [eauto|]. intros <-.
      specialize (H4 _ Hk). congruence.
  - apply NoDup_cons. split; [|done]. intros Hk.
    specialize (H4 _ Hk). congruence.
  - rewrite elem_of_cons. intros [?|?]; [congruence|done].
Qed.

(** *** Updates of the objects *)

Lemma attached_insert cs hs h p :
  attached cs hs → (∀ l, p = Some l → is_Some (cs !! l)) →
  attached cs (<[h:=p]> hs).
Proof.
  intros Ha Hp j k. rewrite lookup_insert_Some.
  intros [[_ Hk]|[_ Hj]]; eauto.
Qed.

Lemma attached_delete cs hs h : attached cs hs → attached cs (delete h hs).
Proof. intros Ha j k. rewrite lookup_delete_Some. intros [_ Hj]. eauto. Qed.

(** An object that points nowhere goes. *)
Lemma counted_delete_null cs hs h :
  counted cs hs → hs !! h = Some None → counted cs (delete h hs).
Proof.
  intros Hc Hh l m Hl. rewrite (Hc l m Hl), (refs_delete hs h None l Hh), hit_null.
  lia.
Qed.

(** An object attaches to the live cell [l]: [fetch_add]. *)
Lemma counted_attach cs hs h l m k :
  counted cs hs → Z.of_nat (size hs) ≤ k → k + 2 < SIZE_MOD →
  hs !! h = None → cs !! l = Some m →
  counted (<[l:=Model (wrap (_count m + 1)) (_value m)]> cs) (<[h:=Some l]> hs).
Proof.
  intros Hc Hk Hlt Hh Hl j mj. rewrite refs_insert_None by done.
  destruct (decide (j = l)) as [->|Hne].
  - rewrite lookup_insert_eq. intros [= <-]. simpl.
    pose proof (counted_range _ _ _ _ _ Hc Hk Hl).
    rewrite wrap_small, hit_same, (Hc l m Hl) by lia. lia.
  - rewrite lookup_insert_ne by done. intros Hj.
    rewrite hit_other, (Hc j mj Hj) by done. lia.
Qed.

(** An object detaches from the cell [l], which stays: [fetch_sub]
    returned something else than one. *)
Lemma counted_detach cs hs h l m k :
  counted cs hs → Z.of_nat (size hs) ≤ k → k + 2 < SIZE_MOD →
  hs !! h = Some (Some l) → cs !! l = Some m →
  counted (<[l:=Model (wrap (_count m - 1)) (_value m)]> cs) (delete h hs).
Proof.
  intros Hc Hk Hlt Hh Hl j mj.
  destruct (decide (j = l)) as [->|Hne].
  - rewrite lookup_insert_eq. intros [= <-]. simpl.
    pose proof (counted_range _ _ _ _ _ Hc Hk Hl).
    pose proof (counted_pos _ _ _ _ _ Hc Hh Hl). pose proof (extra_range l).
    rewrite wrap_small by lia.
    rewrite (Hc l m Hl), (refs_delete hs h (Some l) l Hh), hit_same. lia.
  - rewrite lookup_insert_ne by done. intros Hj.
    rewrite (Hc j mj Hj), (refs_delete hs h (Some l) j Hh), hit_other by done.
    lia.
Qed.

(** The last object detaches from [l] and the cell is deleted. *)
Lemma counted_release cs hs h l m :
  counted cs hs → hs !! h = Some (Some l) →
  counted (delete l cs) (delete h hs).
Proof.
  intros Hc Hh j mj. rewrite lookup_delete_Some. intros [Hne Hj].
  rewrite (Hc j mj Hj), (refs_delete hs h (Some l) j Hh), hit_other by done.
  lia.
Qed.

Lemma attached_release cs hs h l m :
  counted cs hs → attached cs hs →
  hs !! h = Some (Some l) → cs !! l = Some m → _count m = 1 →
  attached (delete l cs) (delete h hs).
Proof.
  intros Hc Ha Hh Hl H1 j k. rewrite lookup_delete_Some. intros [Hjh Hj].
  rewrite lookup_delete_is_Some. split; [|eauto]. intros <-.
  pose proof (refs_two hs h j l Hjh Hh Hj).
  pose proof (Hc l m Hl). pose proof (extra_range l). lia.
Qed.

(** A fresh cell and the object that owns it. *)
Lemma counted_new cs hs nx fr h v :
  counted cs hs → attached cs hs → heap_ok cs nx fr → hs !! h = None →
  counted (<[nx:=Model 1 v]> cs) (<[h:=Some nx]> hs).
Proof.
  intros Hc Ha Hok Hh j mj. rewrite refs_insert_None by done.
  destruct (decide (j = nx)) as [->|Hne].
  - rewrite lookup_insert_eq. intros [= <-]. simpl.
    rewrite (attached_dead _ _ _ Ha (heap_ok_fresh _ _ _ Hok)), hit_same.
    rewrite extra_other; [lia|].
    pose proof (heap_next_default _ _ _ Hok). lia.
  - rewrite lookup_insert_ne by done. intros Hj.
    rewrite hit_other, (Hc j mj Hj) by done. lia.
Qed.

(** [std::exchange(x._self, nullptr)] into a new object. *)
Lemma counted_move cs hs h x p :
  counted cs hs → hs !! x = Some p → hs !! h = None →
  counted cs (<[h:=p]> (<[x:=None]> hs)).
Proof.
  intros Hc Hx Hh l m Hl.
  assert (h ≠ x) by congruence.
  rewrite refs_insert_None by (by rewrite lookup_insert_ne).
  rewrite refs_insert, hit_null, (Hc l m Hl), (refs_delete hs x p l Hx). lia.
Qed.

(** [std::swap(x._self, y._self)] *)
Lemma counted_swap cs hs x y px py :
  counted cs hs → hs !! x = Some px → hs !! y = Some py →
  counted cs (<[y:=px]> (<[x:=py]> hs)).
Proof.
  intros Hc Hx Hy l m Hl. rewrite (Hc l m Hl), refs_insert.
  destruct (decide (x = y)) as [->|Hne].
  - assert (px = py) as -> by congruence.
    rewrite delete_insert_eq, (refs_delete hs y py l Hy). lia.
  - rewrite delete_insert_ne, refs_insert by done.
    rewrite (refs_delete hs y py l Hy).
    rewrite (refs_delete (delete y hs) x px l) by (by rewrite lookup_delete_ne).
    rewrite (delete_delete hs x y). lia.
Qed.

End updates.

(** ** Rules for triples *)

Section rules.
Context {T E : Type}.
Implicit Types (P R : world T → Prop).

Lemma hoare_ret {A} P R (a : A) : hoare P (ret (E:=E) a) (λ _, P) R.
Proof. by intros w Hw. Qed.

Lemma hoare_bind {A B} P R (m : M T E A) (f : A → M T E B) Q Q' :
  hoare P m Q R → (∀ a, hoare (Q a) (f a) Q' R) → hoare P (bind m f) Q' R.
Proof.
  intros Hm Hf w Hw. specialize (Hm w Hw). unfold bind.
  destruct (m w) as [a w'|e w'| |]; try done. by apply Hf.
Qed.

Lemma hoare_noexcept {A} P R R' (m : M T E A) Q :
  hoare P m Q R' → hoare P (noexcept m) Q R.
Proof.
  intros Hm w Hw. specialize (Hm w Hw). unfold noexcept.
  by destruct (m w).
Qed.

Lemma hoare_weaken {A} P P' R R' (m : M T E A) Q Q' :
  hoare P' m Q' R' → (∀ w, P w → P' w) → (∀ a w, Q' a w → Q a w) →
  (∀ w, R' w → R w) → hoare P m Q R.
Proof.
  intros Hm HP HQ HR w Hw. specialize (Hm w (HP w Hw)).
  destruct (m w); auto.
Qed.

Lemma hoare_fresh_name P R : hoare P (fresh_name (E:=E)) (λ _, P) R.
Proof. by intros w Hw. Qed.

Lemma hoare_assert P R b : hoare P (assert (E:=E) b) (λ _, P) R.
Proof. intros w Hw. unfold assert. by destruct b. Qed.

Lemma hoare_throw {A} P Q e : hoare P (throw (E:=E) (A:=A) e) Q P.
Proof. by intros w Hw. Qed.

Lemma InvB_mono (k k' : Z) (w : world T) : k ≤ k' → InvB k w → InvB k' w.
Proof. intros Hk [HI Hb]. split; [done|]. unfold bounded in *. lia. Qed.

End rules.

(** ** The invariant is preserved by every member function *)

Section preservation.
Context {T E : Type} {RT : Regular T E}.
Variable NDEBUG : bool.
Implicit Types (w : world T) (k : Z) (R : world T → Prop).

Arguments wrap : simpl never.

Lemma hoare_default_model k :
  hoare (T:=T) (E:=E) (InvB k) default_model
    (λ l w, l = default_loc ∧ is_Some (cells w !! default_loc) ∧ InvB k w) (InvB k).
Proof.
  intros w [[Hc Ha Hh] Hb]. unfold default_model.
  destruct (cells w !! default_loc) as [m|] eqn:Hd; [by eauto|].
  destruct T_default as [[e|v]|]; [done| |done].
  simpl. split; [done|]. rewrite lookup_insert_eq. split; [by eauto|].
  split; [|done]. split; simpl.
  - by apply counted_default_init.
  - by apply attached_update.
  - by apply heap_ok_default_init.
Qed.

(** [declare] followed by [fetch_add]: an object attaches to a live cell. *)
Lemma hoare_attach k this l R :
  k + 2 < SIZE_MOD →
  hoare (T:=T) (E:=E) (InvB k) (declare (E:=E) this (Some l);; fetch_add l;; ret tt)
    (λ _, InvB (k + 1)) R.
Proof.
  intros Hk w [[Hc Ha Hh] Hb]. unfold bind, declare.
  destruct (handles w !! this) eqn:Ht; [done|].
  unfold fetch_add, bind, load. simpl.
  destruct (cells w !! l) as [m|] eqn:Hl; [|done].
  unfold store. simpl. rewrite Hl. simpl. split; [split; simpl|].
  - by eapply counted_attach.
  - apply attached_update, attached_insert; [done|].
    intros ? [= <-]. eauto.
  - by eapply heap_ok_update.
  - unfold bounded in *. simpl. rewrite map_size_insert_None by done. lia.
Qed.

Lemma hoare_ctor_default k this :
  k + 2 < SIZE_MOD →
  hoare (T:=T) (E:=E) (InvB k) (ctor_default this) (λ _, InvB (k + 1)) (InvB k).
Proof.
  intros Hk. unfold ctor_default.
  eapply hoare_bind; [apply hoare_default_model|].
  intros l. eapply hoare_weaken; [by apply (hoare_attach k this l (InvB k))|..].
  - by intros w (_ & _ & Hw).
  - done.
  - done.
Qed.

Lemma hoare_ctor_value k this mk :
  hoare (T:=T) (E:=E) (InvB k) (ctor_value this mk) (λ _, InvB (k + 1)) (InvB k).
Proof.
  intros w [[Hc Ha Hh] Hb]. unfold ctor_value, bind, new_model.
  destruct (space w) as [|n]; [done|].
  destruct mk as [e|v]; [done|].
  unfold declare. simpl.
  destruct (handles w !! this) eqn:Ht; [done|].
  simpl. split; [split; simpl|].
  - by eapply counted_new.
  - apply attached_insert; [by apply attached_update|].
    intros ? [= <-]. rewrite lookup_insert_eq. eauto.
  - by apply heap_ok_new.
  - unfold bounded in *. simpl. rewrite map_size_insert_None by done. lia.
Qed.

Lemma hoare_ctor_copy k this x R :
  k + 2 < SIZE_MOD →
  hoare (T:=T) (E:=E) (InvB k) (ctor_copy this x) (λ _, InvB (k + 1)) R.
Proof.
  intros Hk. unfold ctor_copy. apply hoare_noexcept with (R' := λ _, True).
  intros w Hw. unfold bind at 1. unfold get_self.
  destruct (handles w !! x) as [[l|]|] eqn:Hx; try done.
  - by apply (hoare_attach k this l (λ _, True) Hk w).
  - unfold bind, declare. by destruct (handles w !! this).
Qed.

Lemma hoare_ctor_move k this x R :
  hoare (T:=T) (E:=E) (InvB k) (ctor_move this x) (λ _, InvB (k + 1)) R.
Proof.
  apply hoare_noexcept with (R' := λ _, True).
  intros w [[Hc Ha Hh] Hb]. unfold bind, get_self, set_self, declare.
  cbv beta.
  destruct (handles w !! x) as [p|] eqn:Hx; [|done]. rewrite Hx. simpl.
  destruct (decide (this = x)) as [->|Hne].
  { by rewrite lookup_insert_eq. }
  rewrite lookup_insert_ne by done.
  destruct (handles w !! this) eqn:Ht; [done|].
  destruct p as [l|]; [|done]. simpl. split; [split; simpl|]; [..|done| ].
  - by apply counted_move.
  - apply attached_insert; [apply attached_insert; [done|done]|].
    intros ? [= <-]. eauto.
  - unfold bounded in *. simpl.
    rewrite map_size_insert_None by (by rewrite lookup_insert_ne).
    rewrite map_size_insert_Some by eauto. lia.
Qed.

Lemma hoare_swap k x y R : hoare (T:=T) (E:=E) (InvB k) (swap x y) (λ _, InvB k) R.
Proof.
  apply hoare_noexcept with (R' := λ _, True).
  intros w [[Hc Ha Hh] Hb]. unfold bind, get_self, set_self. cbv beta.
  destruct (handles w !! x) as [px|] eqn:Hx; [|done].
  destruct (handles w !! y) as [py|] eqn:Hy; [|done]. rewrite Hx. simpl.
  assert (is_Some (<[x:=py]> (handles w) !! y)) as [q ->].
  { rewrite lookup_insert_is_Some'. eauto. }
  simpl. split; [split; simpl|]; [..|done| ].
  - by apply counted_swap.
  - apply attached_insert; [apply attached_insert; [done|]|].
    + intros l ->. eauto.
    + intros l ->. eauto.
  - unfold bounded in *. simpl.
    rewrite map_size_insert_Some by (rewrite lookup_insert_is_Some'; eauto).
    rewrite map_size_insert_Some by eauto. done.
Qed.

(** The cell [l] is deleted by its last owner. *)
Lemma release_ok (cs : gmap loc (model T)) hs nx fr this l m :
  counted cs hs → attached cs hs → heap_ok cs nx fr →
  hs !! this = Some (Some l) → cs !! l = Some m → _count m = 1 →
  counted (delete l cs) (delete this hs) ∧
  attached (delete l cs) (delete this hs) ∧
  heap_ok (delete l cs) nx (l :: fr).
Proof.
  intros Hc Ha Hh Ht Hl H1. split_and!.
  - by eapply counted_release.
  - by eapply attached_release.
  - eapply heap_ok_delete; [done..|]. by eapply counted_last.
Qed.

Lemma bounded_delete w k this p :
  bounded (k + 1) w → handles w !! this = Some p →
  Z.of_nat (size (delete this (handles w))) ≤ k.
Proof.
  unfold bounded. intros Hb Ht. rewrite map_size_delete_Some by eauto.
  assert (size (handles w) ≠ 0%nat) by (apply map_size_ne_0_lookup_2 with this; eauto).
  lia.
Qed.

Lemma hoare_dtor k this R :
  k + 3 < SIZE_MOD →
  hoare (T:=T) (E:=E) (InvB (k + 1)) (dtor NDEBUG this) (λ _, InvB k) R.
Proof.
  intros Hk. apply hoare_noexcept with (R' := λ _, True).
  intros w [[Hc Ha Hh] Hb].
  unfold bind, get_self, load, assert, fetch_sub, store, undeclare.
  cbv beta.
  destruct (handles w !! this) as [[l|]|] eqn:Ht; [| |done].
  2:{ simpl. split; [split; simpl|].
      - by apply counted_delete_null.
      - by apply attached_delete.
      - done.
      - by eapply bounded_delete. }
  destruct (cells w !! l) as [m|] eqn:Hl; [|done].
  destruct (0 <? _count m) eqn:Hpos; [|done].
  unfold bind, load, store. rewrite !Hl. simpl.
  destruct (_count m =? 1) eqn:Hone.
  - apply Z.eqb_eq in Hone.
    assert (l ≠ default_loc) as Hld by (by eapply counted_last).
    assert (∀ (cs : gmap loc (model T)) sp,
      counted cs (handles w) → attached cs (handles w) →
      heap_ok cs (next w) (freed w) → cs !! l = Some m →
      InvB k (World (delete l (<[l:=Model (wrap (_count m - 1)) (_value m)]> cs))
             (next w) sp (l :: freed w) (delete this (handles w)))) as Hfin.
    { intros cs sp Hc' Ha' Hh' Hl'. rewrite delete_insert_eq.
      destruct (release_ok cs _ _ _ _ _ _ Hc' Ha' Hh' Ht Hl' Hone) as (?&?&?).
      split; [by split|]. by eapply bounded_delete. }
    unfold delete_model.
    destruct NDEBUG; simpl.
    + rewrite lookup_insert_eq. rewrite decide_False by done. simpl.
      by apply Hfin.
    + unfold default_model. destruct T_default as [[e|v]|] eqn:HT; simpl.
      * rewrite lookup_insert_ne by done.
        destruct (cells w !! default_loc) as [d|] eqn:Hd; [|done]. simpl.
        rewrite bool_decide_true by done. simpl.
        rewrite lookup_insert_eq, decide_False by done. simpl. by apply Hfin.
      * rewrite lookup_insert_ne by done.
        destruct (cells w !! default_loc) as [d|] eqn:Hd; simpl.
        -- rewrite bool_decide_true by done. simpl.
           rewrite lookup_insert_eq, decide_False by done. simpl. by apply Hfin.
        -- rewrite bool_decide_true by done. simpl.
           rewrite lookup_insert_ne, lookup_insert_eq by done.
           rewrite decide_False by done. simpl.
           rewrite insert_insert_ne by done. apply Hfin.
           ++ by apply counted_default_init.
           ++ by apply attached_update.
           ++ by apply heap_ok_default_init.
           ++ by rewrite lookup_insert_ne.
      * rewrite lookup_insert_eq, decide_False by done. simpl. by apply Hfin.
  - apply Z.eqb_neq in Hone. simpl. split; [split; simpl|].
    + eapply counted_detach; [done|apply Hb|lia|done|done].
    + by apply attached_delete, attached_update.
    + by eapply heap_ok_update.
    + by eapply bounded_delete.
Qed.

(** The observers leave the state as it is. *)
Lemma hoare_get_self P R this :
  hoare (T:=T) (E:=E) P (get_self this) (λ _, P) R.
Proof. intros w Hw. unfold get_self. by destruct (handles w !! this). Qed.

Lemma hoare_nonnull P R p : hoare (T:=T) (E:=E) P (nonnull p) (λ _, P) R.
Proof. intros w Hw. by destruct p. Qed.

Lemma hoare_load P R l :
  hoare (T:=T) (E:=E) P (load l) (λ m w, P w ∧ cells w !! l = Some m) R.
Proof. intros w Hw. unfold load. by destruct (cells w !! l) eqn:Hl. Qed.

Lemma hoare_lift {A} P (r : E + A) :
  hoare (T:=T) (E:=E) P (lift r) (λ _, P) P.
Proof. intros w Hw. by destruct r. Qed.

Lemma hoare_read P R this : hoare (T:=T) (E:=E) P (read this) (λ _, P) R.
Proof.
  intros w Hw. unfold read, noexcept, bind, get_self, load. cbv beta.
  destruct (handles w !! this) as [[l|]|]; simpl; try done.
  by destruct (cells w !! l).
Qed.

Lemma hoare_unique P R this : hoare (T:=T) (E:=E) P (unique this) (λ _, P) R.
Proof.
  intros w Hw. unfold unique, noexcept, bind, get_self, load. cbv beta.
  destruct (handles w !! this) as [[l|]|]; simpl; try done.
  by destruct (cells w !! l).
Qed.

(** A store that keeps the count of the cell. *)
Lemma hoare_store_value k l m v R :
  hoare (T:=T) (E:=E) (λ w, InvB k w ∧ cells w !! l = Some m)
    (store l (Model (_count m) v)) (λ _, InvB k) R.
Proof.
  intros w [[[Hc Ha Hh] Hb] Hl]. unfold store. rewrite Hl.
  split; [split; simpl|done].
  - by apply counted_set_value.
  - by apply attached_update.
  - by eapply heap_ok_update.
Qed.

Lemma hoare_move_assign k this x R :
  k + 4 < SIZE_MOD →
  hoare (T:=T) (E:=E) (InvB k) (move_assign NDEBUG this x) (λ _, InvB k) R.
Proof.
  intros Hk. apply hoare_noexcept with (R' := λ _, True).
  eapply hoare_bind; [apply hoare_fresh_name|]. intros tmp.
  eapply hoare_bind; [apply hoare_ctor_move|]. intros ?.
  eapply hoare_bind; [apply hoare_swap|]. intros ?.
  apply hoare_dtor. lia.
Qed.

Lemma hoare_copy_assign k this x R :
  k + 5 < SIZE_MOD →
  hoare (T:=T) (E:=E) (InvB k) (copy_assign NDEBUG this x) (λ _, InvB k) R.
Proof.
  intros Hk. apply hoare_noexcept with (R' := λ _, True).
  eapply hoare_bind; [apply hoare_assert|]. intros ?.
  eapply hoare_bind; [apply hoare_fresh_name|]. intros tmp.
  eapply hoare_bind; [apply hoare_ctor_copy; lia|]. intros ?.
  eapply hoare_bind; [apply hoare_move_assign; lia|]. intros ?.
  apply hoare_dtor. lia.
Qed.

Lemma hoare_assign_new k this mk :
  k + 5 < SIZE_MOD →
  hoare (T:=T) (E:=E) (InvB k) (assign_new NDEBUG this mk) (λ _, InvB k) (InvB k).
Proof.
  intros Hk.
  eapply hoare_bind; [apply hoare_fresh_name|]. intros tmp.
  eapply hoare_bind; [apply hoare_ctor_value|]. intros ?.
  eapply hoare_bind; [apply hoare_move_assign; lia|]. intros ?.
  apply hoare_dtor. lia.
Qed.

Lemma hoare_value_assign k this x :
  k + 5 < SIZE_MOD →
  hoare (T:=T) (E:=E) (InvB k) (value_assign NDEBUG this x) (λ _, InvB k) (InvB k).
Proof.
  intros Hk.
  eapply hoare_bind; [apply hoare_get_self|]. intros p.
  eapply hoare_bind with (Q := λ _, InvB k).
  { destruct p; [apply hoare_unique|apply hoare_ret]. }
  intros [|]; [|by apply hoare_assign_new].
  eapply hoare_bind; [apply hoare_nonnull|]. intros l.
  eapply hoare_bind; [apply hoare_load|]. intros m.
  destruct (T_assign (_value m) x) as [[e v]|v].
  - eapply hoare_bind; [apply hoare_store_value|]. intros ?.
    apply hoare_throw.
  - apply hoare_store_value.
Qed.

Lemma hoare_write k this :
  k + 5 < SIZE_MOD →
  hoare (T:=T) (E:=E) (InvB k) (write NDEBUG this) (λ _, InvB k) (InvB k).
Proof.
  intros Hk.
  eapply hoare_bind; [apply hoare_unique|]. intros u.
  eapply hoare_bind with (Q := λ _, InvB k).
  { destruct u; simpl; [apply hoare_ret|].
    eapply hoare_bind; [apply hoare_read|]. intros v.
    by apply hoare_assign_new. }
  intros ?. eapply hoare_bind; [apply hoare_get_self|]. intros p.
  apply hoare_nonnull.
Qed.

Lemma hoare_write_with k this transform inplace :
  k + 5 < SIZE_MOD →
  hoare (T:=T) (E:=E) (InvB k) (write_with NDEBUG this transform inplace)
    (λ _, InvB k) (InvB k).
Proof.
  intros Hk.
  eapply hoare_bind; [apply hoare_unique|]. intros u.
  eapply hoare_bind with (Q := λ _, InvB k).
  { destruct u; simpl.
    - eapply hoare_bind; [apply hoare_get_self|]. intros p.
      eapply hoare_bind; [apply hoare_nonnull|]. intros l.
      eapply hoare_bind; [apply hoare_load|]. intros m.
      eapply hoare_bind; [apply hoare_store_value|]. intros ?.
      destruct (inplace (_value m)).2; [apply hoare_throw|apply hoare_ret].
    - eapply hoare_bind; [apply hoare_read|]. intros v.
      eapply hoare_bind; [apply hoare_lift|]. intros v'.
      by apply hoare_assign_new. }
  intros ?. eapply hoare_bind; [apply hoare_get_self|]. intros p.
  apply hoare_nonnull.
Qed.

(** Every statement of a program. *)
Lemma hoare_exec k o :
  k + 6 < SIZE_MOD →
  hoare (T:=T) (E:=E) (InvB k) (exec NDEBUG o)
    (λ _, InvB (if creates o then k + 1 else k)) (InvB k).
Proof.
  intros Hk. destruct o; simpl.
  - apply hoare_ctor_default. lia.
  - apply hoare_ctor_value.
  - apply hoare_ctor_copy. lia.
  - apply hoare_ctor_move.
  - eapply hoare_weaken with (P' := InvB ((k - 1) + 1)) (R' := InvB k);
      [apply hoare_dtor; lia|..].
    + intros w. apply InvB_mono. lia.
    + intros ? w. apply InvB_mono. lia.
    + done.
  - apply hoare_copy_assign. lia.
  - apply hoare_move_assign. lia.
  - apply hoare_value_assign. lia.
  - eapply hoare_bind; [apply hoare_write; lia|]. intros l.
    eapply hoare_bind; [apply hoare_load|]. intros m.
    apply hoare_store_value.
  - eapply hoare_bind; [apply hoare_write_with; lia|]. intros l.
    apply hoare_ret.
  - apply hoare_swap.
Qed.

Lemma Inv_init capacity : Inv (init (T:=T) capacity).
Proof.
  split; simpl.
  - intros l m. by rewrite lookup_empty.
  - intros h l. by rewrite lookup_empty.
  - split.
    + intros l [m Hm]. by rewrite lookup_empty in Hm.
    + unfold default_loc. lia.
    + intros l Hl. by apply elem_of_nil in Hl.
    + done.
    + apply NoDup_nil_2.
    + apply not_elem_of_nil.
Qed.

(** Every reachable state satisfies the invariant, with at most
    [MAX_OBJECTS] objects. *)
Lemma reachable_I capacity w :
  reachable (E:=E) NDEBUG capacity w → InvB MAX_OBJECTS w.
Proof.
  induction 1 as [|w o w' Hw IH Hadm Hdone].
  - split; [apply Inv_init|]. unfold bounded, MAX_OBJECTS. simpl.
    rewrite map_size_empty. lia.
  - pose proof MAX_OBJECTS_small as Hsmall.
    destruct (creates o) eqn:Hcr.
    + assert (InvB (MAX_OBJECTS - 1) w) as Hpre.
      { destruct IH as [HI _]. split; [done|].
        specialize (Hadm Hcr). unfold bounded. lia. }
      pose proof (hoare_exec (MAX_OBJECTS - 1) o ltac:(lia) w Hpre) as Hex.
      rewrite Hcr in Hex.
      destruct (exec NDEBUG o w) as [a w1|e w1| |]; simpl in Hdone;
        try done; subst w'.
      * by replace (MAX_OBJECTS - 1 + 1) with MAX_OBJECTS in Hex by lia.
      * eapply InvB_mono; [|done]. lia.
    + pose proof (hoare_exec MAX_OBJECTS o ltac:(lia) w IH) as Hex.
      rewrite Hcr in Hex.
      destruct (exec NDEBUG o w) as [a w1|e w1| |]; simpl in Hdone;
        try done; by subst w'.
Qed.

End preservation.

(** ** What the member functions compute *)

Section equations.
Context {T E : Type} {RT : Regular T E}.
Variable NDEBUG : bool.
Implicit Types (w : world T).

Arguments wrap : simpl never.

Lemma bind_Return {A B} (m : M T E A) (f : A → M T E B) w a w' :
  m w = Return a w' → bind m f w = f a w'.
Proof. intros Hm. unfold bind. by rewrite Hm. Qed.

Lemma bind_Throw {A B} (m : M T E A) (f : A → M T E B) w e w' :
  m w = Throw e w' → bind m f w = Throw e w'.
Proof. intros Hm. unfold bind. by rewrite Hm. Qed.

Lemma noexcept_Return {A} (m : M T E A) w a w' :
  m w = Return a w' → noexcept m w = Return a w'.
Proof. intros Hm. unfold noexcept. by rewrite Hm. Qed.

Lemma get_self_eq w this p :
  handles w !! this = Some p → get_self (E:=E) this w = Return p w.
Proof. intros Ht. unfold get_self. by rewrite Ht. Qed.

Lemma read_eq w this l m :
  handles w !! this = Some (Some l) → cells w !! l = Some m →
  read (E:=E) this w = Return (_value m) w.
Proof.
  intros Ht Hl. unfold read, noexcept, bind, get_self, load. cbv beta.
  rewrite Ht. simpl. by rewrite Hl.
Qed.

Lemma unique_eq w this l m :
  handles w !! this = Some (Some l) → cells w !! l = Some m →
  unique (E:=E) this w = Return (_count m =? 1) w.
Proof.
  intros Ht Hl. unfold unique, noexcept, bind, get_self, load. cbv beta.
  rewrite Ht. simpl. by rewrite Hl.
Qed.

Lemma identity_eq w this x l k :
  handles w !! this = Some (Some l) → handles w !! x = Some (Some k) →
  identity (E:=E) this x w = Return (bool_decide (l = k)) w.
Proof.
  intros Ht Hx. unfold identity, noexcept, bind, get_self. cbv beta.
  rewrite Ht. simpl. by rewrite Hx.
Qed.

Lemma ctor_copy_eq w this x l m :
  handles w !! x = Some (Some l) → handles w !! this = None →
  cells w !! l = Some m →
  ctor_copy (E:=E) this x w =
    Return tt (World (<[l:=Model (wrap (_count m + 1)) (_value m)]> (cells w))
                 (next w) (space w) (freed w) (<[this:=Some l]> (handles w))).
Proof.
  intros Hx Ht Hl.
  unfold ctor_copy, noexcept, bind, get_self, declare, fetch_add. cbv beta.
  rewrite Hx, Ht. simpl. unfold bind, load, store. simpl. rewrite !Hl.
  simpl. by rewrite Hl.
Qed.

Lemma ctor_move_eq w this x l :
  handles w !! x = Some (Some l) → handles w !! this = None →
  ctor_move (E:=E) this x w =
    Return tt (upd_handles (λ hs, <[this:=Some l]> (<[x:=None]> hs)) w).
Proof.
  intros Hx Ht. assert (this ≠ x) by congruence.
  unfold ctor_move, noexcept, bind, get_self, set_self, declare. cbv beta.
  rewrite Hx. simpl. rewrite Hx. simpl.
  rewrite lookup_insert_ne by done. by rewrite Ht.
Qed.

Lemma ctor_value_eq w this v n :
  space w = S n → handles w !! this = None →
  ctor_value (E:=E) this (inr v) w =
    Return tt (World (<[next w:=Model 1 v]> (cells w)) (Pos.succ (next w)) n
                 (freed w) (<[this:=Some (next w)]> (handles w))).
Proof.
  intros Hs Ht. unfold ctor_value, bind, new_model, declare.
  rewrite Hs. simpl. by rewrite Ht.
Qed.

Lemma swap_eq w x y px py :
  handles w !! x = Some px → handles w !! y = Some py →
  swap (E:=E) x y w =
    Return tt (upd_handles (λ hs, <[y:=px]> (<[x:=py]> hs)) w).
Proof.
  intros Hx Hy.
  unfold swap, noexcept, bind, get_self, set_self. cbv beta.
  rewrite Hx. simpl. rewrite Hy, Hx. simpl.
  assert (is_Some (<[x:=py]> (handles w) !! y)) as [q ->]; [|done].
  rewrite lookup_insert_is_Some'. eauto.
Qed.

Lemma dtor_null_eq w this :
  handles w !! this = Some None →
  dtor (E:=E) NDEBUG this w = Return tt (upd_handles (delete this) w).
Proof.
  intros Ht. unfold dtor, noexcept, bind, get_self. by rewrite Ht.
Qed.

Lemma dtor_shared_eq w this l m :
  handles w !! this = Some (Some l) → cells w !! l = Some m →
  0 < _count m → _count m ≠ 1 →
  dtor (E:=E) NDEBUG this w =
    Return tt (upd_handles (delete this)
      (upd_cells <[l:=Model (wrap (_count m - 1)) (_value m)]> w)).
Proof.
  intros Ht Hl Hpos Hne.
  unfold dtor, noexcept, bind, get_self, load, assert, fetch_sub. cbv beta.
  rewrite Ht. rewrite Hl.
  replace (0 <? _count m) with true by (symmetry; by apply Z.ltb_lt).
  unfold bind, load, store. rewrite !Hl. simpl.
  replace (_count m =? 1) with false by (symmetry; by apply Z.eqb_neq).
  done.
Qed.

(** The destructor of the last owner of a heap cell. *)
Lemma dtor_last_eq w this l m :
  handles w !! this = Some (Some l) → cells w !! l = Some m →
  _count m = 1 → l ≠ default_loc →
  dtor NDEBUG this w =
    match asserted_cells NDEBUG w with
    | None => Terminate
    | Some cs =>
      Return tt (World (delete l cs) (next w) (S (space w)) (l :: freed w)
                   (delete this (handles w)))
    end.
Proof.
  intros Ht Hl Hone Hld.
  unfold dtor, noexcept, bind, get_self, load, assert, fetch_sub, store,
    undeclare, asserted_cells.
  cbv beta. rewrite Ht, Hl, Hone. simpl.
  unfold bind, load, store. rewrite !Hl. simpl. rewrite Hone. simpl.
  unfold delete_model.
  destruct NDEBUG; simpl.
  { rewrite lookup_insert_eq, decide_False by done. simpl.
    by rewrite delete_insert_eq. }
  unfold default_model. destruct T_default as [[e|v]|]; simpl.
  - rewrite lookup_insert_ne by done.
    destruct (cells w !! default_loc) as [d|]; [|done]. simpl.
    rewrite bool_decide_true by done. simpl.
    rewrite lookup_insert_eq, decide_False by done. simpl.
    by rewrite delete_insert_eq.
  - rewrite lookup_insert_ne by done.
    destruct (cells w !! default_loc) as [d|]; simpl.
    + rewrite bool_decide_true by done. simpl.
      rewrite lookup_insert_eq, decide_False by done. simpl.
      by rewrite delete_insert_eq.
    + rewrite bool_decide_true by done. simpl.
      rewrite lookup_insert_ne, lookup_insert_eq by done.
      rewrite decide_False by done. simpl.
      rewrite insert_insert_ne by done. by rewrite delete_insert_eq.
  - rewrite lookup_insert_eq, decide_False by done. simpl.
    by rewrite delete_insert_eq.
Qed.

Lemma asserted_cells_release w :
  NDEBUG = true → asserted_cells NDEBUG w = Some (cells w).
Proof. by intros ->. Qed.

(** The destructor of an object that is not the last owner. *)
Lemma dtor_detach_eq w this p :
  handles w !! this = Some p → not_last p (cells w) →
  dtor (E:=E) NDEBUG this w =
    Return tt (upd_handles (delete this) (upd_cells (detach p) w)).
Proof.
  intros Ht Hp. destruct p as [l|]; simpl in *.
  - destruct Hp as (m & Hl & Hpos & Hone).
    rewrite (dtor_shared_eq w this l m) by done.
    unfold upd_cells. simpl. by rewrite Hl.
  - rewrite dtor_null_eq by done. by destruct w.
Qed.

Lemma move_assign_eq w this x p lx :
  handles w !! this = Some p → handles w !! x = Some (Some lx) → this ≠ x →
  not_last p (cells w) →
  move_assign (E:=E) NDEBUG this x w =
    Return tt (World (detach p (cells w)) (next w) (space w) (freed w)
                 (<[this:=Some lx]> (<[x:=None]> (handles w)))).
Proof.
  intros Ht Hx Hne Hp. unfold move_assign. apply noexcept_Return.
  unfold fresh_name at 1. unfold bind at 1.
  set (t := fresh (dom (handles w))).
  assert (handles w !! t = None) as Hfresh by apply not_elem_of_dom, is_fresh.
  assert (t ≠ this) by congruence. assert (t ≠ x) by congruence.
  rewrite (bind_Return _ _ _ _ _ (ctor_move_eq w t x lx Hx Hfresh)).
  erewrite bind_Return; cycle 1.
  { apply swap_eq with (px := p) (py := Some lx); simpl.
    - by rewrite lookup_insert_ne, lookup_insert_ne.
    - by rewrite lookup_insert_eq. }
  erewrite dtor_detach_eq; simpl; [|by rewrite lookup_insert_eq|done].
  unfold upd_handles, upd_cells. simpl. f_equal. f_equal.
  rewrite delete_insert_eq.
  rewrite delete_insert_ne by done. rewrite delete_insert_eq.
  rewrite delete_insert_ne by done. by rewrite delete_id.
Qed.

Lemma assign_new_eq w this p v n :
  handles w !! this = Some p → space w = S n → cells w !! next w = None →
  not_last p (cells w) →
  assign_new (E:=E) NDEBUG this (inr v) w =
    Return tt (World (detach p (<[next w:=Model 1 v]> (cells w)))
                 (Pos.succ (next w)) n (freed w)
                 (<[this:=Some (next w)]> (handles w))).
Proof.
  intros Ht Hs Hnx Hp. unfold assign_new.
  unfold fresh_name at 1. unfold bind at 1.
  set (t := fresh (dom (handles w))).
  assert (handles w !! t = None) as Hfresh by apply not_elem_of_dom, is_fresh.
  assert (t ≠ this) by congruence.
  rewrite (bind_Return _ _ _ _ _ (ctor_value_eq w t v n Hs Hfresh)).
  erewrite bind_Return; cycle 1.
  { apply move_assign_eq with (p := p) (lx := next w); simpl.
    - by rewrite lookup_insert_ne.
    - by rewrite lookup_insert_eq.
    - done.
    - destruct p as [l|]; simpl in *; [|done].
      destruct Hp as (m & Hl & ?). exists m.
      rewrite lookup_insert_ne by congruence. done. }
  rewrite dtor_null_eq; simpl.
  2:{ rewrite lookup_insert_ne by done. by rewrite lookup_insert_eq. }
  unfold upd_handles. simpl. f_equal. f_equal.
  rewrite delete_insert_ne by done. rewrite insert_insert_eq.
  rewrite delete_insert_eq. by rewrite delete_id.
Qed.

(** Copy assignment onto an object that is not the last owner of a cell. *)
Lemma copy_assign_eq w this x p l m :
  this ≠ x → handles w !! this = Some p → handles w !! x = Some (Some l) →
  cells w !! l = Some m → 0 ≤ _count m → _count m + 1 < SIZE_MOD →
  not_last p (cells w) →
  copy_assign (E:=E) NDEBUG this x w =
    Return tt (World (detach p (<[l:=Model (_count m + 1) (_value m)]> (cells w)))
                 (next w) (space w) (freed w)
                 (<[this:=Some l]> (handles w))).
Proof.
  intros Hne Ht Hx Hl H0 H1 Hp. unfold copy_assign. apply noexcept_Return.
  unfold bind at 1. unfold assert. rewrite bool_decide_true by done.
  unfold fresh_name at 1. unfold bind at 1.
  set (t := fresh (dom (handles w))).
  assert (handles w !! t = None) as Hfresh by apply not_elem_of_dom, is_fresh.
  assert (t ≠ this) by congruence. assert (t ≠ x) by congruence.
  rewrite (bind_Return _ _ _ _ _ (ctor_copy_eq w t x l m Hx Hfresh Hl)).
  rewrite wrap_small by lia.
  erewrite bind_Return; cycle 1.
  { apply move_assign_eq with (p := p) (lx := l); simpl.
    - by rewrite lookup_insert_ne.
    - by rewrite lookup_insert_eq.
    - done.
    - destruct p as [k|]; simpl in *; [|done].
      destruct Hp as (mk & Hk & Hpos & Hone).
      destruct (decide (k = l)) as [->|Hkl].
      + rewrite lookup_insert_eq. eexists. split; [done|]. simpl.
        assert (mk = m) as -> by congruence. lia.
      + rewrite lookup_insert_ne by done. eauto. }
  rewrite dtor_null_eq; simpl.
  2:{ rewrite lookup_insert_ne by done. by rewrite lookup_insert_eq. }
  unfold upd_handles. simpl. f_equal. f_equal.
  rewrite delete_insert_ne by done. rewrite insert_insert_eq.
  rewrite delete_insert_eq. by rewrite delete_id.
Qed.

End equations.

(** ** The sample states are reachable *)

Lemma reach_shared : reachable (RT:=nat_ops) false 3 w_shared.
Proof.
  eapply reach_step with (o := Copy 2%positive 1%positive).
  - eapply reach_step with (o := Default 1%positive).
    + apply reach_init.
    + intros _. vm_compute. reflexivity.
    + vm_compute. reflexivity.
  - intros _. vm_compute. reflexivity.
  - vm_compute. reflexivity.
Defined.

Lemma reach_unique : reachable (RT:=nat_ops) false 3 w_unique.
Proof.
  eapply reach_step with (o := Value 1%positive (inr 7%nat)).
  - apply reach_init.
  - intros _. vm_compute. reflexivity.
  - vm_compute. reflexivity.
Defined.

Lemma reach_moved : reachable (RT:=nat_ops) false 3 w_moved.
Proof.
  eapply reach_step with (o := Move 2%positive 1%positive).
  - apply reach_unique.
  - intros _. vm_compute. reflexivity.
  - vm_compute. reflexivity.
Defined.

Lemma reach_pair : reachable (RT:=fragile_ops) false 3 w_pair.
Proof.
  eapply reach_step with (o := Copy 2%positive 1%positive).
  - eapply reach_step with (o := Value 1%positive (inr 7%nat)).
    + apply reach_init.
    + intros _. vm_compute. reflexivity.
    + vm_compute. reflexivity.
  - intros _. vm_compute. reflexivity.
  - vm_compute. reflexivity.
Defined.

Lemma reach_two : reachable (RT:=fragile_ops) false 3 w_two.
Proof.
  eapply reach_step with (o := Value 2%positive (inr 8%nat)).
  - eapply reach_step with (o := Value 1%positive (inr 7%nat)).
    + apply reach_init.
    + intros _. vm_compute. reflexivity.
    + vm_compute. reflexivity.
  - intros _. vm_compute. reflexivity.
  - vm_compute. reflexivity.
Defined.

(** ** Construction by copy and by move *)

Section construction.
Context {T E : Type} {RT : Regular T E}.
Variable NDEBUG : bool.
Implicit Types (w : world T).

(** A reachable state never lets a count wrap around. *)
Lemma reachable_count capacity w l m :
  reachable NDEBUG capacity w → cells w !! l = Some m →
  0 ≤ _count m ∧ _count m + 1 < SIZE_MOD.
Proof.
  intros Hr Hl. destruct (reachable_I NDEBUG capacity w Hr) as [[Hc _ _] Hb].
  pose proof (counted_range _ _ _ _ _ Hc Hb Hl).
  pose proof MAX_OBJECTS_small. lia.
Qed.

(** C3.  Copy construction of [b] from a non-null [a] completes, attaches
    [b] to the cell of [a] and adds one to the count of that cell;
    afterwards [identity(a, b)] holds and both read the same value. *)
Theorem copy_shares_cell capacity w a b l :
  reachable NDEBUG capacity w →
  handles w !! a = Some (Some l) → handles w !! b = None →
  ∃ m w',
    cells w !! l = Some m ∧
    ctor_copy (E:=E) b a w = Return tt w' ∧
    handles w' !! a = Some (Some l) ∧ handles w' !! b = Some (Some l) ∧
    cells w' !! l = Some (Model (_count m + 1) (_value m)) ∧
    identity (E:=E) a b w' = Return true w' ∧
    read (E:=E) a w' = Return (_value m) w' ∧
    read (E:=E) b w' = Return (_value m) w'.
Proof.
  intros Hr Ha Hb.
  destruct (reachable_I NDEBUG capacity w Hr) as [[_ Hatt _] _].
  destruct (Hatt a l Ha) as [m Hl]. exists m.
  destruct (reachable_count capacity w l m Hr Hl) as [H0 H1].
  eexists. split; [done|]. split; [by apply ctor_copy_eq|].
  assert (a ≠ b) by congruence.
  rewrite wrap_small by lia. simpl.
  assert (<[b:=Some l]> (handles w) !! a = Some (Some l)) as Ha'
    by (by rewrite lookup_insert_ne).
  assert (<[b:=Some l]> (handles w) !! b = Some (Some l)) as Hb'
    by apply lookup_insert_eq.
  split_and!; try done.
  - apply lookup_insert_eq.
  - erewrite identity_eq by done. by rewrite bool_decide_true.
  - erewrite read_eq; [|done|apply lookup_insert_eq]. done.
  - erewrite read_eq; [|done|apply lookup_insert_eq]. done.
Qed.

(** C8.  Move construction of [b] from a non-null [a] completes, hands the
    cell of [a] over to [b], leaves [a] null and changes no cell, so no
    count; if [a] was unique, [b] is unique afterwards. *)
Theorem move_transfers_cell w a b l :
  handles w !! a = Some (Some l) → handles w !! b = None →
  ∃ w',
    ctor_move (E:=E) b a w = Return tt w' ∧
    handles w' !! b = Some (Some l) ∧ handles w' !! a = Some None ∧
    cells w' = cells w ∧
    (unique (E:=E) a w = Return true w → unique (E:=E) b w' = Return true w').
Proof.
  intros Ha Hb. assert (a ≠ b) by congruence.
  eexists. split; [by apply ctor_move_eq|]. simpl. split_and!.
  - apply lookup_insert_eq.
  - rewrite lookup_insert_ne by done. apply lookup_insert_eq.
  - done.
  - unfold unique, noexcept, bind, get_self, load. cbv beta. simpl.
    rewrite Ha, lookup_insert_eq. simpl.
    destruct (cells w !! l) as [m|]; [|done].
    intros [= ->]. done.
Qed.

End construction.

Lemma copy_shares_cell_witness :
  ∃ m w',
    cells w_shared !! 1%positive = Some m ∧
    ctor_copy (E:=unit) 3%positive 1%positive w_shared = Return tt w' ∧
    handles w' !! 1%positive = Some (Some 1%positive) ∧
    handles w' !! 3%positive = Some (Some 1%positive) ∧
    cells w' !! 1%positive = Some (Model (_count m + 1) (_value m)) ∧
    identity (E:=unit) 1%positive 3%positive w' = Return true w' ∧
    read (E:=unit) 1%positive w' = Return (_value m) w' ∧
    read (E:=unit) 3%positive w' = Return (_value m) w'.
Proof.
  apply (copy_shares_cell (RT:=nat_ops) false 3%nat w_shared
           1%positive 3%positive 1%positive reach_shared);
    reflexivity.
Defined.

Lemma move_transfers_cell_witness :
  ∃ w',
    ctor_move (E:=unit) 2%positive 1%positive w_unique = Return tt w' ∧
    handles w' !! 2%positive = Some (Some 2%positive) ∧
    handles w' !! 1%positive = Some None ∧
    cells w' = cells w_unique ∧
    (unique (E:=unit) 1%positive w_unique = Return true w_unique →
     unique (E:=unit) 2%positive w' = Return true w').
Proof.
  apply (move_transfers_cell (E:=unit) w_unique 1%positive 2%positive 2%positive);
    reflexivity.
Defined.

(** ** Mutation: [write], [write(transform, inplace)], value assignment *)

Section mutation.
Context {T E : Type} {RT : Regular T E}.
Variable NDEBUG : bool.
Implicit Types (w : world T) (cs : gmap loc (model T)).

Arguments wrap : simpl never.

(** [detach] keeps every cell alive and every value as it was. *)
Lemma detach_value p cs k m :
  cs !! k = Some m → ∃ c, detach p cs !! k = Some (Model c (_value m)).
Proof.
  intros Hk. destruct p as [l|]; simpl; [|destruct m; eauto].
  destruct (cs !! l) as [ml|] eqn:Hl; [|destruct m; eauto].
  destruct (decide (k = l)) as [->|Hne].
  - rewrite lookup_insert_eq. assert (ml = m) as -> by congruence. eauto.
  - rewrite lookup_insert_ne by done. destruct m; eauto.
Qed.

Lemma detach_other p cs k : p ≠ Some k → detach p cs !! k = cs !! k.
Proof.
  intros Hne. destruct p as [l|]; simpl; [|done].
  destruct (cs !! l); [|done]. rewrite lookup_insert_ne; congruence.
Qed.

(** In a reachable state an object that is null or not unique is not the
    last owner of its cell. *)
Lemma reachable_not_last capacity w this p :
  reachable NDEBUG capacity w → handles w !! this = Some p →
  (∀ l m, p = Some l → cells w !! l = Some m → _count m ≠ 1) →
  not_last p (cells w).
Proof.
  intros Hr Ht Hp. destruct p as [l|]; simpl; [|done].
  destruct (reachable_I NDEBUG capacity w Hr) as [[Hc Hatt _] _].
  destruct (Hatt this l Ht) as [m Hl]. exists m.
  pose proof (counted_pos _ _ _ _ _ Hc Ht Hl). pose proof (extra_range l).
  specialize (Hp l m eq_refl Hl). split_and!; [done|lia|done].
Qed.

(** [*this = copy_on_write(v)] on an object that is null or not unique:
    a fresh cell owned by [this] alone; every other object sees the cell
    and the value it saw before. *)
Lemma assign_new_fresh capacity w this p v :
  reachable NDEBUG capacity w → handles w !! this = Some p →
  (∀ l m, p = Some l → cells w !! l = Some m → _count m ≠ 1) →
  space w ≠ 0%nat →
  ∃ w',
    assign_new NDEBUG this (inr v) w = Return tt w' ∧
    cells w !! next w = None ∧
    handles w' = <[this:=Some (next w)]> (handles w) ∧
    cells w' !! next w = Some (Model 1 v) ∧
    (∀ k m, cells w !! k = Some m →
       ∃ c, cells w' !! k = Some (Model c (_value m))) ∧
    (∀ h k m, h ≠ this → handles w !! h = Some (Some k) →
       cells w !! k = Some m → read (E:=E) h w' = Return (_value m) w').
Proof.
  intros Hr Ht Hp Hs.
  pose proof (reachable_not_last capacity w this p Hr Ht Hp) as Hnl.
  destruct (reachable_I NDEBUG capacity w Hr) as [[Hc Hatt Hh] _].
  pose proof (heap_ok_fresh _ _ _ Hh) as Hnx.
  destruct (space w) as [|n] eqn:Hn; [done|].
  assert (p ≠ Some (next w)) as Hpn.
  { intros ->. destruct (Hatt this (next w) Ht) as [m Hm]. congruence. }
  assert (∀ k m, cells w !! k = Some m →
    ∃ c, detach p (<[next w:=Model 1 v]> (cells w)) !! k
         = Some (Model c (_value m))) as Hval.
  { intros k m Hk. apply detach_value. rewrite lookup_insert_ne; congruence. }
  eexists. split; [by apply assign_new_eq|]. simpl. split_and!; try done.
  - rewrite detach_other by done. apply lookup_insert_eq.
  - intros h k m Hne Hk Hm. destruct (Hval k m Hm) as [c Hc'].
    rewrite (read_eq _ h k (Model c (_value m))); [done| |done].
    simpl. by rewrite lookup_insert_ne.
Qed.

(** The branch [!unique()] of [write()]. *)
Lemma write_copy_eq w this l m v w' l' :
  handles w !! this = Some (Some l) → cells w !! l = Some m →
  _count m ≠ 1 → T_copy (_value m) = inr v →
  assign_new NDEBUG this (inr v) w = Return tt w' →
  handles w' !! this = Some (Some l') →
  write NDEBUG this w = Return l' w'.
Proof.
  intros Ht Hl Hone Hcp Has Ht'. unfold write.
  rewrite (bind_Return _ _ _ _ _ (unique_eq w this l m Ht Hl)).
  replace (_count m =? 1) with false by (symmetry; by apply Z.eqb_neq).
  simpl. erewrite bind_Return; cycle 1.
  { rewrite (bind_Return _ _ _ _ _ (read_eq w this l m Ht Hl)).
    rewrite Hcp. exact Has. }
  by rewrite (bind_Return _ _ _ _ _ (get_self_eq w' this _ Ht')).
Qed.

(** The branch [unique()] of [write()]. *)
Lemma write_unique_eq w this l m :
  handles w !! this = Some (Some l) → cells w !! l = Some m →
  _count m = 1 → write NDEBUG this w = Return l w.
Proof.
  intros Ht Hl Hone. unfold write.
  rewrite (bind_Return _ _ _ _ _ (unique_eq w this l m Ht Hl)).
  rewrite Hone. simpl. unfold bind, ret. simpl.
  by rewrite (get_self_eq w this _ Ht).
Qed.

(** C1.  When two distinct objects [a] and [b] share a cell, [b] is not
    unique, and [b.write()] (allocation and copy succeeding) allocates a
    fresh cell holding a copy of the value and returns a reference into it;
    afterwards [identity(a, b)] is false, [a] reads what it read before,
    and [b] is unique and reads the value from before the call.  When [b]
    is unique, [write()] returns a reference into the cell [b] has and the
    state does not change at all. *)
Theorem write_copies_when_shared :
  (∀ capacity w a b l v,
     reachable NDEBUG capacity w → a ≠ b →
     handles w !! a = Some (Some l) → handles w !! b = Some (Some l) →
     ∃ m,
       cells w !! l = Some m ∧
       unique (E:=E) b w = Return false w ∧
       (space w ≠ 0%nat → T_copy (_value m) = inr v →
        ∃ w',
          write NDEBUG b w = Return (next w) w' ∧
          cells w !! next w = None ∧
          handles w' !! b = Some (Some (next w)) ∧
          cells w' !! next w = Some (Model 1 (_value m)) ∧
          identity (E:=E) a b w' = Return false w' ∧
          read (E:=E) a w' = Return (_value m) w' ∧
          unique (E:=E) b w' = Return true w' ∧
          read (E:=E) b w' = Return (_value m) w')) ∧
  (∀ w b l m,
     handles w !! b = Some (Some l) → cells w !! l = Some m → _count m = 1 →
     unique (E:=E) b w = Return true w ∧ write NDEBUG b w = Return l w).
Proof.
  split.
  - intros capacity w a b l v Hr Hab Ha Hb.
    destruct (reachable_I NDEBUG capacity w Hr) as [[Hc Hatt Hh] _].
    destruct (Hatt b l Hb) as [m Hl]. exists m.
    assert (_count m ≠ 1) as Hone.
    { pose proof (refs_two _ _ _ _ Hab Ha Hb). pose proof (Hc l m Hl).
      pose proof (extra_range l). lia. }
    split; [done|]. split.
    { rewrite (unique_eq w b l m Hb Hl).
      by replace (_count m =? 1) with false by (symmetry; by apply Z.eqb_neq). }
    intros Hs Hcp. pose proof (T_copy_eq _ _ Hcp) as ->.
    destruct (assign_new_fresh capacity w b (Some l) (_value m) Hr Hb)
      as (w' & Has & Hnx & Hhs & Hnew & Hval & Hread); [|done|].
    { intros ? ? [= <-] ?. congruence. }
    assert (handles w' !! b = Some (Some (next w))) as Hb'
      by (rewrite Hhs; apply lookup_insert_eq).
    assert (handles w' !! a = Some (Some l)) as Ha'
      by (by rewrite Hhs, lookup_insert_ne).
    assert (l ≠ next w) by congruence.
    exists w'. split_and!; try done.
    + by apply (write_copy_eq w b l m (_value m) w' (next w)).
    + rewrite (identity_eq w' a b l (next w) Ha' Hb').
      by rewrite bool_decide_false.
    + by apply (Hread a l m).
    + by rewrite (unique_eq w' b _ _ Hb' Hnew).
    + by rewrite (read_eq w' b _ _ Hb' Hnew).
  - intros w b l m Hb Hl Hone. split.
    + rewrite (unique_eq w b l m Hb Hl). by rewrite Hone.
    + by apply (write_unique_eq w b l m).
Qed.

(** The two branches of [write(transform, inplace)]. *)
Lemma write_with_copy_eq w this l m transform inplace v w' l' :
  handles w !! this = Some (Some l) → cells w !! l = Some m →
  _count m ≠ 1 → transform (_value m) = inr v →
  assign_new NDEBUG this (inr v) w = Return tt w' →
  handles w' !! this = Some (Some l') →
  write_with NDEBUG this transform inplace w = Return l' w'.
Proof.
  intros Ht Hl Hone Htr Has Ht'. unfold write_with.
  rewrite (bind_Return _ _ _ _ _ (unique_eq w this l m Ht Hl)).
  replace (_count m =? 1) with false by (symmetry; by apply Z.eqb_neq).
  simpl. erewrite bind_Return; cycle 1.
  { rewrite (bind_Return _ _ _ _ _ (read_eq w this l m Ht Hl)).
    rewrite Htr. simpl. unfold bind at 1. simpl. exact Has. }
  by rewrite (bind_Return _ _ _ _ _ (get_self_eq w' this _ Ht')).
Qed.

Lemma write_with_inplace_eq w this l m transform inplace :
  handles w !! this = Some (Some l) → cells w !! l = Some m →
  _count m = 1 → (inplace (_value m)).2 = None →
  write_with NDEBUG this transform inplace w =
    Return l (upd_cells <[l:=Model 1 (inplace (_value m)).1]> w).
Proof.
  intros Ht Hl Hone Hin. unfold write_with.
  rewrite (bind_Return _ _ _ _ _ (unique_eq w this l m Ht Hl)).
  rewrite Hone. simpl.
  unfold bind, get_self, load, store. cbv beta.
  rewrite Ht. simpl. rewrite Hl. simpl. rewrite Hl, Hin. simpl.
  by rewrite Ht, Hone.
Qed.

(** The two branches of [operator=(U&&)]. *)
Lemma value_assign_inplace_eq w this l m v v0 :
  handles w !! this = Some (Some l) → cells w !! l = Some m →
  _count m = 1 → T_assign (_value m) v = inr v0 →
  value_assign NDEBUG this v w = Return tt (upd_cells <[l:=Model 1 v]> w).
Proof.
  intros Ht Hl Hone Has. pose proof (T_assign_eq _ _ _ Has) as ->.
  unfold value_assign.
  rewrite (bind_Return _ _ _ _ _ (get_self_eq w this _ Ht)).
  rewrite (bind_Return _ _ _ _ _ (unique_eq w this l m Ht Hl)).
  rewrite Hone. simpl. unfold bind, load, store. simpl.
  rewrite Hl, Has. by rewrite Hl, Hone.
Qed.

Lemma value_assign_new_eq w this p v v0 :
  handles w !! this = Some p →
  (∀ l m, p = Some l → cells w !! l = Some m → _count m ≠ 1) →
  (∀ l, p = Some l → is_Some (cells w !! l)) →
  T_copy v = inr v0 →
  value_assign NDEBUG this v w = assign_new NDEBUG this (inr v) w.
Proof.
  intros Ht Hp Hlive Hcp. pose proof (T_copy_eq _ _ Hcp) as ->.
  unfold value_assign.
  rewrite (bind_Return _ _ _ _ _ (get_self_eq w this _ Ht)).
  destruct p as [l|].
  - destruct (Hlive l eq_refl) as [m Hl].
    rewrite (bind_Return _ _ _ _ _ (unique_eq w this l m Ht Hl)).
    replace (_count m =? 1) with false
      by (symmetry; apply Z.eqb_neq; by apply (Hp l m)).
    by rewrite Hcp.
  - unfold bind at 1. simpl. by rewrite Hcp.
Qed.

(** C5.  [write(transform, inplace)] on a non-null object.  Not unique:
    [transform] is applied to the current value, the object moves to a new
    cell holding the result, and every other object of the old cell still
    reads the old value.  Unique: [inplace] is applied to the value in the
    cell, nothing is allocated and the object keeps its cell.  Either way
    the reference returned designates the value the object owns. *)
Theorem write_with_two_strategies :
  (∀ capacity w h l transform inplace v',
     reachable NDEBUG capacity w → handles w !! h = Some (Some l) →
     ∃ m,
       cells w !! l = Some m ∧
       (_count m ≠ 1 → transform (_value m) = inr v' → space w ≠ 0%nat →
        ∃ w',
          write_with NDEBUG h transform inplace w = Return (next w) w' ∧
          cells w !! next w = None ∧
          handles w' !! h = Some (Some (next w)) ∧
          cells w' !! next w = Some (Model 1 v') ∧
          read (E:=E) h w' = Return v' w' ∧
          (∀ h', h' ≠ h → handles w !! h' = Some (Some l) →
             handles w' !! h' = Some (Some l) ∧
             read (E:=E) h' w' = Return (_value m) w'))) ∧
  (∀ w h l m transform inplace,
     handles w !! h = Some (Some l) → cells w !! l = Some m →
     _count m = 1 → (inplace (_value m)).2 = None →
     ∃ w',
       write_with NDEBUG h transform inplace w = Return l w' ∧
       w' = World (<[l:=Model 1 (inplace (_value m)).1]> (cells w))
                  (next w) (space w) (freed w) (handles w) ∧
       read (E:=E) h w' = Return (inplace (_value m)).1 w').
Proof.
  split.
  - intros capacity w h l transform inplace v' Hr Hh.
    destruct (reachable_I NDEBUG capacity w Hr) as [[Hc Hatt Hheap] _].
    destruct (Hatt h l Hh) as [m Hl]. exists m. split; [done|].
    intros Hone Htr Hs.
    destruct (assign_new_fresh capacity w h (Some l) v' Hr Hh)
      as (w' & Has & Hnx & Hhs & Hnew & Hval & Hread); [|done|].
    { intros ? ? [= <-] ?. congruence. }
    assert (handles w' !! h = Some (Some (next w))) as Hh'
      by (rewrite Hhs; apply lookup_insert_eq).
    exists w'. split_and!; try done.
    + by apply (write_with_copy_eq w h l m transform inplace v' w' (next w)).
    + by rewrite (read_eq w' h _ _ Hh' Hnew).
    + intros h' Hne Hh0. split; [by rewrite Hhs, lookup_insert_ne|].
      by apply (Hread h' l m).
  - intros w h l m transform inplace Hh Hl Hone Hin.
    eexists. split; [by apply write_with_inplace_eq|]. split; [done|].
    erewrite read_eq; [|exact Hh|apply lookup_insert_eq]. done.
Qed.

(** C7.  Assignment of a raw value [v].  Non-null and unique: the value is
    assigned in place, nothing is allocated, the object keeps its cell.
    Otherwise (null, or not unique) a new object is built from [v] and
    swapped in: the object ends up on a fresh cell holding [v], and every
    other object keeps its cell and reads the value it read before. *)
Theorem value_assign_in_place_or_fresh :
  (∀ w h l m v v0,
     handles w !! h = Some (Some l) → cells w !! l = Some m →
     _count m = 1 → T_assign (_value m) v = inr v0 →
     ∃ w',
       value_assign NDEBUG h v w = Return tt w' ∧
       w' = World (<[l:=Model 1 v]> (cells w))
                  (next w) (space w) (freed w) (handles w) ∧
       identity (E:=E) h h w' = Return true w' ∧
       read (E:=E) h w' = Return v w') ∧
  (∀ capacity w h p v v0,
     reachable NDEBUG capacity w → handles w !! h = Some p →
     (∀ l m, p = Some l → cells w !! l = Some m → _count m ≠ 1) →
     T_copy v = inr v0 → space w ≠ 0%nat →
     ∃ w',
       value_assign NDEBUG h v w = Return tt w' ∧
       cells w !! next w = None ∧
       handles w' !! h = Some (Some (next w)) ∧
       cells w' !! next w = Some (Model 1 v) ∧
       (∀ h' k m, h' ≠ h → handles w !! h' = Some (Some k) →
          cells w !! k = Some m →
          handles w' !! h' = Some (Some k) ∧
          read (E:=E) h' w' = Return (_value m) w')).
Proof.
  split.
  - intros w h l m v v0 Hh Hl Hone Has.
    eexists. split; [by eapply value_assign_inplace_eq|]. split; [done|].
    split.
    + erewrite identity_eq by exact Hh. by rewrite bool_decide_true.
    + erewrite read_eq; [|exact Hh|apply lookup_insert_eq]. done.
  - intros capacity w h p v v0 Hr Hh Hp Hcp Hs.
    destruct (reachable_I NDEBUG capacity w Hr) as [[Hc Hatt Hheap] _].
    destruct (assign_new_fresh capacity w h p v Hr Hh Hp Hs)
      as (w' & Has & Hnx & Hhs & Hnew & Hval & Hread).
    exists w'. split_and!; try done.
    + rewrite (value_assign_new_eq w h p v v0 Hh Hp); [done| |done].
      intros l ->. eauto.
    + rewrite Hhs. apply lookup_insert_eq.
    + intros h' k m Hne Hh' Hk. split; [by rewrite Hhs, lookup_insert_ne|].
      by apply (Hread h' k m).
Qed.

(** C10.  A moved-from object may not be read or asked [unique()], yet a
    raw value can be assigned to it: the assignment completes and leaves
    the object non-null, unique and reading [v], fit again for [read],
    [write], [identity] and [unique]. *)
Theorem value_assign_revives_moved_from capacity w h v v0 :
  reachable NDEBUG capacity w → handles w !! h = Some None →
  T_copy v = inr v0 → space w ≠ 0%nat →
  read (E:=E) h w = Undefined ∧ unique (E:=E) h w = Undefined ∧
  ∃ w',
    value_assign NDEBUG h v w = Return tt w' ∧
    handles w' !! h = Some (Some (next w)) ∧
    unique (E:=E) h w' = Return true w' ∧
    read (E:=E) h w' = Return v w' ∧
    identity (E:=E) h h w' = Return true w' ∧
    write NDEBUG h w' = Return (next w) w'.
Proof.
  intros Hr Hh Hcp Hs. split_and!.
  - unfold read, noexcept, bind, get_self. by rewrite Hh.
  - unfold unique, noexcept, bind, get_self. by rewrite Hh.
  - destruct (assign_new_fresh capacity w h None v Hr Hh)
      as (w' & Has & Hnx & Hhs & Hnew & Hval & Hread); [done|done|].
    assert (handles w' !! h = Some (Some (next w))) as Hh'
      by (rewrite Hhs; apply lookup_insert_eq).
    exists w'. split_and!; try done.
    + by rewrite (value_assign_new_eq w h None v v0 Hh).
    + by rewrite (unique_eq w' h _ _ Hh' Hnew).
    + by rewrite (read_eq w' h _ _ Hh' Hnew).
    + rewrite (identity_eq w' h h _ _ Hh' Hh'). by rewrite bool_decide_true.
    + by apply (write_unique_eq w' h _ _ Hh' Hnew).
Qed.

End mutation.

Lemma write_copies_when_shared_witness :
  (∃ w',
     write (RT:=nat_ops) false 2%positive w_shared = Return 2%positive w' ∧
     identity (E:=unit) 1%positive 2%positive w' = Return false w' ∧
     read (E:=unit) 1%positive w' = Return 0%nat w' ∧
     unique (E:=unit) 2%positive w' = Return true w' ∧
     read (E:=unit) 2%positive w' = Return 0%nat w') ∧
  write (RT:=nat_ops) false 1%positive w_unique = Return 2%positive w_unique.
Proof.
  split.
  - destruct (proj1 (write_copies_when_shared (RT:=nat_ops) false) 3%nat w_shared
               1%positive 2%positive 1%positive 0%nat reach_shared)
      as (m & Hm & _ & Hw); [done|reflexivity|reflexivity|].
    injection Hm as <-.
    destruct Hw as (w' & H1 & _ & _ & _ & H2 & H3 & H4 & H5);
      [done|reflexivity|].
    exists w'. repeat split; assumption.
  - apply (proj2 (write_copies_when_shared (RT:=nat_ops) false) w_unique
             1%positive 2%positive (Model 1 7%nat)); reflexivity.
Defined.

Lemma write_with_two_strategies_witness :
  (∃ w',
     write_with (RT:=nat_ops) false 2%positive (λ x, inr (S x)) (λ x, (S x, None))
       w_shared = Return 2%positive w' ∧
     read (E:=unit) 2%positive w' = Return 1%nat w' ∧
     read (E:=unit) 1%positive w' = Return 0%nat w') ∧
  (∃ w',
     write_with (RT:=nat_ops) false 1%positive (λ x, inr (S x)) (λ x, (S x, None))
       w_unique = Return 2%positive w' ∧
     read (E:=unit) 1%positive w' = Return 8%nat w').
Proof.
  split.
  - destruct (proj1 (write_with_two_strategies (RT:=nat_ops) false) 3%nat
               w_shared 2%positive 1%positive (λ x, inr (S x))
               (λ x, (S x, None)) 1%nat reach_shared)
      as (m & Hm & Hw); [reflexivity|].
    injection Hm as <-.
    destruct Hw as (w' & H1 & _ & _ & _ & H2 & H3); [done|reflexivity|done|].
    exists w'. split; [assumption|]. split; [assumption|].
    apply (H3 1%positive); [done|reflexivity].
  - destruct (proj2 (write_with_two_strategies (RT:=nat_ops) false) w_unique
               1%positive 2%positive (Model 1 7%nat) (λ x, inr (S x))
               (λ x, (S x, None)))
      as (w' & H1 & _ & H2); [reflexivity..|].
    exists w'. split; assumption.
Defined.

Lemma value_assign_in_place_or_fresh_witness :
  (∃ w',
     value_assign (RT:=nat_ops) false 1%positive 9%nat w_unique = Return tt w' ∧
     read (E:=unit) 1%positive w' = Return 9%nat w') ∧
  (∃ w',
     value_assign (RT:=nat_ops) false 2%positive 9%nat w_shared = Return tt w' ∧
     handles w' !! 2%positive = Some (Some 2%positive) ∧
     read (E:=unit) 1%positive w' = Return 0%nat w').
Proof.
  split.
  - destruct (proj1 (value_assign_in_place_or_fresh (RT:=nat_ops) false)
               w_unique 1%positive 2%positive (Model 1 7%nat) 9%nat 9%nat)
      as (w' & H1 & _ & _ & H2); [reflexivity..|].
    exists w'. split; assumption.
  - destruct (proj2 (value_assign_in_place_or_fresh (RT:=nat_ops) false) 3%nat
               w_shared 2%positive (Some 1%positive) 9%nat 9%nat reach_shared)
      as (w' & H1 & _ & H2 & _ & H3); [reflexivity| |reflexivity|done|].
    { intros l m [= <-] [= <-]. done. }
    exists w'. split; [assumption|]. split; [assumption|].
    apply (H3 1%positive 1%positive (Model 3 0%nat)); [done|reflexivity..].
Defined.

Lemma value_assign_revives_moved_from_witness :
  read (E:=unit) 1%positive w_moved = Undefined ∧
  unique (E:=unit) 1%positive w_moved = Undefined ∧
  ∃ w',
    value_assign (RT:=nat_ops) false 1%positive 9%nat w_moved = Return tt w' ∧
    handles w' !! 1%positive = Some (Some 3%positive) ∧
    unique (E:=unit) 1%positive w' = Return true w' ∧
    read (E:=unit) 1%positive w' = Return 9%nat w' ∧
    identity (E:=unit) 1%positive 1%positive w' = Return true w' ∧
    write (RT:=nat_ops) false 1%positive w' = Return 3%positive w'.
Proof.
  apply (value_assign_revives_moved_from (RT:=nat_ops) false 3%nat w_moved
           1%positive 9%nat 9%nat reach_moved); [reflexivity|reflexivity|done].
Defined.

(** ** Comparisons *)

Section comparisons.
Context {T E : Type} {RT : Regular T E}.
Implicit Types (w : world T).

Lemma op_lt_eq w a b la lb ma mb :
  handles w !! a = Some (Some la) → handles w !! b = Some (Some lb) →
  cells w !! la = Some ma → cells w !! lb = Some mb →
  op_lt a b w =
    if bool_decide (la = lb) then Return false w
    else outcome_of (T_lt (_value ma) (_value mb)) w.
Proof.
  intros Ha Hb Hla Hlb. unfold op_lt, noexcept at 1.
  rewrite (bind_Return _ _ _ _ _ (identity_eq w a b la lb Ha Hb)).
  destruct (bool_decide (la = lb)); simpl; [done|].
  rewrite (bind_Return _ _ _ _ _ (read_eq w a la ma Ha Hla)).
  rewrite (bind_Return _ _ _ _ _ (read_eq w b lb mb Hb Hlb)).
  by destruct (T_lt (_value ma) (_value mb)).
Qed.

Lemma op_eq_eq w a b la lb ma mb :
  handles w !! a = Some (Some la) → handles w !! b = Some (Some lb) →
  cells w !! la = Some ma → cells w !! lb = Some mb →
  op_eq a b w =
    if bool_decide (la = lb) then Return true w
    else outcome_of (T_eq (_value ma) (_value mb)) w.
Proof.
  intros Ha Hb Hla Hlb. unfold op_eq, noexcept at 1.
  rewrite (bind_Return _ _ _ _ _ (identity_eq w a b la lb Ha Hb)).
  destruct (bool_decide (la = lb)); simpl; [done|].
  rewrite (bind_Return _ _ _ _ _ (read_eq w a la ma Ha Hla)).
  rewrite (bind_Return _ _ _ _ _ (read_eq w b lb mb Hb Hlb)).
  by destruct (T_eq (_value ma) (_value mb)).
Qed.

Lemma op_lt_hv_eq w a la ma v :
  handles w !! a = Some (Some la) → cells w !! la = Some ma →
  op_lt_hv a v w = outcome_of (T_lt (_value ma) v) w.
Proof.
  intros Ha Hla. unfold op_lt_hv, noexcept.
  rewrite (bind_Return _ _ _ _ _ (read_eq w a la ma Ha Hla)).
  by destruct (T_lt (_value ma) v).
Qed.

Lemma op_lt_vh_eq w a la ma v :
  handles w !! a = Some (Some la) → cells w !! la = Some ma →
  op_lt_vh v a w = outcome_of (T_lt v (_value ma)) w.
Proof.
  intros Ha Hla. unfold op_lt_vh, noexcept.
  rewrite (bind_Return _ _ _ _ _ (read_eq w a la ma Ha Hla)).
  by destruct (T_lt v (_value ma)).
Qed.

Lemma op_eq_hv_eq w a la ma v :
  handles w !! a = Some (Some la) → cells w !! la = Some ma →
  op_eq_hv a v w = outcome_of (T_eq (_value ma) v) w.
Proof.
  intros Ha Hla. unfold op_eq_hv, noexcept.
  rewrite (bind_Return _ _ _ _ _ (read_eq w a la ma Ha Hla)).
  by destruct (T_eq (_value ma) v).
Qed.

Lemma op_eq_vh_eq w a la ma v :
  handles w !! a = Some (Some la) → cells w !! la = Some ma →
  op_eq_vh v a w = outcome_of (T_eq v (_value ma)) w.
Proof.
  intros Ha Hla. unfold op_eq_vh, noexcept.
  rewrite (bind_Return _ _ _ _ _ (read_eq w a la ma Ha Hla)).
  by destruct (T_eq v (_value ma)).
Qed.

(** A [noexcept] operator that forwards to another one, negating or not. *)
Lemma noexcept_forward (m : M T E bool) w (r : E + bool) :
  m w = outcome_of r w → noexcept m w = outcome_of r w.
Proof. intros Hm. unfold noexcept. rewrite Hm. by destruct r. Qed.

Lemma noexcept_negate (m : M T E bool) w (r : E + bool) :
  m w = outcome_of r w →
  noexcept (b <- m;; ret (negb b)) w = outcome_of (negated r) w.
Proof.
  intros Hm. unfold noexcept, bind. cbv beta. rewrite Hm. by destruct r.
Qed.

Lemma noexcept_not (m : M T E bool) w :
  (∀ e w', m w ≠ Throw e w') →
  noexcept (b <- m;; ret (negb b)) w = not_outcome (m w).
Proof.
  intros Hm. unfold noexcept, bind. cbv beta.
  destruct (m w) as [b w'|e w'| |] eqn:Hr; try done. by destruct (Hm e w').
Qed.

Lemma op_lt_nothrow a b w e w' : op_lt a b w ≠ Throw e w'.
Proof. unfold op_lt, noexcept. by case_match. Qed.

(** C4.  For non-null [a] and [b]: [a == b] is true exactly when the two
    are identical or their values compare equal; [a < b] is true exactly
    when they are not identical and their values compare less, so nothing
    is less than itself; [>], [<=], [>=] are [b < a], [!(b < a)],
    [!(a < b)]; and every comparison of an object with a raw value is the
    comparison of raw values with [read()] in place of the object. *)
Theorem comparison_operators w a b la lb ma mb (v : T) :
  handles w !! a = Some (Some la) → handles w !! b = Some (Some lb) →
  cells w !! la = Some ma → cells w !! lb = Some mb →
  (op_eq a b w = Return true w ↔
     identity (E:=E) a b w = Return true w ∨
     T_eq (_value ma) (_value mb) = inr true) ∧
  (op_lt a b w = Return true w ↔
     identity (E:=E) a b w = Return false w ∧
     T_lt (_value ma) (_value mb) = inr true) ∧
  op_lt a a w = Return false w ∧
  op_gt a b w = op_lt b a w ∧
  op_le a b w = not_outcome (op_lt b a w) ∧
  op_ge a b w = not_outcome (op_lt a b w) ∧
  op_ne a b w = not_outcome (op_eq a b w) ∧
  (read (E:=E) a w = Return (_value ma) w ∧
   op_lt_hv a v w = outcome_of (value_lt (_value ma) v) w ∧
   op_lt_vh v a w = outcome_of (value_lt v (_value ma)) w ∧
   op_gt_hv a v w = outcome_of (value_gt (_value ma) v) w ∧
   op_gt_vh v a w = outcome_of (value_gt v (_value ma)) w ∧
   op_le_hv a v w = outcome_of (value_le (_value ma) v) w ∧
   op_le_vh v a w = outcome_of (value_le v (_value ma)) w ∧
   op_ge_hv a v w = outcome_of (value_ge (_value ma) v) w ∧
   op_ge_vh v a w = outcome_of (value_ge v (_value ma)) w ∧
   op_eq_hv a v w = outcome_of (value_eq (_value ma) v) w ∧
   op_eq_vh v a w = outcome_of (value_eq v (_value ma)) w ∧
   op_ne_hv a v w = outcome_of (value_ne (_value ma) v) w ∧
   op_ne_vh v a w = outcome_of (value_ne v (_value ma)) w).
Proof.
  intros Ha Hb Hla Hlb.
  pose proof (op_lt_hv_eq w a la ma v Ha Hla) as Hlt1.
  pose proof (op_lt_vh_eq w a la ma v Ha Hla) as Hlt2.
  pose proof (op_eq_hv_eq w a la ma v Ha Hla) as Heq1.
  pose proof (op_eq_vh_eq w a la ma v Ha Hla) as Heq2.
  split_and!.
  - rewrite (op_eq_eq w a b la lb ma mb), (identity_eq w a b la lb) by done.
    destruct (bool_decide (la = lb)); [intuition congruence|].
    destruct (T_eq (_value ma) (_value mb)) as [e|[|]]; simpl;
      intuition congruence.
  - rewrite (op_lt_eq w a b la lb ma mb), (identity_eq w a b la lb) by done.
    destruct (bool_decide (la = lb)); [intuition congruence|].
    destruct (T_lt (_value ma) (_value mb)) as [e|[|]]; simpl;
      intuition congruence.
  - rewrite (op_lt_eq w a a la la ma ma) by done.
    by rewrite bool_decide_true.
  - unfold op_gt, noexcept. pose proof (op_lt_nothrow b a w) as Hn.
    destruct (op_lt b a w) as [x w'|e w'| |]; try done. by destruct (Hn e w').
  - apply noexcept_not, op_lt_nothrow.
  - apply noexcept_not, op_lt_nothrow.
  - apply noexcept_not. intros e w'. unfold op_eq, noexcept. by case_match.
  - by apply (read_eq w a la ma).
  - done.
  - done.
  - by apply noexcept_forward.
  - by apply noexcept_forward.
  - by apply noexcept_negate.
  - by apply noexcept_negate.
  - by apply noexcept_negate.
  - by apply noexcept_negate.
  - done.
  - done.
  - by apply noexcept_negate.
  - by apply noexcept_negate.
Qed.

End comparisons.

Lemma comparison_operators_witness :
  op_eq (RT:=nat_ops) 1%positive 2%positive w_two = Return false w_two ∧
  op_lt (RT:=nat_ops) 1%positive 2%positive w_two = Return true w_two ∧
  op_lt (RT:=nat_ops) 1%positive 1%positive w_two = Return false w_two ∧
  op_ge_hv (RT:=nat_ops) 1%positive 9%nat w_two = Return false w_two.
Proof.
  destruct (comparison_operators (RT:=nat_ops) w_two 1%positive 2%positive
              2%positive 3%positive (Model 1 7%nat) (Model 1 8%nat) 9%nat)
    as (_ & H2 & H3 & _ & _ & _ & _ & _ & _ & _ & _ & _ & _ & _ & H4 & _);
    [reflexivity..|].
  split; [reflexivity|]. split; [|split; [exact H3|exact H4]].
  apply H2. split; reflexivity.
Defined.

(** ** Failures of the element type *)

Section failures.
Context {T E : Type} {RT : Regular T E}.
Variable NDEBUG : bool.
Implicit Types (w : world T).

Arguments wrap : simpl never.

(** [new model(...)] fails: no object comes to exist, nothing changes. *)
Lemma ctor_value_throw w this mk :
  (space w = 0%nat ∨ ∃ e, mk = inl e) →
  ctor_value (E:=E) this mk w =
    Throw (match space w, mk with
           | O, _ => bad_alloc
           | _, inl e => T_exn e
           | _, inr _ => bad_alloc
           end) w.
Proof.
  intros Hf. unfold ctor_value, bind, new_model.
  destruct (space w); [done|]. by destruct Hf as [?|[e ->]].
Qed.

Lemma assign_new_throw w this mk :
  (space w = 0%nat ∨ ∃ e, mk = inl e) →
  assign_new NDEBUG this mk w =
    Throw (match space w, mk with
           | O, _ => bad_alloc
           | _, inl e => T_exn e
           | _, inr _ => bad_alloc
           end) w.
Proof.
  intros Hf. unfold assign_new, fresh_name. unfold bind at 1.
  apply bind_Throw. by apply ctor_value_throw.
Qed.

Lemma write_throw w this l m :
  handles w !! this = Some (Some l) → cells w !! l = Some m → _count m ≠ 1 →
  (space w = 0%nat ∨ ∃ e, T_copy (_value m) = inl e) →
  write NDEBUG this w =
    Throw (match space w, T_copy (_value m) with
           | O, _ => bad_alloc
           | _, inl e => T_exn e
           | _, inr _ => bad_alloc
           end) w.
Proof.
  intros Ht Hl Hone Hf. unfold write.
  rewrite (bind_Return _ _ _ _ _ (unique_eq w this l m Ht Hl)).
  replace (_count m =? 1) with false by (symmetry; by apply Z.eqb_neq).
  simpl. apply bind_Throw.
  rewrite (bind_Return _ _ _ _ _ (read_eq w this l m Ht Hl)).
  by apply assign_new_throw.
Qed.

Lemma write_with_transform_throw w this l m transform inplace e :
  handles w !! this = Some (Some l) → cells w !! l = Some m → _count m ≠ 1 →
  transform (_value m) = inl e →
  write_with NDEBUG this transform inplace w = Throw (T_exn e) w.
Proof.
  intros Ht Hl Hone Htr. unfold write_with.
  rewrite (bind_Return _ _ _ _ _ (unique_eq w this l m Ht Hl)).
  replace (_count m =? 1) with false by (symmetry; by apply Z.eqb_neq).
  simpl. apply bind_Throw.
  rewrite (bind_Return _ _ _ _ _ (read_eq w this l m Ht Hl)).
  by rewrite Htr.
Qed.

Lemma write_with_alloc_throw w this l m transform inplace v :
  handles w !! this = Some (Some l) → cells w !! l = Some m → _count m ≠ 1 →
  transform (_value m) = inr v → space w = 0%nat →
  write_with NDEBUG this transform inplace w = Throw bad_alloc w.
Proof.
  intros Ht Hl Hone Htr Hs. unfold write_with.
  rewrite (bind_Return _ _ _ _ _ (unique_eq w this l m Ht Hl)).
  replace (_count m =? 1) with false by (symmetry; by apply Z.eqb_neq).
  simpl. apply bind_Throw.
  rewrite (bind_Return _ _ _ _ _ (read_eq w this l m Ht Hl)).
  rewrite Htr. simpl. unfold bind at 1. simpl.
  rewrite assign_new_throw by auto. by rewrite Hs.
Qed.

Lemma write_with_inplace_throw w this l m transform inplace e :
  handles w !! this = Some (Some l) → cells w !! l = Some m → _count m = 1 →
  (inplace (_value m)).2 = Some e →
  write_with NDEBUG this transform inplace w =
    Throw (T_exn e) (upd_cells <[l:=Model 1 (inplace (_value m)).1]> w).
Proof.
  intros Ht Hl Hone Hin. unfold write_with.
  rewrite (bind_Return _ _ _ _ _ (unique_eq w this l m Ht Hl)).
  rewrite Hone. simpl.
  unfold bind, get_self, load, store. cbv beta.
  rewrite Ht. simpl. rewrite Hl. simpl. rewrite Hl, Hin. simpl.
  by rewrite Hone.
Qed.

Lemma value_assign_inplace_throw w this l m v e v' :
  handles w !! this = Some (Some l) → cells w !! l = Some m → _count m = 1 →
  T_assign (_value m) v = inl (e, v') →
  value_assign NDEBUG this v w =
    Throw (T_exn e) (upd_cells <[l:=Model 1 v']> w).
Proof.
  intros Ht Hl Hone Has. unfold value_assign.
  rewrite (bind_Return _ _ _ _ _ (get_self_eq w this _ Ht)).
  rewrite (bind_Return _ _ _ _ _ (unique_eq w this l m Ht Hl)).
  rewrite Hone. simpl. unfold bind, load, store. simpl.
  rewrite Hl, Has. cbv beta. rewrite Hl. simpl. by rewrite Hone.
Qed.

Lemma value_assign_new_throw w this l m v :
  handles w !! this = Some (Some l) → cells w !! l = Some m → _count m ≠ 1 →
  (space w = 0%nat ∨ ∃ e, T_copy v = inl e) →
  value_assign NDEBUG this v w =
    Throw (match space w, T_copy v with
           | O, _ => bad_alloc
           | _, inl e => T_exn e
           | _, inr _ => bad_alloc
           end) w.
Proof.
  intros Ht Hl Hone Hf. unfold value_assign.
  rewrite (bind_Return _ _ _ _ _ (get_self_eq w this _ Ht)).
  rewrite (bind_Return _ _ _ _ _ (unique_eq w this l m Ht Hl)).
  replace (_count m =? 1) with false by (symmetry; by apply Z.eqb_neq).
  by apply assign_new_throw.
Qed.

Lemma ctor_default_throw w this e :
  T_default = Some (inl e) → cells w !! default_loc = None →
  ctor_default this w = Throw (T_exn e) w.
Proof.
  intros HT Hd. unfold ctor_default, bind, default_model. by rewrite Hd, HT.
Qed.

(** C9, as the code has it.  A failure of the element type's constructor,
    copy, assignment, [transform] or [inplace], and an allocation failure,
    reach the caller of the constructor, of [write] and of value
    assignment unchanged; when the failure happens while the replacement
    cell is built, the whole state, so the object too, is what it was.  A
    failure of the element type's [<] or [==] inside a comparison operator
    of the wrapper does not reach the caller: these operators are
    [noexcept] and the program terminates.  So does the destructor of the
    last owner of a cell in a build with assertions, when its assertion
    initialises [default_s] and the default constructor of [T] throws. *)
Theorem failures_propagate_except_comparisons w h l m :
  handles w !! h = Some (Some l) → cells w !! l = Some m →
  (∀ h' e, T_default = Some (inl e) → cells w !! default_loc = None →
     ctor_default h' w = Throw (T_exn e) w) ∧
  (∀ h' e, space w ≠ 0%nat →
     ctor_value (E:=E) h' (inl e) w = Throw (T_exn e) w) ∧
  (∀ h' mk, space w = 0%nat →
     ctor_value (E:=E) h' mk w = Throw bad_alloc w) ∧
  (_count m ≠ 1 →
     (∀ e, T_copy (_value m) = inl e → space w ≠ 0%nat →
        write NDEBUG h w = Throw (T_exn e) w) ∧
     (space w = 0%nat → write NDEBUG h w = Throw bad_alloc w) ∧
     (∀ transform inplace e, transform (_value m) = inl e →
        write_with NDEBUG h transform inplace w = Throw (T_exn e) w) ∧
     (∀ transform inplace v, transform (_value m) = inr v → space w = 0%nat →
        write_with NDEBUG h transform inplace w = Throw bad_alloc w) ∧
     (∀ v e, T_copy v = inl e → space w ≠ 0%nat →
        value_assign NDEBUG h v w = Throw (T_exn e) w) ∧
     (∀ v, space w = 0%nat →
        value_assign NDEBUG h v w = Throw bad_alloc w)) ∧
  (_count m = 1 →
     (∀ transform inplace e, (inplace (_value m)).2 = Some e →
        write_with NDEBUG h transform inplace w =
          Throw (T_exn e) (upd_cells <[l:=Model 1 (inplace (_value m)).1]> w)) ∧
     (∀ v e v', T_assign (_value m) v = inl (e, v') →
        value_assign NDEBUG h v w =
          Throw (T_exn e) (upd_cells <[l:=Model 1 v']> w))) ∧
  (∀ b lb mb e,
     handles w !! b = Some (Some lb) → cells w !! lb = Some mb → l ≠ lb →
     (T_lt (_value m) (_value mb) = inl e → op_lt h b w = Terminate) ∧
     (T_eq (_value m) (_value mb) = inl e → op_eq h b w = Terminate)) ∧
  (∀ v e,
     (T_lt (_value m) v = inl e → op_lt_hv h v w = Terminate) ∧
     (T_eq (_value m) v = inl e → op_eq_hv h v w = Terminate)) ∧
  (∀ e, _count m = 1 → l ≠ default_loc → NDEBUG = false →
     T_default = Some (inl e) → cells w !! default_loc = None →
     dtor NDEBUG h w = Terminate).
Proof.
  intros Hh Hl. split_and!.
  - intros h' e HT Hd. by apply ctor_default_throw.
  - intros h' e Hs. rewrite ctor_value_throw by eauto.
    by destruct (space w).
  - intros h' mk Hs. rewrite ctor_value_throw by eauto. by rewrite Hs.
  - intros Hone. split_and!.
    + intros e Hcp Hs. rewrite (write_throw w h l m) by eauto.
      rewrite Hcp. by destruct (space w).
    + intros Hs. rewrite (write_throw w h l m) by eauto. by rewrite Hs.
    + intros transform inplace e Htr.
      by apply (write_with_transform_throw w h l m).
    + intros transform inplace v Htr Hs.
      by apply (write_with_alloc_throw w h l m transform inplace v).
    + intros v e Hcp Hs. rewrite (value_assign_new_throw w h l m) by eauto.
      rewrite Hcp. by destruct (space w).
    + intros v Hs. rewrite (value_assign_new_throw w h l m) by eauto.
      by rewrite Hs.
  - intros Hone. split.
    + intros transform inplace e Hin.
      by apply (write_with_inplace_throw w h l m).
    + intros v e v' Has. by apply (value_assign_inplace_throw w h l m v e v').
  - intros b lb mb e Hb Hlb Hne. split.
    + intros Hlt. rewrite (op_lt_eq w h b l lb m mb) by done.
      rewrite bool_decide_false by done. by rewrite Hlt.
    + intros Heq. rewrite (op_eq_eq w h b l lb m mb) by done.
      rewrite bool_decide_false by done. by rewrite Heq.
  - intros v e. split.
    + intros Hlt. rewrite (op_lt_hv_eq w h l m v) by done. by rewrite Hlt.
    + intros Heq. rewrite (op_eq_hv_eq w h l m v) by done. by rewrite Heq.
  - intros e Hone Hld HN HT Hd. rewrite (dtor_last_eq NDEBUG w h l m) by done.
    unfold asserted_cells. by rewrite HN, HT, Hd.
Qed.

End failures.

(** C9 as stated fails: the element type's [<] throws on the values of two
    distinct, non-identical objects, and [a < b] terminates the program
    instead of letting the exception through. *)
Lemma comparison_failure_not_propagated :
  reachable (RT:=fragile_ops) false 3 w_two ∧
  read (E:=unit) 1%positive w_two = Return 7%nat w_two ∧
  read (E:=unit) 2%positive w_two = Return 8%nat w_two ∧
  T_lt (Regular:=fragile_ops) 7%nat 8%nat = inl tt ∧
  op_lt (RT:=fragile_ops) 1%positive 2%positive w_two = Terminate ∧
  op_lt (RT:=fragile_ops) 1%positive 2%positive w_two
    ≠ Throw (T_exn tt) w_two.
Proof.
  split; [exact reach_two|]. repeat split; try reflexivity. discriminate.
Qed.

Lemma failures_propagate_except_comparisons_witness :
  reachable (RT:=fragile_ops) false 3 w_pair ∧
  write (RT:=fragile_ops) false 2%positive w_pair
    = Throw (T_exn tt) w_pair ∧
  value_assign (RT:=fragile_ops) false 2%positive 9%nat w_pair
    = Throw (T_exn tt) w_pair ∧
  write_with (RT:=fragile_ops) false 2%positive (λ _, inl tt) (λ x, (x, None))
    w_pair = Throw (T_exn tt) w_pair.
Proof.
  split; [exact reach_pair|].
  destruct (failures_propagate_except_comparisons (RT:=fragile_ops) false
              w_pair 2%positive 2%positive (Model 2 7%nat))
    as (_ & _ & _ & Hshared & _); [reflexivity..|].
  destruct Hshared as (H1 & _ & H2 & _ & H3 & _); [done|].
  split; [|split].
  - apply (H1 tt); [reflexivity|done].
  - apply (H3 9%nat tt); [reflexivity|done].
  - apply (H2 (λ _, inl tt) (λ x, (x, None)) tt). reflexivity.
Defined.

(** ** Once initialised, [default_s] stays *)

Section default_cell.
Context {T E : Type} {RT : Regular T E}.
Variable NDEBUG : bool.
Implicit Types (w : world T).

Lemma keeps_ret {A} P (a : A) : keeps (T:=T) (E:=E) P (ret a).
Proof. by intros w Hw. Qed.

Lemma keeps_bind {A B} P (m : M T E A) (f : A → M T E B) :
  keeps P m → (∀ a, keeps P (f a)) → keeps P (bind m f).
Proof. intros Hm Hf. eapply hoare_bind; [exact Hm|exact Hf]. Qed.

Lemma keeps_noexcept {A} P (m : M T E A) : keeps P m → keeps P (noexcept m).
Proof. intros Hm. eapply hoare_noexcept. exact Hm. Qed.

Local Ltac cells_same :=
  intros w Hw;
  unfold get_self, set_self, declare, undeclare, fresh_name, load, assert,
    nonnull, throw, ret, lift;
  repeat (case_match; try done); unfold ret, throw in *; simplify_eq;
  exact Hw.

Lemma keeps_get_self h : keeps (T:=T) (E:=E) default_live (get_self h).
Proof. cells_same. Qed.
Lemma keeps_set_self h p : keeps (T:=T) (E:=E) default_live (set_self h p).
Proof. cells_same. Qed.
Lemma keeps_declare h p : keeps (T:=T) (E:=E) default_live (declare h p).
Proof. cells_same. Qed.
Lemma keeps_undeclare h : keeps (T:=T) (E:=E) default_live (undeclare h).
Proof. cells_same. Qed.
Lemma keeps_fresh_name : keeps (T:=T) (E:=E) default_live fresh_name.
Proof. cells_same. Qed.
Lemma keeps_load l : keeps (T:=T) (E:=E) default_live (load l).
Proof. cells_same. Qed.
Lemma keeps_assert b : keeps (T:=T) (E:=E) default_live (assert b).
Proof. cells_same. Qed.
Lemma keeps_nonnull p : keeps (T:=T) (E:=E) default_live (nonnull p).
Proof. cells_same. Qed.
Lemma keeps_throw {A} e : keeps (T:=T) (E:=E) (A:=A) default_live (throw e).
Proof. cells_same. Qed.
Lemma keeps_lift {A} (r : E + A) : keeps (T:=T) (E:=E) default_live (lift r).
Proof. cells_same. Qed.

Lemma keeps_store l m : keeps (T:=T) (E:=E) default_live (store l m).
Proof.
  intros w Hw. unfold store. destruct (cells w !! l); [|done].
  unfold default_live in *. simpl. rewrite lookup_insert_is_Some'. auto.
Qed.

Lemma keeps_new_model mk : keeps (T:=T) (E:=E) default_live (new_model mk).
Proof.
  intros w Hw. unfold new_model. destruct (space w); [done|].
  destruct mk; [done|].
  unfold default_live in *. simpl. rewrite lookup_insert_is_Some'. auto.
Qed.

Lemma keeps_delete_model l :
  keeps (T:=T) (E:=E) default_live (delete_model l).
Proof.
  intros w Hw. unfold delete_model. destruct (cells w !! l); [|done].
  case_decide; [done|].
  unfold default_live in *. simpl. rewrite lookup_delete_is_Some. auto.
Qed.

Lemma keeps_default_model : keeps (T:=T) (E:=E) default_live default_model.
Proof.
  intros w Hw. unfold default_model. destruct (cells w !! default_loc); [done|].
  destruct T_default as [[e|v]|]; try done.
  unfold default_live. simpl. rewrite lookup_insert_is_Some'. auto.
Qed.

Local Ltac keeps_tac :=
  repeat first
    [ apply keeps_noexcept
    | apply keeps_bind; [|intros ?]
    | apply keeps_ret
    | apply keeps_get_self | apply keeps_set_self | apply keeps_declare
    | apply keeps_undeclare | apply keeps_fresh_name | apply keeps_load
    | apply keeps_assert | apply keeps_nonnull | apply keeps_throw
    | apply keeps_lift | apply keeps_store | apply keeps_new_model
    | apply keeps_delete_model | apply keeps_default_model
    | match goal with
      | |- keeps _ (match ?x with _ => _ end) => destruct x
      end ].

Lemma keeps_ctor_default h : keeps (E:=E) default_live (ctor_default h).
Proof. unfold ctor_default. keeps_tac. Qed.

Lemma keeps_ctor_value h mk :
  keeps (T:=T) (E:=E) default_live (ctor_value h mk).
Proof. unfold ctor_value. keeps_tac. Qed.

Lemma keeps_ctor_copy h x : keeps (T:=T) (E:=E) default_live (ctor_copy h x).
Proof. unfold ctor_copy. keeps_tac. Qed.

Lemma keeps_ctor_move h x : keeps (T:=T) (E:=E) default_live (ctor_move h x).
Proof. unfold ctor_move. keeps_tac. Qed.

Lemma keeps_dtor h : keeps (E:=E) default_live (dtor NDEBUG h).
Proof. unfold dtor. keeps_tac. Qed.

Lemma keeps_swap x y : keeps (T:=T) (E:=E) default_live (swap x y).
Proof. unfold swap. keeps_tac. Qed.

Lemma keeps_unique h : keeps (T:=T) (E:=E) default_live (unique h).
Proof. unfold unique. keeps_tac. Qed.

Lemma keeps_read h : keeps (T:=T) (E:=E) default_live (read h).
Proof. unfold read. keeps_tac. Qed.

Lemma keeps_move_assign h x :
  keeps (E:=E) default_live (move_assign NDEBUG h x).
Proof.
  unfold move_assign.
  keeps_tac; first [apply keeps_ctor_move|apply keeps_swap|apply keeps_dtor].
Qed.

Lemma keeps_copy_assign h x :
  keeps (E:=E) default_live (copy_assign NDEBUG h x).
Proof.
  unfold copy_assign.
  keeps_tac; first [apply keeps_ctor_copy|apply keeps_move_assign|apply keeps_dtor].
Qed.

Lemma keeps_assign_new h mk :
  keeps (E:=E) default_live (assign_new NDEBUG h mk).
Proof.
  unfold assign_new.
  keeps_tac; first [apply keeps_ctor_value|apply keeps_move_assign|apply keeps_dtor].
Qed.

Lemma keeps_value_assign h v :
  keeps (E:=E) default_live (value_assign NDEBUG h v).
Proof.
  unfold value_assign.
  keeps_tac; first [apply keeps_unique|apply keeps_assign_new].
Qed.

Lemma keeps_write h : keeps (E:=E) default_live (write NDEBUG h).
Proof.
  unfold write.
  keeps_tac; first [apply keeps_unique|apply keeps_read|apply keeps_assign_new].
Qed.

Lemma keeps_write_with h transform inplace :
  keeps (E:=E) default_live (write_with NDEBUG h transform inplace).
Proof.
  unfold write_with.
  keeps_tac; first [apply keeps_unique|apply keeps_read|apply keeps_assign_new].
Qed.

Lemma keeps_exec o : keeps (E:=E) default_live (exec NDEBUG o).
Proof.
  destruct o; simpl.
  - apply keeps_ctor_default.
  - apply keeps_ctor_value.
  - apply keeps_ctor_copy.
  - apply keeps_ctor_move.
  - apply keeps_dtor.
  - apply keeps_copy_assign.
  - apply keeps_move_assign.
  - apply keeps_value_assign.
  - keeps_tac; apply keeps_write.
  - keeps_tac; apply keeps_write_with.
  - apply keeps_swap.
Qed.

End default_cell.

(** ** The counts *)

Section counts.
Context {T E : Type} {RT : Regular T E}.
Variable NDEBUG : bool.
Implicit Types (w : world T).

Arguments wrap : simpl never.

Lemma ctor_default_eq w h m :
  cells w !! default_loc = Some m → handles w !! h = None →
  ctor_default h w =
    Return tt (World (<[default_loc:=Model (wrap (_count m + 1)) (_value m)]>
                        (cells w))
                 (next w) (space w) (freed w)
                 (<[h:=Some default_loc]> (handles w))).
Proof.
  intros Hd Hh.
  unfold ctor_default, bind, default_model, declare, fetch_add. cbv beta.
  rewrite Hd. simpl. rewrite Hh. simpl. unfold bind, load, store. simpl.
  rewrite !Hd. simpl. by rewrite Hd.
Qed.

Lemma ctor_default_first_eq w h v :
  cells w !! default_loc = None → T_default = Some (inr v) →
  handles w !! h = None →
  ctor_default h w =
    Return tt (World (<[default_loc:=Model 2 v]> (cells w))
                 (next w) (space w) (freed w)
                 (<[h:=Some default_loc]> (handles w))).
Proof.
  intros Hd HT Hh.
  unfold ctor_default, bind, default_model, declare, fetch_add. cbv beta.
  rewrite Hd, HT. simpl. rewrite Hh. simpl. unfold bind, load, store. simpl.
  rewrite !lookup_insert_eq. simpl. rewrite lookup_insert_eq. simpl.
  unfold ret, upd_cells, upd_handles. simpl. by rewrite insert_insert_eq.
Qed.

(** C2.  In every reachable state the count of a live cell is the number
    of objects that point to it, plus one for [default_s]; an object only
    points to a live cell.  Copy construction adds exactly one to the
    count of the source's cell.  Destruction of an object takes exactly
    one off the count of its cell when that count is not one; when it is
    one the cell is not [default_s] and is deleted there and then (a build
    with assertions may terminate instead, inside the assertion).  Copy
    assignment onto an object that is null or not the last owner of another
    cell adds exactly one to the count of the source's cell and takes
    exactly one off the count of the cell left behind.  No cell is deleted
    twice, a deleted cell is gone, and [default_s] is never deleted. *)
Theorem refcount_invariant capacity w :
  reachable NDEBUG capacity w →
  (∀ l m, cells w !! l = Some m →
     _count m = Z.of_nat (refs (handles w) l) + extra l) ∧
  (∀ h l, handles w !! h = Some (Some l) →
     ∃ m, cells w !! l = Some m ∧ 1 ≤ _count m) ∧
  (∀ this x l m,
     handles w !! x = Some (Some l) → handles w !! this = None →
     cells w !! l = Some m →
     ∃ w', ctor_copy (E:=E) this x w = Return tt w' ∧
           cells w' !! l = Some (Model (_count m + 1) (_value m)) ∧
           freed w' = freed w) ∧
  (∀ this l m,
     handles w !! this = Some (Some l) → cells w !! l = Some m →
     _count m ≠ 1 →
     ∃ w', dtor NDEBUG this w = Return tt w' ∧
           cells w' !! l = Some (Model (_count m - 1) (_value m)) ∧
           freed w' = freed w) ∧
  (∀ this l m,
     handles w !! this = Some (Some l) → cells w !! l = Some m →
     _count m = 1 →
     l ≠ default_loc ∧ (l ∉ freed w) ∧
     (dtor NDEBUG this w = Terminate ∨
      ∃ w', dtor NDEBUG this w = Return tt w' ∧
            cells w' !! l = None ∧ freed w' = l :: freed w) ∧
     (NDEBUG = true →
      ∃ w', dtor NDEBUG this w = Return tt w' ∧
            cells w' !! l = None ∧ freed w' = l :: freed w)) ∧
  (∀ this x p l m,
     this ≠ x → handles w !! this = Some p →
     handles w !! x = Some (Some l) → cells w !! l = Some m → p ≠ Some l →
     (∀ k mk, p = Some k → cells w !! k = Some mk → _count mk ≠ 1) →
     ∃ w', copy_assign (E:=E) NDEBUG this x w = Return tt w' ∧
           handles w' !! this = Some (Some l) ∧
           cells w' !! l = Some (Model (_count m + 1) (_value m)) ∧
           (∀ k mk, p = Some k → cells w !! k = Some mk →
              cells w' !! k = Some (Model (_count mk - 1) (_value mk))) ∧
           freed w' = freed w) ∧
  NoDup (freed w) ∧
  (∀ l, l ∈ freed w → cells w !! l = None) ∧
  (default_loc ∉ freed w).
Proof.
  intros Hr.
  destruct (reachable_I NDEBUG capacity w Hr)
    as [[Hc Hatt [Hn1 Hn2 Hf1 Hf2 Hf3 Hf4]] Hb].
  split_and!; try done.
  - intros h l Hh. destruct (Hatt h l Hh) as [m Hl]. exists m.
    pose proof (counted_pos _ _ _ _ _ Hc Hh Hl). pose proof (extra_range l).
    split; [done|lia].
  - intros this x l m Hx Ht Hl.
    destruct (reachable_count NDEBUG capacity w l m Hr Hl).
    eexists. split; [by apply ctor_copy_eq|]. simpl.
    rewrite lookup_insert_eq, wrap_small by lia. done.
  - intros this l m Ht Hl Hone.
    destruct (reachable_count NDEBUG capacity w l m Hr Hl).
    pose proof (counted_pos _ _ _ _ _ Hc Ht Hl). pose proof (extra_range l).
    eexists. split; [apply (dtor_shared_eq NDEBUG w this l m); [done..|lia|done]|].
    simpl. rewrite lookup_insert_eq, wrap_small by lia. done.
  - intros this l m Ht Hl Hone.
    assert (l ≠ default_loc) as Hld by (by eapply counted_last).
    assert (l ∉ freed w) as Hlf.
    { intros Hin. specialize (Hf2 l Hin). congruence. }
    rewrite (dtor_last_eq NDEBUG w this l m) by done.
    split; [done|]. split; [done|]. split.
    + destruct (asserted_cells NDEBUG w) as [cs|]; [right|by left].
      eexists. split; [done|]. simpl. by rewrite lookup_delete_eq.
    + intros HN. rewrite (asserted_cells_release NDEBUG) by done.
      eexists. split; [done|]. simpl. by rewrite lookup_delete_eq.
  - intros this x p l m Hne Ht Hx Hl Hpl Hp.
    destruct (reachable_count NDEBUG capacity w l m Hr Hl).
    pose proof (reachable_not_last NDEBUG capacity w this p Hr Ht Hp) as Hnl.
    eexists. split; [by apply copy_assign_eq|]. simpl. split_and!.
    + apply lookup_insert_eq.
    + rewrite detach_other by done. apply lookup_insert_eq.
    + intros k mk -> Hk. assert (k ≠ l) by congruence. simpl.
      rewrite lookup_insert_ne by done. rewrite Hk.
      rewrite lookup_insert_eq.
      destruct (reachable_count NDEBUG capacity w k mk Hr Hk).
      pose proof (counted_pos _ _ _ _ _ Hc Ht Hk). pose proof (extra_range k).
      rewrite wrap_small by lia. done.
    + done.
Qed.

(** C6, as the code has it.  The count of [default_s] starts at one, the
    first default-constructed object makes it two and every further
    default construction adds one.  It is one more than the number of
    objects on [default_s], so it is never below one and is exactly one
    when no object is left; destroying an object on [default_s] takes one
    off and deletes nothing.  [default_s] is never deleted and, once
    initialised, stays. *)
Theorem default_cell_never_below_one capacity w :
  reachable NDEBUG capacity w →
  (∀ v, T_default = Some (inr v) → cells w !! default_loc = None →
     ∃ w', default_model w = Return default_loc w' ∧
           cells w' !! default_loc = Some (Model 1 v)) ∧
  (∀ h v, T_default = Some (inr v) → cells w !! default_loc = None →
     handles w !! h = None →
     ∃ w', ctor_default h w = Return tt w' ∧
           handles w' !! h = Some (Some default_loc) ∧
           cells w' !! default_loc = Some (Model 2 v)) ∧
  (∀ h m, cells w !! default_loc = Some m → handles w !! h = None →
     ∃ w', ctor_default h w = Return tt w' ∧
           handles w' !! h = Some (Some default_loc) ∧
           cells w' !! default_loc
             = Some (Model (_count m + 1) (_value m))) ∧
  (∀ m, cells w !! default_loc = Some m →
     _count m = Z.of_nat (refs (handles w) default_loc) + 1 ∧
     1 ≤ _count m) ∧
  (∀ h m, handles w !! h = Some (Some default_loc) →
     cells w !! default_loc = Some m →
     ∃ w', dtor NDEBUG h w = Return tt w' ∧
           cells w' !! default_loc
             = Some (Model (_count m - 1) (_value m)) ∧
           1 ≤ _count m - 1 ∧ freed w' = freed w) ∧
  (default_loc ∉ freed w) ∧
  (∀ o w', default_live w → completes (exec NDEBUG o w) w' →
     default_live w').
Proof.
  intros Hr.
  destruct (reachable_I NDEBUG capacity w Hr)
    as [[Hc Hatt [Hn1 Hn2 Hf1 Hf2 Hf3 Hf4]] Hb].
  split_and!; try done.
  - intros v HT Hd. unfold default_model. rewrite Hd, HT.
    eexists. split; [done|]. simpl. apply lookup_insert_eq.
  - intros h v HT Hd Hh. rewrite (ctor_default_first_eq w h v) by done.
    eexists. split; [done|]. simpl. by rewrite !lookup_insert_eq.
  - intros h m Hd Hh. rewrite (ctor_default_eq w h m) by done.
    destruct (reachable_count NDEBUG capacity w _ m Hr Hd).
    eexists. split; [done|]. simpl.
    rewrite !lookup_insert_eq, wrap_small by lia. done.
  - intros m Hd. rewrite (Hc _ m Hd), extra_default. lia.
  - intros h m Hh Hd.
    destruct (reachable_count NDEBUG capacity w _ m Hr Hd).
    pose proof (counted_pos _ _ _ _ _ Hc Hh Hd) as Hp.
    rewrite extra_default in Hp.
    eexists. split; [apply (dtor_shared_eq NDEBUG w h default_loc m); [done..|lia|lia]|].
    simpl. rewrite lookup_insert_eq, wrap_small by lia.
    split_and!; [done|lia|done].
  - intros o w' Hlive Hdone. pose proof (keeps_exec NDEBUG o w Hlive) as Hk.
    destruct (exec NDEBUG o w); simpl in Hdone; try done; by subst.
Qed.

End counts.

Lemma reach_default1 : reachable (RT:=nat_ops) false 3 w_default1.
Proof.
  eapply reach_step with (o := Default 1%positive).
  - apply reach_init.
  - intros _. vm_compute. reflexivity.
  - vm_compute. reflexivity.
Defined.

Lemma refcount_invariant_witness :
  (∀ l m, cells w_shared !! l = Some m →
     _count m = Z.of_nat (refs (handles w_shared) l) + extra l) ∧
  (∃ w', dtor (RT:=nat_ops) false 2%positive w_shared = Return tt w' ∧
         cells w' !! 1%positive = Some (Model 2 0%nat) ∧ freed w' = []) ∧
  NoDup (freed w_shared) ∧ (default_loc ∉ freed w_shared).
Proof.
  destruct (refcount_invariant (RT:=nat_ops) false 3%nat w_shared reach_shared)
    as (H1 & _ & _ & H2 & _ & _ & H3 & _ & H4).
  split; [exact H1|]. split; [|split; assumption].
  apply (H2 2%positive 1%positive (Model 3 0%nat)); [reflexivity..|done].
Defined.

(** C6 as stated fails: the destruction of the only object on [default_s]
    brings the count from two back to the baseline of one. *)
Lemma default_count_returns_to_baseline :
  reachable (RT:=nat_ops) false 3 w_default1 ∧
  cells w_default1 !! default_loc = Some (Model 2 0%nat) ∧
  exec (RT:=nat_ops) false (Destroy 1%positive) w_default1
    = Return tt w_default0 ∧
  cells w_default0 !! default_loc = Some (Model 1 0%nat).
Proof.
  split; [exact reach_default1|]. repeat split; vm_compute; reflexivity.
Qed.

Lemma default_cell_never_below_one_witness :
  (∃ w', dtor (RT:=nat_ops) false 1%positive w_default1 = Return tt w' ∧
         cells w' !! default_loc = Some (Model 1 0%nat) ∧
         freed w' = []) ∧
  (∃ w', ctor_default (RT:=nat_ops) 2%positive w_default1 = Return tt w' ∧
         cells w' !! default_loc = Some (Model 3 0%nat)) ∧
  (default_loc ∉ freed w_default1).
Proof.
  destruct (default_cell_never_below_one (RT:=nat_ops) false 3%nat w_default1
              reach_default1)
    as (_ & _ & H1 & _ & H2 & H3 & _).
  split; [|split; [|exact H3]].
  - destruct (H2 1%positive (Model 2 0%nat)) as (w' & Hd & Hc & _ & Hf);
      [reflexivity..|].
    exists w'. split; [exact Hd|]. split; [exact Hc|exact Hf].
  - destruct (H1 2%positive (Model 2 0%nat)) as (w' & Hd & _ & Hc);
      [reflexivity..|].
    exists w'. split; [exact Hd|exact Hc].
Defined.

(* ================================================================== *)
(** * Further properties of the code *)

(** ** The branches of the mutating member functions *)

Section branches.
Context {T E : Type} {RT : Regular T E}.
Variable NDEBUG : bool.
Implicit Types (w : world T) (k : Z).

Arguments wrap : simpl never.

(** [operator=(U&&)], branch by branch. *)
Lemma value_assign_unfold w this p v :
  handles w !! this = Some p →
  value_assign NDEBUG this v w =
    match p with
    | None => assign_new NDEBUG this (T_copy v) w
    | Some j =>
      match cells w !! j with
      | None => Undefined
      | Some m =>
        if _count m =? 1 then
          match T_assign (_value m) v with
          | inr v' => store j (Model (_count m) v') w
          | inl (e, v') => (store j (Model (_count m) v');; throw (T_exn e)) w
          end
        else assign_new NDEBUG this (T_copy v) w
      end
    end.
Proof.
  intros Ht. unfold value_assign.
  rewrite (bind_Return _ _ _ _ _ (get_self_eq w this _ Ht)).
  destruct p as [j|]; [|done].
  destruct (cells w !! j) as [m|] eqn:Hj.
  - rewrite (bind_Return _ _ _ _ _ (unique_eq w this j m Ht Hj)).
    destruct (_count m =? 1); [|done].
    unfold bind at 1. simpl. unfold bind at 1, load. rewrite Hj.
    by destruct (T_assign (_value m) v) as [[e v']|v'].
  - unfold bind at 1, unique, noexcept, bind, get_self, load. cbv beta.
    rewrite Ht. simpl. by rewrite Hj.
Qed.

(** [write()], branch by branch. *)
Lemma write_unfold w this j m :
  handles w !! this = Some (Some j) → cells w !! j = Some m →
  write NDEBUG this w =
    if _count m =? 1 then Return j w
    else (assign_new NDEBUG this (T_copy (_value m));;
          p <- get_self this;; nonnull p) w.
Proof.
  intros Ht Hj. unfold write.
  rewrite (bind_Return _ _ _ _ _ (unique_eq w this j m Ht Hj)).
  destruct (_count m =? 1); simpl.
  - unfold bind, ret. simpl. by rewrite (get_self_eq w this _ Ht).
  - unfold bind at 1 2. rewrite (read_eq w this j m Ht Hj). done.
Qed.

(** [write(transform, inplace)], branch by branch. *)
Lemma write_with_unfold w this j m transform inplace :
  handles w !! this = Some (Some j) → cells w !! j = Some m →
  write_with NDEBUG this transform inplace w =
    if _count m =? 1 then
      match (inplace (_value m)).2 with
      | None =>
        Return j (upd_cells <[j:=Model (_count m) (inplace (_value m)).1]> w)
      | Some e =>
        Throw (T_exn e)
          (upd_cells <[j:=Model (_count m) (inplace (_value m)).1]> w)
      end
    else
      match transform (_value m) with
      | inl e => Throw (T_exn e) w
      | inr v' =>
        (assign_new NDEBUG this (inr v');; p <- get_self this;; nonnull p) w
      end.
Proof.
  intros Ht Hj. unfold write_with.
  rewrite (bind_Return _ _ _ _ _ (unique_eq w this j m Ht Hj)).
  destruct (_count m =? 1); simpl.
  - unfold bind, get_self, load, store. cbv beta.
    rewrite Ht. simpl. rewrite Hj. simpl. rewrite Hj.
    destruct (inplace (_value m)).2; simpl; [done|]. by rewrite Ht.
  - unfold bind at 1 2. rewrite (read_eq w this j m Ht Hj).
    destruct (transform (_value m)) as [e|v']; simpl; [done|].
    unfold bind at 2. done.
Qed.

Lemma not_last_of_Inv k w this p :
  InvB k w → handles w !! this = Some p →
  (∀ j m, p = Some j → cells w !! j = Some m → _count m ≠ 1) →
  not_last p (cells w).
Proof.
  intros [[Hc Hatt _] _] Ht Hp. destruct p as [j|]; simpl; [|done].
  destruct (Hatt this j Ht) as [m Hj]. exists m.
  pose proof (counted_pos _ _ _ _ _ Hc Ht Hj). pose proof (extra_range j).
  specialize (Hp j m eq_refl Hj). split_and!; [done|lia|done].
Qed.

(** [*this = copy_on_write(args)] on an object that is null or not unique
    either fails and changes nothing, or leaves [this] alone on the new
    cell. *)
Lemma assign_new_cases k w this p mk :
  InvB k w → handles w !! this = Some p →
  (∀ j m, p = Some j → cells w !! j = Some m → _count m ≠ 1) →
  (∃ e, assign_new NDEBUG this mk w = Throw e w ∧
        (space w = 0%nat ∨ ∃ e', mk = inl e')) ∨
  (∃ v w', mk = inr v ∧ space w ≠ 0%nat ∧
           assign_new NDEBUG this mk w = Return tt w' ∧
           handles w' = <[this:=Some (next w)]> (handles w) ∧
           cells w' = detach p (<[next w:=Model 1 v]> (cells w)) ∧
           cells w' !! next w = Some (Model 1 v)).
Proof.
  intros HI Ht Hp.
  pose proof (not_last_of_Inv k w this p HI Ht Hp) as Hnl.
  destruct HI as [[Hc Hatt Hh] _].
  pose proof (heap_ok_fresh _ _ _ Hh) as Hnx.
  destruct (space w) as [|n] eqn:Hs.
  { left. eexists. split; [|by left].
    rewrite assign_new_throw by auto. by rewrite Hs. }
  destruct mk as [e|v].
  { left. eexists. split; [|by eauto].
    rewrite assign_new_throw by eauto. by rewrite Hs. }
  right. exists v. eexists. split; [done|]. split; [done|].
  split; [by apply assign_new_eq|]. simpl. split; [done|]. split; [done|].
  assert (p ≠ Some (next w)) as Hpn.
  { intros ->. destruct (Hatt this (next w) Ht) as [m Hm]. congruence. }
  rewrite detach_other by done. apply lookup_insert_eq.
Qed.

End branches.

(** ** Values are isolated: nobody writes into a cell that someone else
    reads *)

Section frame.
Context {T E : Type} {RT : Regular T E}.
Variable NDEBUG : bool.
Variables (a : option name) (Φ : T → Prop) (l : loc).
Implicit Types (w : world T) (k : Z) (cs : gmap loc (model T)).
Implicit Types (hs : gmap name (option loc)).

Arguments wrap : simpl never.

Lemma hoare_conj {A} (P P' : world T → Prop) (m : M T E A) Q Q' R R' :
  hoare P m Q R → hoare P' m Q' R' →
  hoare (λ w, P w ∧ P' w) m (λ x w, Q x w ∧ Q' x w) (λ w, R w ∧ R' w).
Proof.
  intros H1 H2 w [Hw Hw']. specialize (H1 w Hw). specialize (H2 w Hw').
  by destruct (m w).
Qed.

(** *** The cells *)

Lemma holds_at_insert cs j m :
  holds_at Φ l cs → (j = l → Φ (_value m)) → holds_at Φ l (<[j:=m]> cs).
Proof.
  intros Hc Hk m'. rewrite lookup_insert_Some.
  intros [[-> <-]|[_ Hl]]; eauto.
Qed.

Lemma holds_at_recount cs j m c :
  holds_at Φ l cs → cs !! j = Some m →
  holds_at Φ l (<[j:=Model c (_value m)]> cs).
Proof.
  intros Hc Hk. apply holds_at_insert; [done|]. intros ->. simpl. eauto.
Qed.

Lemma holds_at_delete cs j : holds_at Φ l cs → holds_at Φ l (delete j cs).
Proof. intros Hc m. rewrite lookup_delete_Some. intros [_ Hl]. eauto. Qed.

(** The anchor keeps [l] apart from the address [new] hands out. *)
Lemma anchored_not_next w k :
  InvB k w → anchored a Φ l (handles w) → l ≠ next w.
Proof.
  intros [[_ Hatt Hh] _] Ha ->. destruct a as [h|]; simpl in Ha.
  - destruct (Hatt h _ Ha) as [m Hm].
    pose proof (heap_ok_fresh _ _ _ Hh). congruence.
  - destruct Ha as [Hd _]. pose proof (heap_next_default _ _ _ Hh). lia.
Qed.

(** The anchor keeps [l] apart from the cell of a unique object. *)
Lemma anchored_not_unique w k this j m :
  InvB k w → anchored a Φ l (handles w) → a ≠ Some this →
  handles w !! this = Some (Some j) → cells w !! j = Some m →
  _count m = 1 → j ≠ l.
Proof.
  intros [[Hc _ _] _] Ha Hne Ht Hk Hone ->.
  destruct a as [h|]; simpl in Ha.
  - assert (h ≠ this) by congruence.
    pose proof (refs_two _ _ _ _ H Ha Ht). pose proof (Hc l m Hk).
    pose proof (extra_range l). lia.
  - destruct Ha as [-> _]. by eapply counted_last.
Qed.

(** *** The objects *)

Lemma anchored_insert hs h p :
  anchored a Φ l hs → a ≠ Some h → anchored a Φ l (<[h:=p]> hs).
Proof.
  intros Ha Hne. destruct a as [h'|]; simpl in *; [|done].
  rewrite lookup_insert_ne; [done|congruence].
Qed.

Lemma anchored_insert_new hs h p :
  anchored a Φ l hs → hs !! h = None → anchored a Φ l (<[h:=p]> hs).
Proof.
  intros Ha Hh. apply anchored_insert; [done|].
  intros ->. simpl in Ha. congruence.
Qed.

Lemma anchored_delete hs h :
  anchored a Φ l hs → a ≠ Some h → anchored a Φ l (delete h hs).
Proof.
  intros Ha Hne. destruct a as [h'|]; simpl in *; [|done].
  rewrite lookup_delete_ne; [done|congruence].
Qed.

Lemma anchored_fresh hs : anchored a Φ l hs → a ≠ Some (fresh (dom hs)).
Proof.
  intros Ha ->. simpl in Ha.
  assert (hs !! fresh (dom hs) = None) by apply not_elem_of_dom, is_fresh.
  congruence.
Qed.

(** *** The member functions *)

Local Abbreviation G := (FInv a Φ l).
Local Abbreviation F := (framed a Φ l).

Lemma hoare_FInv {A} k k' (m : M T E A) :
  hoare (InvB k) m (λ _, InvB k') (InvB k) →
  hoare (G k) m (λ _, F) F →
  hoare (G k) m (λ _, G k') (G k).
Proof.
  intros H1 H2 w [HI HF]. specialize (H1 w HI). specialize (H2 w (conj HI HF)).
  by destruct (m w).
Qed.

Lemma hoare_pure {A} (P : world T → Prop) (φ : Prop) (m : M T E A) Q R :
  (φ → hoare P m Q R) → hoare (λ w, P w ∧ φ) m Q R.
Proof. intros H w [Hw Hφ]. by apply H. Qed.

Lemma hoare_noexcept_any {A} (P : world T → Prop) (m : M T E A) Q R R' :
  hoare P (noexcept m) Q R → hoare P (noexcept m) Q R'.
Proof.
  intros H w Hw. specialize (H w Hw). unfold noexcept in *. by destruct (m w).
Qed.

Lemma hoare_fresh_anchor k R :
  hoare (G k) (fresh_name (E:=E)) (λ t w, G k w ∧ a ≠ Some t) R.
Proof.
  intros w [HI [Hc Ha]]. simpl. split; [done|]. by apply anchored_fresh.
Qed.

Lemma frame_default_model k :
  hoare (G k) (default_model (E:=E)) (λ _, F) F.
Proof.
  intros w [[[_ Hatt _] _] [Hc Ha]]. unfold default_model.
  destruct (cells w !! default_loc) as [d|] eqn:Hd; [done|].
  destruct T_default as [[e|v]|] eqn:HT; [done| |done].
  split; [|done]. simpl. apply holds_at_insert; [done|]. intros <-. simpl.
  destruct a as [h|]; simpl in Ha.
  - destruct (Hatt h _ Ha) as [m Hm]. congruence.
  - destruct Ha as [_ HΦ]. by apply HΦ.
Qed.

Lemma frame_attach k this j R :
  hoare (G k) (declare (E:=E) this (Some j);; fetch_add j;; ret tt)
    (λ _, F) R.
Proof.
  intros w [_ [Hc Ha]]. unfold bind, declare.
  destruct (handles w !! this) eqn:Ht; [done|].
  unfold fetch_add, bind, load. simpl.
  destruct (cells w !! j) as [m|] eqn:Hj; [|done].
  unfold store. simpl. rewrite Hj. simpl. split; simpl.
  - by apply holds_at_recount.
  - by apply anchored_insert_new.
Qed.

Lemma G_default_model k :
  hoare (G k) (default_model (E:=E)) (λ _, G k) (G k).
Proof.
  apply hoare_FInv; [|apply frame_default_model].
  eapply hoare_weaken; [apply hoare_default_model|done| |done].
  by intros ? w (_ & _ & Hw).
Qed.

Lemma G_ctor_default k this :
  k + 2 < SIZE_MOD →
  hoare (G k) (ctor_default (E:=E) this) (λ _, G (k + 1)) (G k).
Proof.
  intros Hk. unfold ctor_default.
  eapply hoare_bind; [apply G_default_model|]. intros j.
  apply hoare_FInv; [by apply hoare_attach|apply frame_attach].
Qed.

Lemma G_ctor_value k this mk :
  hoare (G k) (ctor_value (E:=E) this mk) (λ _, G (k + 1)) (G k).
Proof.
  apply hoare_FInv; [apply hoare_ctor_value|].
  intros w [HI [Hc Ha]]. pose proof (anchored_not_next w k HI Ha) as Hnx.
  unfold ctor_value, bind, new_model.
  destruct (space w) as [|n]; [done|]. destruct mk as [e|v]; [done|].
  unfold declare. simpl. destruct (handles w !! this) eqn:Ht; [done|].
  split; simpl.
  - apply holds_at_insert; [done|]. by intros <-.
  - by apply anchored_insert_new.
Qed.

Lemma G_ctor_copy k this x R :
  k + 2 < SIZE_MOD →
  hoare (G k) (ctor_copy (E:=E) this x) (λ _, G (k + 1)) R.
Proof.
  intros Hk. apply (hoare_noexcept_any _ _ _ (G k)).
  apply hoare_FInv; [by apply hoare_ctor_copy|].
  unfold ctor_copy. apply hoare_noexcept with (R' := λ _, True).
  intros w Hw. unfold bind at 1. unfold get_self.
  destruct (handles w !! x) as [[j|]|] eqn:Hx; try done.
  - by apply (frame_attach k this j (λ _, True) w).
  - unfold bind, declare. by destruct (handles w !! this).
Qed.

Lemma G_ctor_move k this x R :
  a ≠ Some x →
  hoare (G k) (ctor_move (E:=E) this x) (λ _, G (k + 1)) R.
Proof.
  intros Hx. apply (hoare_noexcept_any _ _ _ (G k)).
  apply hoare_FInv; [apply hoare_ctor_move|].
  apply hoare_noexcept with (R' := λ _, True).
  intros w [_ [Hc Ha]]. unfold bind, get_self, set_self, declare. cbv beta.
  destruct (handles w !! x) as [p|] eqn:Hhx; [|done]. rewrite Hhx. simpl.
  destruct (<[x:=None]> (handles w) !! this) eqn:Ht; [done|].
  destruct p as [j|]; [|done]. simpl. split; [done|]. simpl.
  apply anchored_insert_new; [|done]. by apply anchored_insert.
Qed.

Lemma G_swap k x y R :
  a ≠ Some x → a ≠ Some y →
  hoare (G k) (swap (E:=E) x y) (λ _, G k) R.
Proof.
  intros Hx Hy. apply (hoare_noexcept_any _ _ _ (G k)).
  apply hoare_FInv; [apply hoare_swap|].
  apply hoare_noexcept with (R' := λ _, True).
  intros w [_ [Hc Ha]]. unfold bind, get_self, set_self. cbv beta.
  destruct (handles w !! x) as [px|] eqn:Hhx; [|done].
  destruct (handles w !! y) as [py|] eqn:Hhy; [|done]. rewrite Hhx. simpl.
  destruct (<[x:=py]> (handles w) !! y); [|done]. simpl. split; [done|].
  simpl. apply anchored_insert; [by apply anchored_insert|done].
Qed.

Lemma G_dtor k this R :
  k + 3 < SIZE_MOD → a ≠ Some this →
  hoare (G (k + 1)) (dtor NDEBUG this) (λ _, G k) R.
Proof.
  intros Hk Hne.
  assert (hoare (G (k + 1)) (dtor NDEBUG this) (λ _, F) (λ _, True))
    as Hframe.
  { apply hoare_noexcept with (R' := λ _, True).
    intros w [[[Hcnt Hatt Hh] Hb] [Hc Ha]].
    unfold bind, get_self, load, assert, fetch_sub, store, undeclare.
    cbv beta.
    destruct (handles w !! this) as [[j|]|] eqn:Ht; [| |done].
    2:{ simpl. split; [done|]. simpl. by apply anchored_delete. }
    destruct (cells w !! j) as [m|] eqn:Hj; [|done].
    destruct (0 <? _count m) eqn:Hpos; [|done].
    unfold bind, load, store. rewrite !Hj. simpl.
    assert (holds_at Φ l
              (<[j:=Model (wrap (_count m - 1)) (_value m)]> (cells w)))
      as Hc1 by (by apply holds_at_recount).
    destruct (_count m =? 1) eqn:Hone; simpl.
    2:{ split; [done|]. simpl. by apply anchored_delete. }
    apply Z.eqb_eq in Hone.
    assert (j ≠ default_loc) as Hld by (by eapply counted_last).
    assert (∀ cs sp, holds_at Φ l cs →
      F (World (delete j cs) (next w) sp (j :: freed w)
           (delete this (handles w)))) as Hfin.
    { intros cs sp Hcs. split; simpl.
      - by apply holds_at_delete.
      - by apply anchored_delete. }
    unfold delete_model.
    destruct NDEBUG; simpl.
    + rewrite lookup_insert_eq, decide_False by done. simpl. by apply Hfin.
    + unfold default_model. destruct T_default as [[e|v]|] eqn:HT; simpl.
      * rewrite lookup_insert_ne by done.
        destruct (cells w !! default_loc) as [d|] eqn:Hd; [|done]. simpl.
        rewrite bool_decide_true by done. simpl.
        rewrite lookup_insert_eq, decide_False by done. simpl. by apply Hfin.
      * rewrite lookup_insert_ne by done.
        destruct (cells w !! default_loc) as [d|] eqn:Hd; simpl.
        -- rewrite bool_decide_true by done. simpl.
           rewrite lookup_insert_eq, decide_False by done. simpl.
           by apply Hfin.
        -- rewrite bool_decide_true by done. simpl.
           rewrite lookup_insert_ne, lookup_insert_eq by done.
           rewrite decide_False by done. simpl. apply Hfin.
           apply holds_at_insert; [done|]. intros <-. simpl.
           destruct a as [h|]; simpl in Ha.
           ++ destruct (Hatt h _ Ha) as [m' Hm']. congruence.
           ++ destruct Ha as [_ HΦ]. by apply HΦ.
      * rewrite lookup_insert_eq, decide_False by done. simpl. by apply Hfin. }
  intros w Hw. pose proof (Hframe w Hw) as H1.
  destruct Hw as [HI HF].
  pose proof (hoare_dtor NDEBUG k this (λ _, True) Hk w HI) as H2.
  destruct (dtor NDEBUG this w) as [x w'|e w'| |] eqn:Hd; try done.
  unfold dtor, noexcept in Hd. by case_match.
Qed.

Lemma G_move_assign k this x R :
  k + 4 < SIZE_MOD → a ≠ Some this → a ≠ Some x →
  hoare (G k) (move_assign NDEBUG this x) (λ _, G k) R.
Proof.
  intros Hk Ht Hx. apply hoare_noexcept with (R' := G k).
  eapply hoare_bind; [apply hoare_fresh_anchor|]. intros tmp.
  apply hoare_pure. intros Htmp.
  eapply hoare_bind; [by apply G_ctor_move|]. intros ?.
  eapply hoare_bind; [by apply G_swap|]. intros ?.
  apply G_dtor; [lia|done].
Qed.

Lemma G_copy_assign k this x R :
  k + 5 < SIZE_MOD → a ≠ Some this →
  hoare (G k) (copy_assign NDEBUG this x) (λ _, G k) R.
Proof.
  intros Hk Ht. apply hoare_noexcept with (R' := G k).
  eapply hoare_bind; [apply hoare_assert|]. intros ?.
  eapply hoare_bind; [apply hoare_fresh_anchor|]. intros tmp.
  apply hoare_pure. intros Htmp.
  eapply hoare_bind; [apply G_ctor_copy; lia|]. intros ?.
  eapply hoare_bind; [apply G_move_assign; [lia|done..]|]. intros ?.
  apply G_dtor; [lia|done].
Qed.

Lemma G_assign_new k this mk :
  k + 5 < SIZE_MOD → a ≠ Some this →
  hoare (G k) (assign_new NDEBUG this mk) (λ _, G k) (G k).
Proof.
  intros Hk Ht.
  eapply hoare_bind; [apply hoare_fresh_anchor|]. intros tmp.
  apply hoare_pure. intros Htmp.
  eapply hoare_bind.
  { eapply hoare_weaken; [apply G_ctor_value|done..]. }
  intros ?.
  eapply hoare_bind; [apply G_move_assign; [lia|done..]|]. intros ?.
  apply G_dtor; [lia|done].
Qed.

Lemma G_store_value k j m v :
  hoare (λ w, G k w ∧ cells w !! j = Some m ∧ j ≠ l)
    (store (E:=E) j (Model (_count m) v)) (λ _, G k) (G k).
Proof.
  intros w ([HI [Hc Ha]] & Hj & Hne).
  pose proof (hoare_store_value (E:=E) k j m v (λ _, True) w (conj HI Hj))
    as H1.
  unfold store in *. rewrite Hj in *. split; [done|]. split; [|done]. simpl.
  apply holds_at_insert; [done|]. by intros ->.
Qed.

Lemma G_value_assign k this v :
  k + 5 < SIZE_MOD → a ≠ Some this →
  hoare (G k) (value_assign NDEBUG this v) (λ _, G k) (G k).
Proof.
  intros Hk Hne w HG.
  destruct (handles w !! this) as [p|] eqn:Ht.
  2:{ unfold value_assign, bind at 1, get_self. by rewrite Ht. }
  rewrite (value_assign_unfold NDEBUG w this p v Ht).
  destruct p as [j|]; [|by apply (G_assign_new k this _ Hk Hne w)].
  destruct (cells w !! j) as [m|] eqn:Hj; [|done].
  destruct (_count m =? 1) eqn:Hone;
    [|by apply (G_assign_new k this _ Hk Hne w)].
  apply Z.eqb_eq in Hone.
  assert (j ≠ l) as Hjl.
  { destruct HG as [HI [_ Ha]]. by eapply anchored_not_unique. }
  destruct (T_assign (_value m) v) as [[e v']|v'].
  - pose proof (G_store_value k j m v' w (conj HG (conj Hj Hjl))) as Hst.
    unfold bind. by destruct (store j (Model (_count m) v') w).
  - by apply (G_store_value k j m v' w).
Qed.

(** [write()] keeps the frame and returns the cell of an object that is
    unique by then. *)
Lemma G_write k this :
  k + 5 < SIZE_MOD → a ≠ Some this →
  hoare (G k) (write NDEBUG this)
    (λ j w, G k w ∧ handles w !! this = Some (Some j) ∧
            ∃ m, cells w !! j = Some m ∧ _count m = 1)
    (G k).
Proof.
  intros Hk Hne w HG.
  destruct (handles w !! this) as [[j|]|] eqn:Ht.
  2,3: unfold write, bind at 1, unique, noexcept, bind, get_self;
       by rewrite Ht.
  destruct (cells w !! j) as [m|] eqn:Hj.
  2:{ unfold write, bind at 1, unique, noexcept, bind, get_self, load.
      cbv beta. rewrite Ht. simpl. by rewrite Hj. }
  rewrite (write_unfold NDEBUG w this j m Ht Hj).
  destruct (_count m =? 1) eqn:Hone.
  { apply Z.eqb_eq in Hone. eauto. }
  apply Z.eqb_neq in Hone.
  pose proof (G_assign_new k this (T_copy (_value m)) Hk Hne w HG) as Hfr.
  destruct HG as [HI HF].
  destruct (assign_new_cases NDEBUG k w this (Some j) (T_copy (_value m)) HI Ht)
    as [(e & He & _)|(v & w' & _ & _ & Hw' & Hhs & _ & Hnew)].
  { intros ? ? [= <-] ?. congruence. }
  - rewrite (bind_Throw _ _ _ _ _ He). by rewrite He in Hfr.
  - rewrite (bind_Return _ _ _ _ _ Hw'). rewrite Hw' in Hfr.
    assert (handles w' !! this = Some (Some (next w))) as Ht'
      by (rewrite Hhs; apply lookup_insert_eq).
    rewrite (bind_Return _ _ _ _ _ (get_self_eq w' this _ Ht')). simpl.
    eauto.
Qed.

Lemma G_write_with k this transform inplace :
  k + 5 < SIZE_MOD → a ≠ Some this →
  hoare (G k) (write_with NDEBUG this transform inplace) (λ _, G k) (G k).
Proof.
  intros Hk Hne w HG.
  destruct (handles w !! this) as [[j|]|] eqn:Ht.
  2,3: unfold write_with, bind at 1, unique, noexcept, bind, get_self;
       by rewrite Ht.
  destruct (cells w !! j) as [m|] eqn:Hj.
  2:{ unfold write_with, bind at 1, unique, noexcept, bind, get_self, load.
      cbv beta. rewrite Ht. simpl. by rewrite Hj. }
  rewrite (write_with_unfold NDEBUG w this j m transform inplace Ht Hj).
  destruct (_count m =? 1) eqn:Hone.
  - apply Z.eqb_eq in Hone.
    assert (j ≠ l) as Hjl.
    { destruct HG as [HI [_ Ha]]. by eapply anchored_not_unique. }
    pose proof (G_store_value k j m (inplace (_value m)).1 w
                  (conj HG (conj Hj Hjl))) as Hst.
    unfold store in Hst. rewrite Hj in Hst.
    by destruct (inplace (_value m)).2.
  - destruct (transform (_value m)) as [e|v']; [done|].
    apply Z.eqb_neq in Hone.
    pose proof (G_assign_new k this (inr v') Hk Hne w HG) as Hfr.
    destruct HG as [HI HF].
    destruct (assign_new_cases NDEBUG k w this (Some j) (inr v') HI Ht)
      as [(e & He & _)|(v & w' & _ & _ & Hw' & Hhs & _ & Hnew)].
    { intros ? ? [= <-] ?. congruence. }
    + rewrite (bind_Throw _ _ _ _ _ He). by rewrite He in Hfr.
    + rewrite (bind_Return _ _ _ _ _ Hw'). rewrite Hw' in Hfr.
      assert (handles w' !! this = Some (Some (next w))) as Ht'
        by (rewrite Hhs; apply lookup_insert_eq).
      by rewrite (bind_Return _ _ _ _ _ (get_self_eq w' this _ Ht')).
Qed.

(** Every statement that does not modify the anchor. *)
Lemma G_exec k o :
  k + 6 < SIZE_MOD → (∀ h, h ∈ modifies o → a ≠ Some h) →
  hoare (G k) (exec NDEBUG o) (λ _, G (if creates o then k + 1 else k)) (G k).
Proof.
  intros Hk Hmod. destruct o; simpl in *.
  - apply G_ctor_default. lia.
  - apply G_ctor_value.
  - apply G_ctor_copy. lia.
  - apply G_ctor_move. apply Hmod. set_solver.
  - intros w HG.
    assert (G (k - 1 + 1) w) as HG'.
    { destruct HG as [HI HF]. split; [|done]. eapply InvB_mono; [|done]. lia. }
    pose proof (G_dtor (k - 1) h (G k) ltac:(lia) ltac:(apply Hmod; set_solver)
                  w HG') as Hd.
    destruct (dtor NDEBUG h w); try done.
    destruct Hd as [HI HF]. split; [|done]. eapply InvB_mono; [|done]. lia.
  - apply G_copy_assign; [lia|]. apply Hmod. set_solver.
  - apply G_move_assign; [lia|apply Hmod; set_solver..].
  - apply G_value_assign; [lia|]. apply Hmod. set_solver.
  - assert (a ≠ Some h) as Hne by (apply Hmod; set_solver).
    eapply hoare_bind; [apply G_write; [lia|done]|]. intros j.
    intros w (HG & Ht & m & Hj & Hone).
    assert (j ≠ l) as Hjl.
    { destruct HG as [HI [_ Ha]]. by eapply anchored_not_unique. }
    unfold bind, load. rewrite Hj.
    by apply (G_store_value k j m (f (_value m)) w).
  - eapply hoare_bind;
      [apply G_write_with; [lia|apply Hmod; set_solver]|].
    intros ?. apply hoare_ret.
  - apply G_swap; apply Hmod; set_solver.
Qed.

End frame.

Section isolation.
Context {T E : Type} {RT : Regular T E}.
Variable NDEBUG : bool.
Implicit Types (w : world T).

(** X1.  Value semantics.  A statement that completes, normally or by an
    exception, leaves every object it does not modify on the cell it was
    on, reading the value it read before: no write, assignment, swap,
    move or destruction on other objects is ever seen through it. *)
Theorem untouched_object_reads_the_same capacity w o w' h l m :
  reachable NDEBUG capacity w →
  handles w !! h = Some (Some l) → cells w !! l = Some m →
  h ∉ modifies o →
  completes (exec NDEBUG o w) w' →
  read (E:=E) h w = Return (_value m) w ∧
  handles w' !! h = Some (Some l) ∧
  read (E:=E) h w' = Return (_value m) w'.
Proof.
  intros Hr Hh Hl Hmod Hdone. split; [by apply (read_eq w h l m)|].
  pose proof (reachable_I NDEBUG capacity w Hr) as HI.
  pose proof MAX_OBJECTS_small as Hsmall.
  assert (FInv (Some h) (λ v, v = _value m) l MAX_OBJECTS w) as HG.
  { split; [done|]. split; [|done]. intros m' Hm'. congruence. }
  pose proof (G_exec NDEBUG (Some h) (λ v, v = _value m) l MAX_OBJECTS o
                ltac:(lia)) as Hex.
  specialize (Hex ltac:(intros h' Hin [= ->]; done) w HG).
  assert (∃ k, FInv (Some h) (λ v, v = _value m) l k w') as [k HG'].
  { destruct (exec NDEBUG o w) as [x w1|e w1| |]; simpl in Hdone;
      try done; subst w'; eauto. }
  destruct HG' as [[[_ Hatt _] _] [Hc Ha]]. simpl in Ha.
  split; [done|]. destruct (Hatt h l Ha) as [m' Hm'].
  rewrite (read_eq w' h l m' Ha Hm'). by rewrite (Hc m' Hm').
Qed.

(** In every reachable state [default_s], once initialised, holds the
    value the default constructor of [T] gave. *)
Lemma reachable_default_value capacity w :
  reachable NDEBUG capacity w →
  framed None (λ v, T_default = Some (inr v)) default_loc w.
Proof.
  induction 1 as [|w o w' Hw IH Hadm Hdone].
  - split; [|by split]. intros m. simpl. by rewrite lookup_empty.
  - pose proof (reachable_I NDEBUG capacity w Hw) as HI.
    pose proof MAX_OBJECTS_small as Hsmall.
    pose proof (G_exec NDEBUG None (λ v, T_default = Some (inr v)) default_loc
                  MAX_OBJECTS o ltac:(lia) ltac:(done) w (conj HI IH)) as Hex.
    destruct (exec NDEBUG o w) as [x w1|e w1| |]; simpl in Hdone;
      try done; subst w'; by destruct Hex.
Qed.

(** X2.  The shared default value is immutable.  In every reachable state
    [default_s], once initialised, holds the value [T()] gave; an object
    on it reads that value and is never unique, even when it is the only
    one; a default-constructed object is such an object, identical to
    every other one; and [write()] on such an object (allocation and copy
    succeeding) moves it to a fresh cell holding a copy while [default_s]
    keeps its value. *)
Theorem default_value_is_immutable capacity w h :
  reachable NDEBUG capacity w →
  (∀ m, cells w !! default_loc = Some m →
     T_default = Some (inr (_value m))) ∧
  (handles w !! h = Some (Some default_loc) →
     ∃ v, T_default = Some (inr v) ∧
          read (E:=E) h w = Return v w ∧
          unique (E:=E) h w = Return false w ∧
          (space w ≠ 0%nat → T_copy v = inr v →
           ∃ w', write NDEBUG h w = Return (next w) w' ∧
                 read (E:=E) h w' = Return v w' ∧
                 unique (E:=E) h w' = Return true w' ∧
                 ∃ c, cells w' !! default_loc = Some (Model c v))) ∧
  (handles w !! h = None → ∀ v, T_default = Some (inr v) →
     ∃ w', ctor_default h w = Return tt w' ∧
           handles w' !! h = Some (Some default_loc) ∧
           read (E:=E) h w' = Return v w' ∧
           unique (E:=E) h w' = Return false w' ∧
           ∀ h', handles w !! h' = Some (Some default_loc) →
                 identity (E:=E) h h' w' = Return true w').
Proof.
  intros Hr.
  destruct (reachable_default_value capacity w Hr) as [Hdv _].
  destruct (reachable_I NDEBUG capacity w Hr) as [[Hc Hatt Hh] Hb].
  split_and!.
  - exact Hdv.
  - intros Hhd. destruct (Hatt h _ Hhd) as [m Hm].
    exists (_value m). split; [by apply Hdv|].
    assert (_count m ≠ 1) as Hone.
    { pose proof (counted_pos _ _ _ _ _ Hc Hhd Hm) as Hp.
      rewrite extra_default in Hp. lia. }
    split; [by apply (read_eq w h default_loc m)|]. split.
    { rewrite (unique_eq w h default_loc m Hhd Hm).
      by replace (_count m =? 1) with false by (symmetry; by apply Z.eqb_neq). }
    intros Hs Hcp.
    destruct (assign_new_fresh NDEBUG capacity w h (Some default_loc)
                (_value m) Hr Hhd)
      as (w' & Has & Hnx & Hhs & Hnew & Hval & _); [|done|].
    { intros ? ? [= <-] ?. congruence. }
    assert (handles w' !! h = Some (Some (next w))) as Hh'
      by (rewrite Hhs; apply lookup_insert_eq).
    exists w'. split_and!.
    + by apply (write_copy_eq NDEBUG w h default_loc m (_value m) w' (next w)).
    + by rewrite (read_eq w' h _ _ Hh' Hnew).
    + by rewrite (unique_eq w' h _ _ Hh' Hnew).
    + by apply Hval.
  - intros Hfresh v HT.
    assert (∃ w' m', ctor_default (E:=E) h w = Return tt w' ∧
              handles w' = <[h:=Some default_loc]> (handles w) ∧
              cells w' !! default_loc = Some m' ∧ _value m' = v ∧
              _count m' ≠ 1) as (w' & m' & Hctor & Hhs & Hd' & Hv & Hone).
    { destruct (cells w !! default_loc) as [m|] eqn:Hd.
      - rewrite (ctor_default_eq w h m Hd Hfresh).
        pose proof (counted_range _ _ _ _ _ Hc Hb Hd).
        pose proof MAX_OBJECTS_small.
        pose proof (Hc _ m Hd) as Hcm. rewrite extra_default in Hcm.
        eexists. eexists. split; [done|]. simpl. split; [done|].
        rewrite lookup_insert_eq. split; [done|]. simpl.
        rewrite wrap_small by lia. split; [|lia].
        specialize (Hdv m Hd). simpl in Hdv. congruence.
      - rewrite (ctor_default_first_eq w h v Hd HT Hfresh).
        eexists. eexists. split; [done|]. simpl. split; [done|].
        rewrite lookup_insert_eq. split; [done|]. simpl. split; [done|lia]. }
    assert (handles w' !! h = Some (Some default_loc)) as Hh'
      by (rewrite Hhs; apply lookup_insert_eq).
    exists w'. split_and!; try done.
    + rewrite (read_eq w' h default_loc m' Hh' Hd'). by rewrite Hv.
    + rewrite (unique_eq w' h default_loc m' Hh' Hd').
      by replace (_count m' =? 1) with false by (symmetry; by apply Z.eqb_neq).
    + intros h' Hh0. assert (h' ≠ h) by congruence.
      rewrite (identity_eq w' h h' default_loc default_loc); [|done|].
      * by rewrite bool_decide_true.
      * rewrite Hhs. by rewrite lookup_insert_ne.
Qed.

End isolation.

Lemma untouched_object_reads_the_same_witness :
  read (E:=unit) 1%positive w_shared = Return 0%nat w_shared ∧
  handles w_shared_assigned !! 1%positive = Some (Some 1%positive) ∧
  read (E:=unit) 1%positive w_shared_assigned = Return 0%nat w_shared_assigned.
Proof.
  apply (untouched_object_reads_the_same (RT:=nat_ops) false 3%nat w_shared
           (ValueAssign 2%positive 9%nat) w_shared_assigned 1%positive
           1%positive (Model 3 0%nat) reach_shared).
  - reflexivity.
  - reflexivity.
  - simpl. by intros [=]%list_elem_of_singleton.
  - vm_compute. reflexivity.
Defined.

Lemma default_value_is_immutable_witness :
  (∀ m, cells w_shared !! default_loc = Some m →
     T_default (Regular:=nat_ops) = Some (inr (_value m))) ∧
  (∃ v, T_default (Regular:=nat_ops) = Some (inr v) ∧
        read (E:=unit) 1%positive w_shared = Return v w_shared ∧
        unique (E:=unit) 1%positive w_shared = Return false w_shared).
Proof.
  destruct (default_value_is_immutable (RT:=nat_ops) false 3%nat w_shared
              1%positive reach_shared) as (H1 & H2 & _).
  split; [exact H1|].
  destruct H2 as (v & Hv & Hr & Hu & _); [reflexivity|].
  exists v. split; [exact Hv|]. split; [exact Hr|exact Hu].
Defined.

(** ** Swap and the assignments between objects *)

Section assignment.
Context {T E : Type} {RT : Regular T E}.
Variable NDEBUG : bool.
Implicit Types (w : world T).

Arguments wrap : simpl never.

Lemma world_ext w1 w2 :
  cells w1 = cells w2 → next w1 = next w2 → space w1 = space w2 →
  freed w1 = freed w2 → handles w1 = handles w2 → w1 = w2.
Proof. destruct w1, w2. simpl. by intros -> -> -> -> ->. Qed.

(** X3.  [swap] of two live objects, null or not, always completes; it
    exchanges the two pointers and touches nothing else: no cell, no
    count, no other object; and swapping again gives the state back. *)
Theorem swap_exchanges w x y px py :
  handles w !! x = Some px → handles w !! y = Some py →
  ∃ w',
    swap (E:=E) x y w = Return tt w' ∧
    handles w' !! x = Some py ∧ handles w' !! y = Some px ∧
    (∀ h, h ≠ x → h ≠ y → handles w' !! h = handles w !! h) ∧
    cells w' = cells w ∧ next w' = next w ∧ space w' = space w ∧
    freed w' = freed w ∧
    swap (E:=E) x y w' = Return tt w.
Proof.
  intros Hx Hy. eexists. split; [by apply swap_eq|]. simpl.
  assert (<[y:=px]> (<[x:=py]> (handles w)) !! x = Some py) as Hx'.
  { destruct (decide (x = y)) as [->|Hne].
    - rewrite lookup_insert_eq. congruence.
    - rewrite lookup_insert_ne by done. apply lookup_insert_eq. }
  assert (<[y:=px]> (<[x:=py]> (handles w)) !! y = Some px) as Hy'
    by apply lookup_insert_eq.
  split_and!; try done.
  - intros h Hhx Hhy. by rewrite !lookup_insert_ne.
  - erewrite swap_eq; [|exact Hx'|exact Hy']. f_equal.
    apply world_ext; simpl; try done. apply map_eq. intros h.
    destruct (decide (h = y)) as [->|Hhy]; [by rewrite lookup_insert_eq|].
    rewrite lookup_insert_ne by done.
    destruct (decide (h = x)) as [->|Hhx]; [by rewrite lookup_insert_eq|].
    by rewrite !lookup_insert_ne.
Qed.

(** Move assignment onto the last owner of a cell. *)
Lemma move_assign_last_eq w this x j m lx :
  handles w !! this = Some (Some j) → handles w !! x = Some (Some lx) →
  this ≠ x → cells w !! j = Some m → _count m = 1 → j ≠ default_loc →
  move_assign (E:=E) NDEBUG this x w =
    match asserted_cells NDEBUG w with
    | None => Terminate
    | Some cs =>
      Return tt (World (delete j cs) (next w) (S (space w)) (j :: freed w)
                   (<[this:=Some lx]> (<[x:=None]> (handles w))))
    end.
Proof.
  intros Ht Hx Hne Hj Hone Hjd. unfold move_assign.
  unfold fresh_name at 1. unfold noexcept at 1. unfold bind at 1.
  set (t := fresh (dom (handles w))).
  assert (handles w !! t = None) as Hfresh by apply not_elem_of_dom, is_fresh.
  assert (t ≠ this) by congruence. assert (t ≠ x) by congruence.
  rewrite (bind_Return _ _ _ _ _ (ctor_move_eq w t x lx Hx Hfresh)).
  erewrite bind_Return; cycle 1.
  { apply swap_eq with (px := Some j) (py := Some lx); simpl.
    - by rewrite lookup_insert_ne, lookup_insert_ne.
    - by rewrite lookup_insert_eq. }
  erewrite (dtor_last_eq NDEBUG _ t j m); simpl;
    [|by rewrite lookup_insert_eq|done..].
  unfold asserted_cells. simpl.
  assert (delete t (<[t:=Some j]> (<[this:=Some lx]>
            (<[t:=Some lx]> (<[x:=None]> (handles w)))))
          = <[this:=Some lx]> (<[x:=None]> (handles w))) as ->.
  { rewrite delete_insert_eq.
    rewrite delete_insert_ne by done. rewrite delete_insert_eq.
    rewrite delete_insert_ne by done. by rewrite delete_id. }
  destruct NDEBUG; [done|].
  destruct T_default as [[e|v]|]; [| |done];
    by destruct (cells w !! default_loc).
Qed.

(** [x = std::move(x)] *)
Lemma move_assign_self_eq w x lx :
  handles w !! x = Some (Some lx) →
  move_assign (E:=E) NDEBUG x x w = Return tt w.
Proof.
  intros Hx. unfold move_assign. apply noexcept_Return.
  unfold fresh_name at 1. unfold bind at 1.
  set (t := fresh (dom (handles w))).
  assert (handles w !! t = None) as Hfresh by apply not_elem_of_dom, is_fresh.
  assert (t ≠ x) by congruence.
  rewrite (bind_Return _ _ _ _ _ (ctor_move_eq w t x lx Hx Hfresh)).
  erewrite bind_Return; cycle 1.
  { apply swap_eq with (px := None) (py := Some lx); simpl.
    - rewrite lookup_insert_ne by done. by rewrite lookup_insert_eq.
    - by rewrite lookup_insert_eq. }
  rewrite dtor_null_eq; simpl; [|by rewrite lookup_insert_eq].
  f_equal. apply world_ext; simpl; try done.
  rewrite delete_insert_eq.
  rewrite delete_insert_ne by done. rewrite delete_insert_eq.
  rewrite delete_insert_ne by done. rewrite delete_id by done.
  rewrite insert_insert_eq. by rewrite insert_id.
Qed.

(** The destructor's assertion leaves the live cells as they are. *)
Lemma asserted_cells_lookup w cs j m :
  asserted_cells NDEBUG w = Some cs → cells w !! j = Some m →
  cs !! j = Some m.
Proof.
  unfold asserted_cells. intros Hcs Hj.
  destruct NDEBUG; [congruence|].
  destruct T_default as [[e|v]|]; [| |congruence];
    destruct (cells w !! default_loc) eqn:Hd; try congruence.
  injection Hcs as <-. rewrite lookup_insert_ne; [done|congruence].
Qed.

Lemma asserted_cells_insert w j m m' :
  cells w !! j = Some m →
  asserted_cells NDEBUG (upd_cells <[j:=m']> w)
  = (λ cs, <[j:=m']> cs) <$> asserted_cells NDEBUG w.
Proof.
  intros Hj. unfold asserted_cells. simpl.
  destruct NDEBUG; [done|]. destruct T_default as [[e|v]|]; [| |done].
  - destruct (decide (j = default_loc)) as [->|Hne].
    + by rewrite lookup_insert_eq, Hj.
    + rewrite lookup_insert_ne by done. by destruct (cells w !! default_loc).
  - destruct (decide (j = default_loc)) as [->|Hne].
    + by rewrite lookup_insert_eq, Hj.
    + rewrite lookup_insert_ne by done.
      destruct (cells w !! default_loc); [done|]. simpl.
      by rewrite insert_insert_ne.
Qed.

(** Copy assignment onto the last owner of another cell. *)
Lemma copy_assign_last_eq w this x j m l ml :
  this ≠ x → handles w !! this = Some (Some j) →
  handles w !! x = Some (Some l) →
  cells w !! j = Some m → _count m = 1 → j ≠ default_loc → j ≠ l →
  cells w !! l = Some ml → 0 ≤ _count ml → _count ml + 1 < SIZE_MOD →
  copy_assign (E:=E) NDEBUG this x w =
    match asserted_cells NDEBUG w with
    | None => Terminate
    | Some cs =>
      Return tt
        (World (delete j (<[l:=Model (_count ml + 1) (_value ml)]> cs))
           (next w) (S (space w)) (j :: freed w)
           (<[this:=Some l]> (handles w)))
    end.
Proof.
  intros Hne Ht Hx Hj Hone Hjd Hjl Hl H0 H1. unfold copy_assign.
  unfold noexcept at 1. unfold bind at 1. unfold assert.
  rewrite bool_decide_true by done.
  unfold fresh_name at 1. unfold bind at 1.
  set (t := fresh (dom (handles w))).
  assert (handles w !! t = None) as Hfresh by apply not_elem_of_dom, is_fresh.
  assert (t ≠ this) by congruence. assert (t ≠ x) by congruence.
  rewrite (bind_Return _ _ _ _ _ (ctor_copy_eq w t x l ml Hx Hfresh Hl)).
  rewrite wrap_small by lia.
  set (w1 := World _ _ _ _ _).
  assert (move_assign (E:=E) NDEBUG this t w1 =
    match asserted_cells NDEBUG w1 with
    | None => Terminate
    | Some cs =>
      Return tt (World (delete j cs) (next w1) (S (space w1)) (j :: freed w1)
                   (<[this:=Some l]> (<[t:=None]> (handles w1))))
    end) as Hmv.
  { apply (move_assign_last_eq w1 this t j m l); simpl; try done.
    - by rewrite lookup_insert_ne.
    - by rewrite lookup_insert_eq.
    - by rewrite lookup_insert_ne. }
  assert (asserted_cells NDEBUG w1
          = (λ cs, <[l:=Model (_count ml + 1) (_value ml)]> cs)
              <$> asserted_cells NDEBUG w) as Has.
  { by apply (asserted_cells_insert w l ml). }
  rewrite Has in Hmv.
  destruct (asserted_cells NDEBUG w) as [cs|] eqn:Hcs; simpl in Hmv.
  - rewrite (bind_Return _ _ _ _ _ Hmv).
    rewrite dtor_null_eq; simpl.
    2:{ rewrite lookup_insert_ne by done. by rewrite lookup_insert_eq. }
    unfold upd_handles. simpl. f_equal. f_equal.
    rewrite delete_insert_ne by done. rewrite insert_insert_eq.
    rewrite delete_insert_eq. by rewrite delete_id.
  - unfold bind. by rewrite Hmv.
Qed.


(** The three ways the destructor of a live object can go in a state
    that satisfies the invariant. *)
Lemma dtor_cases k w this p :
  InvB k w → k + 2 < SIZE_MOD → handles w !! this = Some p →
  (not_last p (cells w) ∧
   dtor (E:=E) NDEBUG this w =
     Return tt (upd_handles (delete this) (upd_cells (detach p) w))) ∨
  (∃ j m, p = Some j ∧ cells w !! j = Some m ∧ _count m = 1 ∧
          j ≠ default_loc ∧
          dtor (E:=E) NDEBUG this w =
            match asserted_cells NDEBUG w with
            | None => Terminate
            | Some cs =>
              Return tt (World (delete j cs) (next w) (S (space w))
                           (j :: freed w) (delete this (handles w)))
            end).
Proof.
  intros HI Hk Ht. destruct p as [j|].
  2:{ left. split; [done|]. by apply dtor_detach_eq. }
  destruct HI as [[Hc Hatt Hh] Hb].
  destruct (Hatt this j Ht) as [m Hj].
  destruct (decide (_count m = 1)) as [Hone|Hone].
  - right. exists j, m. assert (j ≠ default_loc) by (by eapply counted_last).
    split_and!; try done. by apply (dtor_last_eq NDEBUG w this j m).
  - left. pose proof (counted_pos _ _ _ _ _ Hc Ht Hj).
    pose proof (extra_range j).
    assert (not_last (Some j) (cells w)) as Hnl.
    { exists m. split_and!; [done|lia|done]. }
    split; [done|]. by apply dtor_detach_eq.
Qed.

(** X4.  Move assignment [this = std::move(x)] between two different
    objects does what destroying [this] and then move-constructing it from
    [x] does, whatever [this] held; when it completes, [this] is on the
    cell [x] was on, [x] is null, and the count of that cell is unchanged
    unless [this] was on it too. *)
Theorem move_assign_is_destroy_then_move capacity w this x p l m :
  reachable NDEBUG capacity w → this ≠ x →
  handles w !! this = Some p → handles w !! x = Some (Some l) →
  cells w !! l = Some m →
  move_assign NDEBUG this x w = (dtor NDEBUG this;; ctor_move this x) w ∧
  (move_assign NDEBUG this x w = Terminate ∨
   ∃ w', move_assign NDEBUG this x w = Return tt w' ∧
         handles w' !! this = Some (Some l) ∧
         handles w' !! x = Some None ∧
         (p ≠ Some l → cells w' !! l = Some m) ∧
         (p = Some l →
          cells w' !! l = Some (Model (_count m - 1) (_value m)))).
Proof.
  intros Hr Hne Ht Hx Hl.
  pose proof (reachable_I NDEBUG capacity w Hr) as HI.
  pose proof MAX_OBJECTS_small as Hsmall.
  assert (x ≠ this) as Hne' by done.
  destruct (dtor_cases MAX_OBJECTS w this p HI ltac:(lia) Ht)
    as [[Hnl Hd]|(j & mj & -> & Hj & Hone & Hjd & Hd)].
  - rewrite (move_assign_eq NDEBUG w this x p l Ht Hx Hne Hnl).
    rewrite (bind_Return _ _ _ _ _ Hd).
    rewrite (ctor_move_eq _ this x l); simpl.
    2:{ by rewrite lookup_delete_ne. }
    2:{ by rewrite lookup_delete_eq. }
    assert (<[this:=Some l]> (<[x:=None]> (delete this (handles w)))
            = <[this:=Some l]> (<[x:=None]> (handles w))) as Hhs.
    { rewrite insert_delete_ne by done. by rewrite insert_delete_eq. }
    split; [unfold upd_handles; simpl; by rewrite Hhs|].
    right. eexists. split; [done|]. simpl. split_and!.
    + apply lookup_insert_eq.
    + rewrite lookup_insert_ne by done. apply lookup_insert_eq.
    + intros Hpl. by rewrite detach_other.
    + intros ->. simpl. rewrite Hl. rewrite lookup_insert_eq.
      destruct (reachable_count NDEBUG capacity w l m Hr Hl).
      destruct HI as [[Hc _ _] _].
      pose proof (counted_pos _ _ _ _ _ Hc Ht Hl). pose proof (extra_range l).
      by rewrite wrap_small by lia.
  - assert (j ≠ l) as Hjl.
    { intros ->. destruct HI as [[Hc _ _] _].
      pose proof (refs_two _ _ _ _ Hne Ht Hx). pose proof (Hc l mj Hj).
      pose proof (extra_range l). lia. }
    rewrite (move_assign_last_eq w this x j mj l Ht Hx Hne Hj Hone Hjd).
    unfold bind. rewrite Hd.
    destruct (asserted_cells NDEBUG w) as [cs|] eqn:Hcs; [|by split; [|left]].
    rewrite (ctor_move_eq _ this x l); simpl.
    2:{ by rewrite lookup_delete_ne. }
    2:{ by rewrite lookup_delete_eq. }
    assert (<[this:=Some l]> (<[x:=None]> (delete this (handles w)))
            = <[this:=Some l]> (<[x:=None]> (handles w))) as Hhs.
    { rewrite insert_delete_ne by done. by rewrite insert_delete_eq. }
    split; [unfold upd_handles; simpl; by rewrite Hhs|].
    right. eexists. split; [done|]. simpl. split_and!.
    + apply lookup_insert_eq.
    + rewrite lookup_insert_ne by done. apply lookup_insert_eq.
    + intros _. rewrite lookup_delete_ne by done.
      by apply (asserted_cells_lookup w cs l m).
    + intros [= ->]. done.
Qed.



(** Copy assignment between two different live objects, the source not
    null, either completes with [this] on the source's cell or (debug
    build, first use of [default_model()] throwing) terminates. *)
Lemma copy_assign_outcome k w this x p l :
  InvB k w → k + 2 < SIZE_MOD → this ≠ x →
  handles w !! this = Some p → handles w !! x = Some (Some l) →
  copy_assign (E:=E) NDEBUG this x w = Terminate ∨
  ∃ w', copy_assign (E:=E) NDEBUG this x w = Return tt w' ∧
        handles w' = <[this:=Some l]> (handles w).
Proof.
  intros HI Hk Hne Ht Hx.
  destruct (dtor_cases k w this p HI Hk Ht)
    as [[Hnl _]|(j & mj & -> & Hj & Hone & Hjd & _)];
    destruct HI as [[Hc Hatt Hh] Hb]; destruct (Hatt x l Hx) as [m Hl];
    pose proof (counted_range _ _ _ _ _ Hc Hb Hl) as Hrange.
  - right. eexists. split;
      [apply (copy_assign_eq NDEBUG w this x p l m); try done; lia|done].
  - assert (j ≠ l) as Hjl.
    { intros ->. pose proof (refs_two _ _ _ _ Hne Ht Hx).
      pose proof (Hc l mj Hj). pose proof (extra_range l). lia. }
    rewrite (copy_assign_last_eq w this x j mj l m); try done; try lia.
    destruct (asserted_cells NDEBUG w); [right|by left].
    eexists. by split.
Qed.


End assignment.

Lemma reach_shared_assigned :
  reachable (RT:=nat_ops) false 3 w_shared_assigned.
Proof.
  eapply reach_step with (o := ValueAssign 2%positive 9%nat).
  - apply reach_shared.
  - intros [=].
  - vm_compute. reflexivity.
Defined.

Lemma swap_exchanges_witness :
  ∃ w', swap (E:=unit) 1%positive 2%positive w_moved = Return tt w' ∧
        handles w' !! 1%positive = Some (Some 2%positive) ∧
        handles w' !! 2%positive = Some None ∧
        swap (E:=unit) 1%positive 2%positive w' = Return tt w_moved.
Proof.
  destruct (swap_exchanges (E:=unit) w_moved 1%positive 2%positive None
              (Some 2%positive))
    as (w' & H1 & H2 & H3 & _ & _ & _ & _ & _ & H4);
    [reflexivity|reflexivity|].
  exists w'. split_and!; assumption.
Defined.

Lemma move_assign_is_destroy_then_move_witness :
  move_assign (RT:=nat_ops) false 2%positive 1%positive w_shared_assigned
  = (dtor (RT:=nat_ops) false 2%positive;;
     ctor_move 2%positive 1%positive) w_shared_assigned.
Proof.
  apply (move_assign_is_destroy_then_move (RT:=nat_ops) false 3%nat
           w_shared_assigned 2%positive 1%positive (Some 2%positive)
           1%positive (Model 2 0%nat) reach_shared_assigned).
  - done.
  - reflexivity.
  - reflexivity.
  - reflexivity.
Defined.



(** ** Moved-from objects *)

Section moved_from.
Context {T E : Type} {RT : Regular T E}.
Variable NDEBUG : bool.
Implicit Types w : world T.

Lemma fresh_name_dead w : handles w !! fresh (dom (handles w)) = None.
Proof. apply not_elem_of_dom, is_fresh. Qed.





End moved_from.


(** ** Cells nobody else sees *)

Section exclusive.
Context {T E : Type} {RT : Regular T E}.
Variable NDEBUG : bool.
Implicit Types w : world T.

(** The owner of a cell whose count is one is the only object on it. *)
Lemma sole_owner w h x l m :
  counted (cells w) (handles w) → handles w !! h = Some (Some l) →
  cells w !! l = Some m → _count m = 1 → x ≠ h →
  handles w !! x ≠ Some (Some l).
Proof.
  intros Hc Hh Hl Hone Hne Hx.
  pose proof (refs_two _ _ _ _ Hne Hx Hh). pose proof (Hc l m Hl).
  pose proof (extra_range l). lia.
Qed.

(** The three ways [write()] can go. *)
Lemma write_cases k w h l m :
  InvB k w → handles w !! h = Some (Some l) → cells w !! l = Some m →
  (_count m = 1 ∧ write NDEBUG h w = Return l w) ∨
  (_count m ≠ 1 ∧ (space w = 0%nat ∨ ∃ e, T_copy (_value m) = inl e) ∧
   ∃ e, write NDEBUG h w = Throw e w) ∨
  (_count m ≠ 1 ∧ space w ≠ 0%nat ∧ T_copy (_value m) = inr (_value m) ∧
   cells w !! next w = None ∧
   ∃ w1, write NDEBUG h w = Return (next w) w1 ∧
         handles w1 = <[h:=Some (next w)]> (handles w) ∧
         cells w1 = detach (Some l) (<[next w:=Model 1 (_value m)]> (cells w)) ∧
         cells w1 !! next w = Some (Model 1 (_value m))).
Proof.
  intros HI Hh Hl. rewrite (write_unfold NDEBUG w h l m Hh Hl).
  destruct (_count m =? 1) eqn:Hu.
  { left. split; [lia|done]. }
  assert (_count m ≠ 1) as Hone by lia. right.
  assert (∀ j m', Some l = Some j → cells w !! j = Some m' → _count m' ≠ 1)
    as Hp by (intros j m' [= <-] ?; congruence).
  destruct (assign_new_cases NDEBUG k w h (Some l) (T_copy (_value m)) HI Hh Hp)
    as [(e & Ha & Hwhy)|(v & w1 & Hv & Hs & Ha & Hhs & Hcs & Hnew)].
  - left. split; [done|]. split.
    + destruct Hwhy as [?|[e' ?]]; eauto.
    + exists e. by rewrite (bind_Throw _ _ _ _ _ Ha).
  - right. pose proof (T_copy_eq _ _ Hv) as ->.
    destruct HI as [[_ _ Hheap] _].
    split_and!; try done; [by eapply heap_ok_fresh|].
    exists w1. split_and!; try done.
    rewrite (bind_Return _ _ _ _ _ Ha).
    unfold bind, get_self, nonnull, ret. rewrite Hhs, lookup_insert_eq. done.
Qed.

(** X8.  The value constructor [copy_on_write(U&& x)] gives the new object
    a cell of its own: with storage left it completes, the object reads
    the value it was built from, is unique, is identical to no object that
    existed before, and every such object keeps its cell, which is
    unchanged. *)
Theorem value_constructor_owns_new_cell capacity w h v :
  reachable NDEBUG capacity w → handles w !! h = None → space w ≠ 0%nat →
  ∃ w',
    ctor_value (E:=E) h (inr v) w = Return tt w' ∧
    cells w !! next w = None ∧
    handles w' !! h = Some (Some (next w)) ∧
    read (E:=E) h w' = Return v w' ∧
    unique (E:=E) h w' = Return true w' ∧
    S (space w') = space w ∧ freed w' = freed w ∧
    (∀ x lx, handles w !! x = Some (Some lx) →
       handles w' !! x = Some (Some lx) ∧
       cells w' !! lx = cells w !! lx ∧
       identity (E:=E) h x w' = Return false w').
Proof.
  intros Hr Hh Hs.
  destruct (reachable_I NDEBUG capacity w Hr) as [[Hc Hatt Hheap] _].
  pose proof (heap_ok_fresh _ _ _ Hheap) as Hnx.
  destruct (space w) as [|n] eqn:Hsp; [done|].
  eexists. split; [by apply ctor_value_eq|]. simpl.
  assert (∀ x lx, handles w !! x = Some (Some lx) → x ≠ h ∧ lx ≠ next w)
    as Hold.
  { intros x lx Hx. split; [congruence|]. intros ->.
    destruct (Hatt x (next w) Hx) as [m Hm]. congruence. }
  split_and!; try done.
  - apply lookup_insert_eq.
  - apply (read_eq _ h (next w) (Model 1 v)); simpl; apply lookup_insert_eq.
  - rewrite (unique_eq _ h (next w) (Model 1 v)); simpl;
      [done|apply lookup_insert_eq..].
  - intros x lx Hx. destruct (Hold x lx Hx) as [Hxh Hlx].
    assert (<[h:=Some (next w)]> (handles w) !! x = Some (Some lx)) as Hx'
      by (by rewrite lookup_insert_ne).
    split_and!; [done|by rewrite lookup_insert_ne|].
    erewrite identity_eq; simpl; [|apply lookup_insert_eq|exact Hx'].
    by rewrite bool_decide_false.
Qed.

(** X9.  Mutating through the reference [write()] returns.  When the
    statement completes normally, the object reads the new value and is
    unique, while every other object reads what it read before and is not
    identical to it: the write is seen by nobody else.  When it fails, the
    object was shared and the state is untouched.  It does complete when
    the object is unique already, or when there is storage and the copy
    constructor of [T] succeeds. *)
Theorem mutation_through_write capacity w h l m f :
  reachable NDEBUG capacity w →
  handles w !! h = Some (Some l) → cells w !! l = Some m →
  (∀ w', exec NDEBUG (Write h f) w = Return tt w' →
     read (E:=E) h w' = Return (f (_value m)) w' ∧
     unique (E:=E) h w' = Return true w' ∧
     (∀ x lx mx, x ≠ h → handles w !! x = Some (Some lx) →
        cells w !! lx = Some mx →
        read (E:=E) x w' = Return (_value mx) w' ∧
        identity (E:=E) h x w' = Return false w')) ∧
  (∀ e w', exec NDEBUG (Write h f) w = Throw e w' →
     w' = w ∧ _count m ≠ 1 ∧
     (space w = 0%nat ∨ ∃ e', T_copy (_value m) = inl e')) ∧
  (_count m = 1 ∨ (space w ≠ 0%nat ∧ ∃ v, T_copy (_value m) = inr v) →
   ∃ w', exec NDEBUG (Write h f) w = Return tt w').
Proof.
  intros Hr Hh Hl.
  pose proof (reachable_I NDEBUG capacity w Hr) as HI.
  destruct (write_cases MAX_OBJECTS w h l m HI Hh Hl)
    as [[Hone Hw]|[(Hone & Hwhy & e0 & Hw)|
                   (Hone & Hs & Hcp & Hnx & w1 & Hw & Hhs & Hcs & Hnew)]];
    destruct HI as [[Hc Hatt Hheap] _].
  - assert (exec NDEBUG (Write h f) w
            = Return tt (upd_cells <[l:=Model 1 (f (_value m))]> w)) as Hex.
    { simpl. rewrite (bind_Return _ _ _ _ _ Hw).
      unfold bind, load, store. rewrite Hl. cbv beta iota.
      rewrite Hl. by rewrite Hone. }
    rewrite Hex. split_and!; [|done|by eauto].
    intros w' [= <-]. split_and!.
    + apply (read_eq _ h l (Model 1 (f (_value m)))); simpl;
        [done|apply lookup_insert_eq].
    + rewrite (unique_eq _ h l (Model 1 (f (_value m)))); simpl;
        [done|done|apply lookup_insert_eq].
    + intros x lx mx Hxh Hx Hlx.
      assert (lx ≠ l) as Hne.
      { intros ->. by eapply (sole_owner w h x l m). }
      split.
      * apply (read_eq _ x lx mx); simpl; [done|].
        by rewrite lookup_insert_ne.
      * erewrite identity_eq; simpl; [|done..]. by rewrite bool_decide_false.
  - assert (exec NDEBUG (Write h f) w = Throw e0 w) as Hex
      by (simpl; by rewrite (bind_Throw _ _ _ _ _ Hw)).
    rewrite Hex. split_and!; [done|by intros e w' [= _ <-]|].
    intros [?|[? [v Hv]]]; [done|].
    destruct Hwhy as [?|[e' He']]; [done|congruence].
  - assert (exec NDEBUG (Write h f) w
            = Return tt (upd_cells <[next w:=Model 1 (f (_value m))]> w1))
      as Hex.
    { simpl. rewrite (bind_Return _ _ _ _ _ Hw).
      unfold bind, load, store. rewrite Hnew. cbv beta iota.
      by rewrite Hnew. }
    rewrite Hex. split_and!; [|done|by eauto].
    intros w' [= <-]. split_and!.
    + apply (read_eq _ h (next w) (Model 1 (f (_value m)))); simpl;
        [|apply lookup_insert_eq].
      rewrite Hhs. apply lookup_insert_eq.
    + rewrite (unique_eq _ h (next w) (Model 1 (f (_value m)))); simpl;
        [done| |apply lookup_insert_eq].
      rewrite Hhs. apply lookup_insert_eq.
    + intros x lx mx Hxh Hx Hlx.
      assert (lx ≠ next w) as Hne by congruence.
      assert (handles w1 !! x = Some (Some lx)) as Hx1
        by (by rewrite Hhs, lookup_insert_ne).
      split.
      * destruct (detach_value (Some l)
                    (<[next w:=Model 1 (_value m)]> (cells w)) lx mx)
          as [c Hc1]; [by rewrite lookup_insert_ne|].
        rewrite <-Hcs in Hc1.
        apply (read_eq _ x lx (Model c (_value mx))); simpl; [done|].
        by rewrite lookup_insert_ne.
      * erewrite identity_eq; simpl; [|by rewrite Hhs, lookup_insert_eq|done].
        by rewrite bool_decide_false.
Qed.

End exclusive.

Lemma value_constructor_owns_new_cell_witness :
  ∃ w', ctor_value (E:=unit) 2%positive (inr 5%nat) w_unique = Return tt w' ∧
        read (E:=unit) 2%positive w' = Return 5%nat w' ∧
        unique (E:=unit) 2%positive w' = Return true w' ∧
        identity (E:=unit) 2%positive 1%positive w' = Return false w'.
Proof.
  destruct (value_constructor_owns_new_cell (RT:=nat_ops) false 3%nat
              w_unique 2%positive 5%nat reach_unique)
    as (w' & H1 & _ & _ & H2 & H3 & _ & _ & H4); [reflexivity|done|].
  exists w'. split_and!; try done.
  by apply (H4 1%positive 2%positive).
Defined.

Lemma mutation_through_write_witness :
  ∃ w', exec (RT:=nat_ops) false (Write 2%positive S) w_shared = Return tt w'.
Proof.
  destruct (mutation_through_write (RT:=nat_ops) false 3%nat w_shared
              2%positive 1%positive (Model 3 0%nat) S reach_shared)
    as (_ & _ & H); [reflexivity|reflexivity|].
  apply H. right. split; [done|]. by exists 0%nat.
Defined.

(** ** The [document] class *)

Section vectors.
Context {A : Type}.
Implicit Types (v : list A) (x : A).

Lemma vector_insert_spec index x v :
  (index ≤ length v)%nat →
  vector_insert index x v = take index v ++ x :: drop index v.
Proof.
  revert v. induction index as [|i IH]; intros v Hi; [done|].
  destruct v as [|y v]; simpl in *; [lia|].
  rewrite IH by lia. done.
Qed.

Lemma vector_erase_spec index v :
  vector_erase index v = take index v ++ drop (S index) v.
Proof.
  revert index. induction v as [|y v IH]; intros [|i]; simpl; try done.
  by rewrite IH.
Qed.

Lemma vector_erase_insert index x v :
  (index ≤ length v)%nat → vector_erase index (vector_insert index x v) = v.
Proof.
  revert v. induction index as [|i IH]; intros v Hi; [done|].
  destruct v as [|y v]; simpl in *; [lia|]. by rewrite IH by lia.
Qed.

Lemma vector_insert_length index x v :
  length (vector_insert index x v) = S (length v).
Proof.
  revert v. induction index as [|i IH]; intros [|y v]; simpl; try done.
  by rewrite IH.
Qed.

Lemma vector_erase_length index v :
  (index < length v)%nat → S (length (vector_erase index v)) = length v.
Proof.
  revert index. induction v as [|y v IH]; intros [|i] Hi; simpl in *;
    try done; try lia.
  rewrite IH by lia. done.
Qed.

End vectors.

Lemma insert_transform_inplace line index lines :
  (index ≤ length lines)%nat →
  insert_transform line index lines = insert_inplace line index lines.
Proof.
  intros Hi. unfold insert_transform, insert_inplace, vector_append.
  rewrite vector_insert_spec by done. simpl. by rewrite <-app_assoc.
Qed.

Lemma erase_transform_inplace index lines :
  erase_transform index lines = erase_inplace index lines.
Proof.
  unfold erase_transform, erase_inplace, vector_append.
  rewrite vector_erase_spec. simpl. by rewrite Nat.add_1_r.
Qed.

Section document_props.
Context {T E : Type} {RT : Regular T E}.
Variable NDEBUG : bool.
Implicit Types w : world T.

(** [write(transform, inplace)] with two callables that do not fail and
    agree on the current value. *)
Lemma write_with_total k w h l m (t i : T → T) :
  InvB k w → handles w !! h = Some (Some l) → cells w !! l = Some m →
  t (_value m) = i (_value m) →
  (_count m ≠ 1 ∧ space w = 0%nat ∧
   write_with NDEBUG h (λ v, inr (t v)) (λ v, (i v, None)) w
   = Throw bad_alloc w) ∨
  (∃ l' w',
     (_count m = 1 ∨ space w ≠ 0%nat) ∧
     write_with NDEBUG h (λ v, inr (t v)) (λ v, (i v, None)) w
     = Return l' w' ∧
     handles w' !! h = Some (Some l') ∧
     cells w' !! l' = Some (Model 1 (i (_value m))) ∧
     (_count m = 1 → l' = l ∧ next w' = next w ∧ space w' = space w) ∧
     (∀ x lx mx, x ≠ h → handles w !! x = Some (Some lx) →
        cells w !! lx = Some mx →
        lx ≠ l' ∧ handles w' !! x = Some (Some lx) ∧
        ∃ c, cells w' !! lx = Some (Model c (_value mx)))).
Proof.
  intros HI Hh Hl Hti.
  rewrite (write_with_unfold NDEBUG w h l m _ _ Hh Hl). cbn [fst snd].
  destruct (_count m =? 1) eqn:Hu.
  - assert (_count m = 1) as Hone by lia. right.
    exists l. eexists. split; [by left|]. split; [done|]. simpl.
    rewrite Hone, lookup_insert_eq. split_and!; try done.
    intros x lx mx Hxh Hx Hlx. destruct HI as [[Hc _ _] _].
    assert (lx ≠ l) as Hne.
    { intros ->. by eapply (sole_owner w h x l m). }
    split_and!; try done. rewrite lookup_insert_ne by done.
    exists (_count mx). by destruct mx.
  - assert (_count m ≠ 1) as Hone by lia.
    assert (∀ j m', Some l = Some j → cells w !! j = Some m' → _count m' ≠ 1)
      as Hp by (intros j m' [= <-] ?; congruence).
    destruct (assign_new_cases NDEBUG k w h (Some l) (inr (t (_value m)))
                HI Hh Hp)
      as [(e & Ha & Hwhy)|(v & w1 & Hv & Hs & Ha & Hhs & Hcs & Hnew)].
    + left. destruct Hwhy as [Hs|[e' ?]]; [|done].
      split; [done|]. split; [done|].
      rewrite (bind_Throw _ _ _ _ _ Ha).
      rewrite assign_new_throw in Ha by auto. rewrite Hs in Ha.
      by injection Ha as <-.
    + right. injection Hv as <-. exists (next w), w1.
      destruct HI as [[Hc Hatt Hheap] _].
      pose proof (heap_ok_fresh _ _ _ Hheap) as Hnx.
      split; [by right|]. split.
      { rewrite (bind_Return _ _ _ _ _ Ha).
        unfold bind, get_self, nonnull, ret.
        by rewrite Hhs, lookup_insert_eq. }
      split; [by rewrite Hhs, lookup_insert_eq|].
      split; [by rewrite <-Hti|]. split; [done|].
      intros x lx mx Hxh Hx Hlx.
      assert (lx ≠ next w) as Hne by congruence.
      split_and!; [done|by rewrite Hhs, lookup_insert_ne|].
      rewrite Hcs. apply detach_value. by rewrite lookup_insert_ne.
Qed.

End document_props.

Section document_class.
Context {E : Type} {RT : Regular (list string) E}.
Variable NDEBUG : bool.
Implicit Types (w : world (list string)) (lines : list string).

Lemma document_size_eq w d l m :
  handles w !! d = Some (Some l) → cells w !! l = Some m →
  document_size (E:=E) d w = Return (length (_value m)) w.
Proof.
  intros Hd Hl. unfold document_size.
  by rewrite (bind_Return _ _ _ _ _ (read_eq w d l m Hd Hl)).
Qed.

(** What the two editing operations have in common: the bound is asserted
    and [_lines.write(transform, inplace)] is called. *)
Lemma document_edit_cases capacity w d l m (b : bool) (t i : list string → list string) :
  reachable NDEBUG capacity w →
  handles w !! d = Some (Some l) → cells w !! l = Some m →
  (b = true → t (_value m) = i (_value m)) →
  let edit :=
    (assert (E:=E) b;;
     write_with NDEBUG d (λ v, inr (t v)) (λ v, (i v, None));;
     ret tt) in
  (b = false ∧ edit w = Undefined) ∨
  (b = true ∧ _count m ≠ 1 ∧ space w = 0%nat ∧ edit w = Throw bad_alloc w) ∨
  (b = true ∧ (_count m = 1 ∨ space w ≠ 0%nat) ∧
   ∃ l' w',
     edit w = Return tt w' ∧
     reachable NDEBUG capacity w' ∧
     handles w' !! d = Some (Some l') ∧
     cells w' !! l' = Some (Model 1 (i (_value m))) ∧
     (_count m = 1 → l' = l ∧ next w' = next w ∧ space w' = space w) ∧
     (∀ x lx mx, x ≠ d → handles w !! x = Some (Some lx) →
        cells w !! lx = Some mx →
        lx ≠ l' ∧ handles w' !! x = Some (Some lx) ∧
        ∃ c, cells w' !! lx = Some (Model c (_value mx)))).
Proof.
  intros Hr Hd Hl Hti edit. subst edit.
  destruct b; [|left; by split]. right.
  pose proof (reachable_I NDEBUG capacity w Hr) as HI.
  unfold bind at 1. unfold assert.
  destruct (write_with_total NDEBUG MAX_OBJECTS w d l m t i HI Hd Hl
              (Hti eq_refl))
    as [(Hone & Hs & Hw)|(l' & w' & Hcan & Hw & Hd' & Hl' & Hsame & Hoth)].
  - left. split_and!; try done. by rewrite (bind_Throw _ _ _ _ _ Hw).
  - right. split_and!; try done. exists l', w'.
    assert ((write_with NDEBUG d (λ v, inr (t v)) (λ v, (i v, None));;
             ret tt) w = Return tt w') as Hrun
      by (by rewrite (bind_Return _ _ _ _ _ Hw)).
    split_and!; try done.
    apply (reach_step NDEBUG capacity w
             (WriteWith d (λ v, inr (t v)) (λ v, (i v, None))) w' Hr);
      [done|]. simpl. by rewrite Hrun.
Qed.

Lemma document_insert_unfold w d l m line index :
  handles w !! d = Some (Some l) → cells w !! l = Some m →
  document_insert NDEBUG d line index w =
    (assert (E:=E) (index <=? length (_value m))%nat;;
     write_with NDEBUG d
       (λ lines, inr (insert_transform line index lines))
       (λ lines, (insert_inplace line index lines, None));;
     ret tt) w.
Proof.
  intros Hd Hl. unfold document_insert.
  by rewrite (bind_Return _ _ _ _ _ (document_size_eq w d l m Hd Hl)).
Qed.

Lemma document_erase_unfold w d l m index :
  handles w !! d = Some (Some l) → cells w !! l = Some m →
  document_erase NDEBUG d index w =
    (assert (E:=E) (index <? length (_value m))%nat;;
     write_with NDEBUG d
       (λ lines, inr (erase_transform index lines))
       (λ lines, (erase_inplace index lines, None));;
     ret tt) w.
Proof.
  intros Hd Hl. unfold document_erase.
  by rewrite (bind_Return _ _ _ _ _ (document_size_eq w d l m Hd Hl)).
Qed.

(** What every completed edit gives its caller. *)
Lemma document_edited w w' d l' lines (others : name → loc → model (list string) → Prop) :
  handles w' !! d = Some (Some l') →
  cells w' !! l' = Some (Model 1 lines) →
  (∀ x lx mx, others x lx mx →
     lx ≠ l' ∧ handles w' !! x = Some (Some lx) ∧
     ∃ c, cells w' !! lx = Some (Model c (_value mx))) →
  document_lines (E:=E) d w' = Return lines w' ∧
  document_size (E:=E) d w' = Return (length lines) w' ∧
  unique (E:=E) d w' = Return true w' ∧
  (∀ x lx mx, others x lx mx →
     document_lines (E:=E) x w' = Return (_value mx) w' ∧
     document_identity (E:=E) d x w' = Return false w').
Proof.
  intros Hd Hl Hoth. split_and!.
  - apply (read_eq w' d l' (Model 1 lines) Hd Hl).
  - apply (document_size_eq w' d l' (Model 1 lines) Hd Hl).
  - by rewrite (unique_eq w' d l' (Model 1 lines) Hd Hl).
  - intros x lx mx Hx. destruct (Hoth x lx mx Hx) as (Hne & Hx' & c & Hlx).
    split.
    + apply (read_eq w' x lx (Model c (_value mx)) Hx' Hlx).
    + unfold document_identity.
      rewrite (identity_eq w' d x l' lx Hd Hx').
      by rewrite bool_decide_false.
Qed.

(** X10.  [document::insert].  With the index out of bounds the assertion
    fails.  Otherwise the call completes when the document owns its lines
    alone or a new cell can be allocated, and fails with [std::bad_alloc]
    and no effect when neither holds.  When it completes, the document
    has the given line at the given index, in front of the lines that
    were at and after it, it is one line longer and unique, and every
    other document reads the lines it read before and is not identical to
    this one: the two lambdas, one building a new vector and one inserting
    in place, give the same lines. *)
Theorem document_insert_spec capacity w d l m line index :
  reachable NDEBUG capacity w →
  handles w !! d = Some (Some l) → cells w !! l = Some m →
  ((length (_value m) < index)%nat →
   document_insert NDEBUG d line index w = Undefined) ∧
  ((index ≤ length (_value m))%nat → _count m ≠ 1 → space w = 0%nat →
   document_insert NDEBUG d line index w = Throw bad_alloc w) ∧
  ((index ≤ length (_value m))%nat → _count m = 1 ∨ space w ≠ 0%nat →
   ∃ w',
     document_insert NDEBUG d line index w = Return tt w' ∧
     document_lines (E:=E) d w'
     = Return (take index (_value m) ++ line :: drop index (_value m)) w' ∧
     document_size (E:=E) d w' = Return (S (length (_value m))) w' ∧
     unique (E:=E) d w' = Return true w' ∧
     (∀ x lx mx, x ≠ d → handles w !! x = Some (Some lx) →
        cells w !! lx = Some mx →
        document_lines (E:=E) x w' = Return (_value mx) w' ∧
        document_identity (E:=E) d x w' = Return false w')).
Proof.
  intros Hr Hd Hl.
  rewrite (document_insert_unfold w d l m line index Hd Hl).
  destruct (document_edit_cases capacity w d l m
              (index <=? length (_value m))%nat
              (insert_transform line index) (insert_inplace line index)
              Hr Hd Hl)
    as [[Hb ->]|[(Hb & Hone & Hs & ->)|
                 (Hb & Hcan & l' & w' & -> & _ & Hd' & Hl' & _ & Hoth)]].
  { intros Hb%Nat.leb_le. by apply insert_transform_inplace. }
  - apply Nat.leb_gt in Hb. split_and!; [done|intros; lia..].
  - apply Nat.leb_le in Hb. split_and!; [intros; lia|done|].
    intros _ [?|?]; done.
  - apply Nat.leb_le in Hb. split_and!; [intros; lia|intros _ ? ?|].
    { destruct Hcan; done. }
    intros _ _. exists w'. split; [done|].
    unfold insert_inplace in Hl'.
    destruct (document_edited w w' d l' _
                (λ x lx mx, x ≠ d ∧ handles w !! x = Some (Some lx) ∧
                            cells w !! lx = Some mx) Hd' Hl')
      as (H1 & H2 & H3 & H4).
    { intros x lx mx (? & ? & ?). by apply Hoth. }
    rewrite vector_insert_length in H2.
    rewrite vector_insert_spec in H1 by done.
    split_and!; try done. intros x lx mx ? ? ?. by apply (H4 x lx mx).
Qed.

(** X11.  [document::erase].  With the index out of bounds the assertion
    fails.  Otherwise, when the call completes, the line at the index is
    gone and the others are in their order, the document is one line
    shorter and unique, and every other document reads the lines it read
    before. *)
Theorem document_erase_spec capacity w d l m index :
  reachable NDEBUG capacity w →
  handles w !! d = Some (Some l) → cells w !! l = Some m →
  ((length (_value m) ≤ index)%nat →
   document_erase NDEBUG d index w = Undefined) ∧
  ((index < length (_value m))%nat → _count m ≠ 1 → space w = 0%nat →
   document_erase NDEBUG d index w = Throw bad_alloc w) ∧
  ((index < length (_value m))%nat → _count m = 1 ∨ space w ≠ 0%nat →
   ∃ w',
     document_erase NDEBUG d index w = Return tt w' ∧
     document_lines (E:=E) d w'
     = Return (take index (_value m) ++ drop (S index) (_value m)) w' ∧
     (∃ n, document_size (E:=E) d w' = Return n w' ∧
           S n = length (_value m)) ∧
     unique (E:=E) d w' = Return true w' ∧
     (∀ x lx mx, x ≠ d → handles w !! x = Some (Some lx) →
        cells w !! lx = Some mx →
        document_lines (E:=E) x w' = Return (_value mx) w' ∧
        document_identity (E:=E) d x w' = Return false w')).
Proof.
  intros Hr Hd Hl.
  rewrite (document_erase_unfold w d l m index Hd Hl).
  destruct (document_edit_cases capacity w d l m
              (index <? length (_value m))%nat
              (erase_transform index) (erase_inplace index)
              Hr Hd Hl)
    as [[Hb ->]|[(Hb & Hone & Hs & ->)|
                 (Hb & Hcan & l' & w' & -> & _ & Hd' & Hl' & _ & Hoth)]].
  { intros _. by apply erase_transform_inplace. }
  - apply Nat.ltb_ge in Hb. split_and!; [done|intros; lia..].
  - apply Nat.ltb_lt in Hb. split_and!; [intros; lia|done|].
    intros _ [?|?]; done.
  - apply Nat.ltb_lt in Hb. split_and!; [intros; lia|intros _ ? ?|].
    { destruct Hcan; done. }
    intros _ _. exists w'. split; [done|].
    unfold erase_inplace in Hl'.
    destruct (document_edited w w' d l' _
                (λ x lx mx, x ≠ d ∧ handles w !! x = Some (Some lx) ∧
                            cells w !! lx = Some mx) Hd' Hl')
      as (H1 & H2 & H3 & H4).
    { intros x lx mx (? & ? & ?). by apply Hoth. }
    rewrite vector_erase_spec in H1.
    split_and!; try done.
    + eexists. split; [exact H2|]. by apply vector_erase_length.
    + intros x lx mx ? ? ?. by apply (H4 x lx mx).
Qed.

(** X12.  Erasing the line just inserted gives the document its lines
    back: after [d.insert(line, index)] has completed, [d.erase(index)]
    completes too, without allocating (the document is unique by then),
    and the document reads what it read before the insertion. *)
Theorem document_erase_undoes_insert capacity w d l m line index w1 :
  reachable NDEBUG capacity w →
  handles w !! d = Some (Some l) → cells w !! l = Some m →
  document_insert NDEBUG d line index w = Return tt w1 →
  ∃ w2,
    document_erase NDEBUG d index w1 = Return tt w2 ∧
    document_lines (E:=E) d w2 = Return (_value m) w2 ∧
    next w2 = next w1 ∧ space w2 = space w1 ∧ freed w2 = freed w1 ∧
    handles w2 = handles w1.
Proof.
  intros Hr Hd Hl Hins.
  rewrite (document_insert_unfold w d l m line index Hd Hl) in Hins.
  destruct (document_edit_cases capacity w d l m
              (index <=? length (_value m))%nat
              (insert_transform line index) (insert_inplace line index)
              Hr Hd Hl)
    as [[Hb Hu]|[(Hb & Hone & Hs & Ht)|
                 (Hb & Hcan & l1 & w1' & Hret & Hr1 & Hd1 & Hl1 & _ & _)]].
  { intros Hb%Nat.leb_le. by apply insert_transform_inplace. }
  { by rewrite Hu in Hins. }
  { by rewrite Ht in Hins. }
  rewrite Hret in Hins. injection Hins as <-. apply Nat.leb_le in Hb.
  unfold insert_inplace in Hl1.
  rewrite (document_erase_unfold w1' d l1 _ index Hd1 Hl1). simpl.
  rewrite vector_insert_length.
  assert ((index <? S (length (_value m)))%nat = true) as ->
    by (apply Nat.ltb_lt; lia).
  unfold bind at 1. unfold assert.
  rewrite (bind_Return _ _ _ l1
             (upd_cells <[l1:=Model 1 (_value m)]> w1')).
  2:{ rewrite (write_with_unfold NDEBUG w1' d l1 _ _ _ Hd1 Hl1). simpl.
      unfold erase_inplace. by rewrite vector_erase_insert. }
  eexists. split; [done|]. split_and!; try done.
  apply (read_eq _ d l1 (Model 1 (_value m))); simpl; [done|].
  apply lookup_insert_eq.
Qed.

End document_class.

(** X13.  The test program.  Whenever the default constructor of the
    vector gives the empty vector and the free store has room for two
    cells, [main()] runs to its end with both assertions holding, prints
    the two lines of [d0] and the three lines of [d1], and leaves no
    object, no heap cell and no storage behind; [default_s] is back to a
    count of one.  With room for fewer than two cells an insertion fails
    with [std::bad_alloc]. *)
Theorem main_runs {E} {RT : Regular (list string) E} (NDEBUG : bool)
    (capacity : nat) :
  T_default = Some (inr []) →
  ((2 ≤ capacity)%nat →
   main NDEBUG (init capacity) =
     Return ["d0:"; "Hello, world!"; "After Hello";
             "d1:"; "Start of d1"; "Hello, world!"; "After Hello"]
       (World {[default_loc := Model 1 []]} 4%positive capacity
              [2%positive; 3%positive] ∅)) ∧
  ((capacity < 2)%nat →
   ∃ w, main NDEBUG (init capacity) = Throw bad_alloc w).
Proof.
  intros HT. destruct RT as [Td Tc Ta Te Tl H1 H2]. simpl in HT. subst Td.
  split.
  - intros Hc. destruct capacity as [|[|n]]; [lia..|].
    destruct NDEBUG; vm_compute; reflexivity.
  - intros Hc. destruct capacity as [|[|n]]; [| |lia];
      destruct NDEBUG; eexists; vm_compute; reflexivity.
Qed.

Lemma main_runs_witness :
  main (RT:=vector_ops) false (init 2) =
    Return ["d0:"; "Hello, world!"; "After Hello";
            "d1:"; "Start of d1"; "Hello, world!"; "After Hello"]
      (World {[default_loc := Model 1 []]} 4%positive 2%nat
             [2%positive; 3%positive] ∅).
Proof.
  destruct (main_runs (RT:=vector_ops) false 2 eq_refl) as [H _].
  apply H. lia.
Defined.

Lemma reach_doc : reachable (RT:=vector_ops) false 2 w_doc.
Proof.
  eapply reach_step with (o := Copy 2%positive 1%positive).
  - eapply reach_step
      with (o := WriteWith 1%positive
                   (λ lines, inr (insert_transform "After Hello" 1 lines))
                   (λ lines, (insert_inplace "After Hello" 1 lines, None))).
    + eapply reach_step
        with (o := WriteWith 1%positive
                     (λ lines, inr (insert_transform "Hello, world!" 0 lines))
                     (λ lines, (insert_inplace "Hello, world!" 0 lines, None))).
      * eapply reach_step with (o := Default 1%positive).
        -- apply reach_init.
        -- intros _. vm_compute. reflexivity.
        -- vm_compute. reflexivity.
      * intros [=].
      * vm_compute. reflexivity.
    + intros [=].
    + vm_compute. reflexivity.
  - intros _. vm_compute. reflexivity.
  - vm_compute. reflexivity.
Defined.

Lemma document_insert_spec_witness :
  ∃ w',
    document_insert (RT:=vector_ops) false 2%positive "Start of d1" 0 w_doc
    = Return tt w' ∧
    document_lines (E:=unit) 2%positive w'
    = Return ["Start of d1"; "Hello, world!"; "After Hello"] w' ∧
    document_lines (E:=unit) 1%positive w'
    = Return ["Hello, world!"; "After Hello"] w'.
Proof.
  destruct (document_insert_spec (RT:=vector_ops) false 2%nat w_doc
              2%positive 2%positive
              (Model 2 ["Hello, world!"; "After Hello"]) "Start of d1" 0
              reach_doc eq_refl eq_refl) as (_ & _ & H).
  destruct H as (w' & H1 & H2 & _ & _ & H3); [simpl; lia|by right|].
  exists w'. split_and!; try done.
  by apply (H3 1%positive 2%positive
              (Model 2 ["Hello, world!"; "After Hello"])).
Defined.

Lemma document_erase_spec_witness :
  ∃ w',
    document_erase (RT:=vector_ops) false 2%positive 0 w_doc = Return tt w' ∧
    document_lines (E:=unit) 2%positive w' = Return ["After Hello"] w' ∧
    document_lines (E:=unit) 1%positive w'
    = Return ["Hello, world!"; "After Hello"] w'.
Proof.
  destruct (document_erase_spec (RT:=vector_ops) false 2%nat w_doc
              2%positive 2%positive
              (Model 2 ["Hello, world!"; "After Hello"]) 0
              reach_doc eq_refl eq_refl) as (_ & _ & H).
  destruct H as (w' & H1 & H2 & _ & _ & H3); [simpl; lia|by right|].
  exists w'. split_and!; try done.
  by apply (H3 1%positive 2%positive
              (Model 2 ["Hello, world!"; "After Hello"])).
Defined.

Lemma document_erase_undoes_insert_witness :
  ∃ w2,
    document_erase (RT:=vector_ops) false 2%positive 0 w_doc_inserted
    = Return tt w2 ∧
    document_lines (E:=unit) 2%positive w2
    = Return ["Hello, world!"; "After Hello"] w2.
Proof.
  destruct (document_erase_undoes_insert (RT:=vector_ops) false 2%nat w_doc
              2%positive 2%positive
              (Model 2 ["Hello, world!"; "After Hello"]) "Start of d1" 0
              w_doc_inserted reach_doc eq_refl eq_refl)
    as (w2 & H1 & H2 & _); [vm_compute; reflexivity|].
  exists w2. by split.
Defined.

(** ** Nothing leaks *)

Section no_leak.
Context {T E : Type} {RT : Regular T E}.
Variable NDEBUG : bool.
Variable capacity : nat.
Implicit Types (w : world T) (k : Z) (cs : gmap loc (model T)).

Arguments wrap : simpl never.

Local Abbreviation N := (tidy (T:=T) capacity).
Local Abbreviation L := (λ k w, InvB k w ∧ tidy capacity w).

Lemma heap_size_recount cs j m m' :
  cs !! j = Some m →
  size (delete default_loc (<[j:=m']> cs)) = size (delete default_loc cs).
Proof.
  intros Hj. destruct (decide (j = default_loc)) as [->|Hne].
  - by rewrite delete_insert_eq.
  - rewrite delete_insert_ne by done. apply map_size_insert_Some.
    rewrite lookup_delete_ne by done. eauto.
Qed.

Lemma heap_size_default cs m :
  size (delete default_loc (<[default_loc:=m]> cs))
  = size (delete default_loc cs).
Proof. by rewrite delete_insert_eq. Qed.

Lemma heap_size_new cs j m :
  cs !! j = None → j ≠ default_loc →
  size (delete default_loc (<[j:=m]> cs)) = S (size (delete default_loc cs)).
Proof.
  intros Hj Hne. rewrite delete_insert_ne by done.
  apply map_size_insert_None. by rewrite lookup_delete_ne.
Qed.

Lemma heap_size_delete cs j m :
  cs !! j = Some m → j ≠ default_loc →
  S (size (delete default_loc (delete j cs))) = size (delete default_loc cs).
Proof.
  intros Hj Hne. rewrite (delete_delete cs default_loc j).
  assert (is_Some (delete default_loc cs !! j)) as Hs
    by (rewrite lookup_delete_ne by done; eauto).
  rewrite (map_size_delete_Some j _ Hs).
  assert (size (delete default_loc cs) ≠ 0%nat); [|lia].
  apply map_size_ne_0_lookup_2 with j. done.
Qed.

Lemma tidy_recount w j m c v :
  N w → cells w !! j = Some m → 1 ≤ c →
  N (upd_cells <[j:=Model c v]> w).
Proof.
  intros [Hs Ho] Hj Hc. split.
  - unfold conserved, heap_cells in *. simpl.
    by rewrite (heap_size_recount _ j m).
  - intros l' m'. simpl. rewrite lookup_insert_Some.
    intros [[<- <-]|[_ Hl]]; [done|by eapply Ho].
Qed.

Lemma tidy_default w v :
  N w → N (upd_cells <[default_loc:=Model 1 v]> w).
Proof.
  intros [Hs Ho]. split.
  - unfold conserved, heap_cells in *. simpl. by rewrite heap_size_default.
  - intros l' m'. simpl. rewrite lookup_insert_Some.
    intros [[<- <-]|[_ Hl]]; [done|by eapply Ho].
Qed.

Lemma tidy_handles w f : N w → N (upd_handles f w).
Proof. by intros [Hs Ho]. Qed.

Lemma hoare_tidy {A} k k' (m : M T E A) :
  hoare (InvB k) m (λ _, InvB k') (InvB k) →
  hoare (L k) m (λ _, N) N →
  hoare (L k) m (λ _, L k') (L k).
Proof.
  intros H1 H2 w [HI HN]. specialize (H1 w HI). specialize (H2 w (conj HI HN)).
  by destruct (m w).
Qed.

Lemma hoare_any_R {A} (P : world T → Prop) (m : M T E A) Q R R' :
  hoare P (noexcept m) Q R → hoare P (noexcept m) Q R'.
Proof.
  intros H w Hw. specialize (H w Hw). unfold noexcept in *. by destruct (m w).
Qed.

Lemma tidy_default_model k :
  hoare (L k) (default_model (E:=E)) (λ _, N) N.
Proof.
  intros w [_ HN]. unfold default_model.
  destruct (cells w !! default_loc) as [d|] eqn:Hd; [done|].
  destruct T_default as [[e|v]|] eqn:HT; [done| |done].
  by apply tidy_default.
Qed.

Lemma tidy_attach k this j R :
  k + 2 < SIZE_MOD →
  hoare (L k) (declare (E:=E) this (Some j);; fetch_add j;; ret tt)
    (λ _, N) R.
Proof.
  intros Hk w [[[Hc _ _] Hb] HN]. unfold bind, declare.
  destruct (handles w !! this) eqn:Ht; [done|].
  unfold fetch_add, bind, load. simpl.
  destruct (cells w !! j) as [m|] eqn:Hj; [|done].
  unfold store. simpl. rewrite Hj. simpl.
  pose proof (counted_range _ _ _ _ _ Hc Hb Hj).
  apply (tidy_recount (upd_handles <[this:=Some j]> w) j m);
    [by apply tidy_handles|done|].
  rewrite wrap_small by lia. destruct HN as [_ Ho].
  pose proof (Ho j m Hj). lia.
Qed.

Lemma L_default_model k :
  hoare (L k) (default_model (E:=E)) (λ _, L k) (L k).
Proof.
  apply hoare_tidy; [|apply tidy_default_model].
  eapply hoare_weaken; [apply hoare_default_model|done| |done].
  by intros ? w (_ & _ & Hw).
Qed.

Lemma L_ctor_default k this :
  k + 2 < SIZE_MOD →
  hoare (L k) (ctor_default (E:=E) this) (λ _, L (k + 1)) (L k).
Proof.
  intros Hk. unfold ctor_default.
  eapply hoare_bind; [apply L_default_model|]. intros j.
  apply hoare_tidy; [by apply hoare_attach|by apply tidy_attach].
Qed.

Lemma L_ctor_value k this mk :
  hoare (L k) (ctor_value (E:=E) this mk) (λ _, L (k + 1)) (L k).
Proof.
  apply hoare_tidy; [apply hoare_ctor_value|].
  intros w [[[_ _ Hheap] _] [Hs Ho]].
  pose proof (heap_ok_fresh _ _ _ Hheap) as Hnx.
  assert (next w ≠ default_loc) as Hnd.
  { destruct Hheap as [_ Hd _ _ _ _]. lia. }
  unfold ctor_value, bind, new_model.
  destruct (space w) as [|n] eqn:Hsp; [done|]. destruct mk as [e|v]; [done|].
  unfold declare. simpl. destruct (handles w !! this) eqn:Ht; [done|].
  split.
  - unfold conserved, heap_cells in *. simpl.
    rewrite heap_size_new by done. lia.
  - intros l' m'. simpl. rewrite lookup_insert_Some.
    intros [[<- <-]|[_ Hl]]; [done|by eapply Ho].
Qed.

Lemma L_ctor_copy k this x R :
  k + 2 < SIZE_MOD →
  hoare (L k) (ctor_copy (E:=E) this x) (λ _, L (k + 1)) R.
Proof.
  intros Hk. apply (hoare_any_R _ _ _ (L k)).
  apply hoare_tidy; [by apply hoare_ctor_copy|].
  unfold ctor_copy. apply hoare_noexcept with (R' := λ _, True).
  intros w Hw. unfold bind at 1. unfold get_self.
  destruct (handles w !! x) as [[j|]|] eqn:Hx; try done.
  - by apply (tidy_attach k this j (λ _, True) Hk w).
  - unfold bind, declare. by destruct (handles w !! this).
Qed.

Lemma L_ctor_move k this x R :
  hoare (L k) (ctor_move (E:=E) this x) (λ _, L (k + 1)) R.
Proof.
  apply (hoare_any_R _ _ _ (L k)).
  apply hoare_tidy; [apply hoare_ctor_move|].
  apply hoare_noexcept with (R' := λ _, True).
  intros w [_ HN]. unfold bind, get_self, set_self, declare. cbv beta.
  destruct (handles w !! x) as [p|] eqn:Hhx; [|done]. rewrite Hhx. simpl.
  destruct (<[x:=None]> (handles w) !! this) eqn:Ht; [done|].
  destruct p as [j|]; [|done]. simpl. by destruct HN.
Qed.

Lemma L_swap k x y R :
  hoare (L k) (swap (E:=E) x y) (λ _, L k) R.
Proof.
  apply (hoare_any_R _ _ _ (L k)).
  apply hoare_tidy; [apply hoare_swap|].
  apply hoare_noexcept with (R' := λ _, True).
  intros w [_ HN]. unfold bind, get_self, set_self. cbv beta.
  destruct (handles w !! x) as [px|] eqn:Hhx; [|done].
  destruct (handles w !! y) as [py|] eqn:Hhy; [|done]. rewrite Hhx. simpl.
  destruct (<[x:=py]> (handles w) !! y); [|done]. simpl. by destruct HN.
Qed.

Lemma L_dtor k this R :
  k + 3 < SIZE_MOD →
  hoare (L (k + 1)) (dtor NDEBUG this) (λ _, L k) R.
Proof.
  intros Hk w [HI HN].
  pose proof (hoare_dtor NDEBUG k this (λ _, True) Hk w HI) as H2.
  destruct (handles w !! this) as [p|] eqn:Ht.
  2:{ unfold dtor, noexcept, bind, get_self. by rewrite Ht. }
  destruct (dtor_cases NDEBUG (k + 1) w this p HI ltac:(lia) Ht)
    as [[Hnl Hd]|(j & mj & -> & Hj & Hone & Hjd & Hd)];
    rewrite Hd in *.
  - split; [done|]. apply tidy_handles.
    destruct p as [j|]; simpl; [|by destruct w].
    destruct Hnl as (m & Hj & Hpos & Hone). unfold upd_cells. simpl.
    rewrite Hj. destruct HI as [[Hc _ _] Hb].
    pose proof (counted_range _ _ _ _ _ Hc Hb Hj).
    apply (tidy_recount w j m); try done. rewrite wrap_small by lia. lia.
  - destruct (asserted_cells NDEBUG w) as [cs|] eqn:Hcs; [|done].
    split; [done|].
    assert (∀ w0 nx fr hs, N w0 → cells w0 !! j = Some mj →
              N (World (delete j (cells w0)) nx (S (space w0)) fr hs))
      as Hdel.
    { intros w0 nx fr hs [Hs Ho] Hj0. split.
      - unfold conserved, heap_cells in *. simpl.
        pose proof (heap_size_delete (cells w0) j mj Hj0 Hjd). lia.
      - intros l' m'. simpl. rewrite lookup_delete_Some.
        intros [_ Hl]. by eapply Ho. }
    unfold asserted_cells in Hcs. destruct NDEBUG.
    { injection Hcs as <-. by apply Hdel. }
    destruct T_default as [[e|v]|] eqn:HT.
    + destruct (cells w !! default_loc); [|done]. injection Hcs as <-.
      by apply Hdel.
    + destruct (cells w !! default_loc) eqn:Hdef; injection Hcs as <-;
        [by apply Hdel|].
      pose proof (Hdel (upd_cells <[default_loc:=Model 1 v]> w) (next w)
                    (j :: freed w) (delete this (handles w))
                    (tidy_default w v HN)) as Hdel'.
      simpl in Hdel'. apply Hdel'. by rewrite lookup_insert_ne.
    + injection Hcs as <-. by apply Hdel.
Qed.

Lemma L_move_assign k this x R :
  k + 4 < SIZE_MOD →
  hoare (L k) (move_assign NDEBUG this x) (λ _, L k) R.
Proof.
  intros Hk. apply hoare_noexcept with (R' := L k).
  eapply hoare_bind; [apply hoare_fresh_name|]. intros tmp.
  eapply hoare_bind; [by apply L_ctor_move|]. intros ?.
  eapply hoare_bind; [by apply L_swap|]. intros ?.
  apply L_dtor; lia.
Qed.

Lemma L_copy_assign k this x R :
  k + 5 < SIZE_MOD →
  hoare (L k) (copy_assign NDEBUG this x) (λ _, L k) R.
Proof.
  intros Hk. apply hoare_noexcept with (R' := L k).
  eapply hoare_bind; [apply hoare_assert|]. intros ?.
  eapply hoare_bind; [apply hoare_fresh_name|]. intros tmp.
  eapply hoare_bind; [apply L_ctor_copy; lia|]. intros ?.
  eapply hoare_bind; [apply L_move_assign; lia|]. intros ?.
  apply L_dtor; lia.
Qed.

Lemma L_assign_new k this mk :
  k + 5 < SIZE_MOD →
  hoare (L k) (assign_new NDEBUG this mk) (λ _, L k) (L k).
Proof.
  intros Hk.
  eapply hoare_bind; [apply hoare_fresh_name|]. intros tmp.
  eapply hoare_bind; [apply L_ctor_value|]. intros ?.
  eapply hoare_bind; [apply L_move_assign; lia|]. intros ?.
  apply L_dtor; lia.
Qed.

Lemma L_store_value k j m v :
  hoare (λ w, L k w ∧ cells w !! j = Some m)
    (store (E:=E) j (Model (_count m) v)) (λ _, L k) (L k).
Proof.
  intros w ([HI HN] & Hj).
  pose proof (hoare_store_value (E:=E) k j m v (λ _, True) w (conj HI Hj))
    as H1.
  unfold store in *. rewrite Hj in *. split; [done|].
  apply (tidy_recount w j m); try done. destruct HN as [_ Ho]. by eapply Ho.
Qed.

Lemma L_value_assign k this v :
  k + 5 < SIZE_MOD →
  hoare (L k) (value_assign NDEBUG this v) (λ _, L k) (L k).
Proof.
  intros Hk w HL.
  destruct (handles w !! this) as [p|] eqn:Ht.
  2:{ unfold value_assign, bind at 1, get_self. by rewrite Ht. }
  rewrite (value_assign_unfold NDEBUG w this p v Ht).
  destruct p as [j|]; [|by apply (L_assign_new k this _ Hk w)].
  destruct (cells w !! j) as [m|] eqn:Hj; [|done].
  destruct (_count m =? 1) eqn:Hone;
    [|by apply (L_assign_new k this _ Hk w)].
  destruct (T_assign (_value m) v) as [[e v']|v'].
  - pose proof (L_store_value k j m v' w (conj HL Hj)) as Hst.
    unfold bind. by destruct (store j (Model (_count m) v') w).
  - by apply (L_store_value k j m v' w).
Qed.

Lemma L_write k this :
  k + 5 < SIZE_MOD →
  hoare (L k) (write NDEBUG this)
    (λ j w, L k w ∧ is_Some (cells w !! j)) (L k).
Proof.
  intros Hk w HL.
  destruct (handles w !! this) as [[j|]|] eqn:Ht.
  2,3: unfold write, bind at 1, unique, noexcept, bind, get_self;
       by rewrite Ht.
  destruct (cells w !! j) as [m|] eqn:Hj.
  2:{ unfold write, bind at 1, unique, noexcept, bind, get_self, load.
      cbv beta. rewrite Ht. simpl. by rewrite Hj. }
  destruct HL as [HI HN].
  destruct (write_cases NDEBUG k w this j m HI Ht Hj)
    as [[Hone ->]|[(Hone & Hwhy & e0 & ->)|
                   (Hone & Hs & Hcp & Hnx & w1 & Hw & Hhs & Hcs & Hnew)]];
    [by eauto|done|].
  rewrite Hw. split; [|by eauto].
  assert (∀ j' m', Some j = Some j' → cells w !! j' = Some m' → _count m' ≠ 1)
    as Hp by (intros j' m' [= <-] ?; congruence).
  pose proof (L_assign_new k this (T_copy (_value m)) Hk w (conj HI HN)) as Hfr.
  destruct (assign_new_cases NDEBUG k w this (Some j) (T_copy (_value m))
              HI Ht Hp)
    as [(e & He & _)|(v & w' & _ & _ & Hw' & Hhs' & _ & _)].
  - rewrite (write_unfold NDEBUG w this j m Ht Hj) in Hw.
    replace (_count m =? 1) with false in Hw by (symmetry; lia).
    by rewrite (bind_Throw _ _ _ _ _ He) in Hw.
  - rewrite Hw' in Hfr.
    rewrite (write_unfold NDEBUG w this j m Ht Hj) in Hw.
    replace (_count m =? 1) with false in Hw by (symmetry; lia).
    rewrite (bind_Return _ _ _ _ _ Hw') in Hw.
    unfold bind, get_self, nonnull, ret in Hw.
    rewrite Hhs', lookup_insert_eq in Hw. by injection Hw as <-.
Qed.

Lemma L_write_with k this transform inplace :
  k + 5 < SIZE_MOD →
  hoare (L k) (write_with NDEBUG this transform inplace) (λ _, L k) (L k).
Proof.
  intros Hk w HL.
  destruct (handles w !! this) as [[j|]|] eqn:Ht.
  2,3: unfold write_with, bind at 1, unique, noexcept, bind, get_self;
       by rewrite Ht.
  destruct (cells w !! j) as [m|] eqn:Hj.
  2:{ unfold write_with, bind at 1, unique, noexcept, bind, get_self, load.
      cbv beta. rewrite Ht. simpl. by rewrite Hj. }
  rewrite (write_with_unfold NDEBUG w this j m transform inplace Ht Hj).
  destruct (_count m =? 1) eqn:Hone.
  - pose proof (L_store_value k j m (inplace (_value m)).1 w
                  (conj HL Hj)) as Hst.
    unfold store in Hst. rewrite Hj in Hst.
    by destruct (inplace (_value m)).2.
  - destruct (transform (_value m)) as [e|v']; [done|].
    apply Z.eqb_neq in Hone.
    pose proof (L_assign_new k this (inr v') Hk w HL) as Hfr.
    destruct HL as [HI HN].
    destruct (assign_new_cases NDEBUG k w this (Some j) (inr v') HI Ht)
      as [(e & He & _)|(v & w' & _ & _ & Hw' & Hhs & _ & Hnew)].
    { intros ? ? [= <-] ?. congruence. }
    + rewrite (bind_Throw _ _ _ _ _ He). by rewrite He in Hfr.
    + rewrite (bind_Return _ _ _ _ _ Hw'). rewrite Hw' in Hfr.
      assert (handles w' !! this = Some (Some (next w))) as Ht'
        by (rewrite Hhs; apply lookup_insert_eq).
      by rewrite (bind_Return _ _ _ _ _ (get_self_eq w' this _ Ht')).
Qed.

Lemma L_exec k o :
  k + 6 < SIZE_MOD →
  hoare (L k) (exec NDEBUG o) (λ _, L (if creates o then k + 1 else k)) (L k).
Proof.
  intros Hk. destruct o; simpl in *.
  - apply L_ctor_default. lia.
  - apply L_ctor_value.
  - apply L_ctor_copy. lia.
  - apply L_ctor_move.
  - intros w HL.
    assert (L (k - 1 + 1) w) as HL'.
    { destruct HL as [HI HN]. split; [|done]. eapply InvB_mono; [|done]. lia. }
    pose proof (L_dtor (k - 1) h (L k) ltac:(lia) w HL') as Hd.
    destruct (dtor NDEBUG h w) as [x w'|e w'| |]; try done.
    destruct Hd as [HI HN]. split; [|done]. eapply InvB_mono; [|done]. lia.
  - apply L_copy_assign. lia.
  - apply L_move_assign. lia.
  - apply L_value_assign. lia.
  - eapply hoare_bind; [apply L_write; lia|]. intros j w [HL [m Hj]].
    unfold bind, load. rewrite Hj.
    by apply (L_store_value k j m (f (_value m)) w).
  - eapply hoare_bind; [apply L_write_with; lia|]. intros ?.
    apply hoare_ret.
  - apply L_swap.
Qed.

Lemma reachable_tidy w : reachable NDEBUG capacity w → tidy capacity w.
Proof.
  induction 1 as [|w o w' Hw IH Hadm Hdone].
  - split.
    + unfold conserved, heap_cells. simpl.
      rewrite delete_empty, map_size_empty. lia.
    + intros l m. simpl. by rewrite lookup_empty.
  - pose proof (reachable_I NDEBUG capacity w Hw) as HI.
    pose proof MAX_OBJECTS_small as Hsmall.
    pose proof (L_exec MAX_OBJECTS o ltac:(lia) w (conj HI IH)) as Hex.
    destruct (exec NDEBUG o w) as [x w1|e w1| |]; simpl in Hdone;
      try done; subst w'; by destruct Hex.
Qed.

End no_leak.

Section storage.
Context {T E : Type} {RT : Regular T E}.
Variable NDEBUG : bool.
Implicit Types w : world T.

Lemma refs_owner (hs : gmap name (option loc)) l :
  refs hs l ≠ 0%nat → ∃ h, hs !! h = Some (Some l).
Proof.
  unfold refs. intros [h [p Hp]]%map_size_ne_0_lookup_1.
  apply map_lookup_filter_Some in Hp as [Hh Hp].
  unfold points_to in Hp. simpl in Hp. subst p. eauto.
Qed.

(** X14.  Nothing leaks.  In every reachable state the free storage and
    the heap cells in use add up to the capacity the program started
    with, and every heap cell is the cell of some live object.  So once
    every object has been destroyed, no heap cell is left, all storage is
    free again, and [default_s], if it was ever initialised, is back at a
    count of one. *)
Theorem nothing_leaks capacity w :
  reachable NDEBUG capacity w →
  (space w + size (heap_cells w))%nat = capacity ∧
  (∀ l, is_Some (cells w !! l) → l ≠ default_loc →
     ∃ h, handles w !! h = Some (Some l)) ∧
  (handles w = ∅ →
     heap_cells w = ∅ ∧ space w = capacity ∧
     ∀ m, cells w !! default_loc = Some m → _count m = 1).
Proof.
  intros Hr. destruct (reachable_tidy NDEBUG capacity w Hr) as [Hs Ho].
  destruct (reachable_I NDEBUG capacity w Hr) as [[Hc _ _] _].
  assert (∀ l, is_Some (cells w !! l) → l ≠ default_loc →
            ∃ h, handles w !! h = Some (Some l)) as Hown.
  { intros l [m Hl] Hne. apply refs_owner.
    pose proof (Ho l m Hl). pose proof (Hc l m Hl) as Hcm.
    rewrite extra_other in Hcm by done. lia. }
  split; [exact Hs|]. split; [exact Hown|].
  intros Hnone.
  assert (heap_cells w = ∅) as Hheap.
  { apply map_empty. intros l. unfold heap_cells.
    destruct (decide (l = default_loc)) as [->|Hne];
      [apply lookup_delete_eq|].
    rewrite lookup_delete_ne by done.
    destruct (cells w !! l) as [m|] eqn:Hl; [|done].
    destruct (Hown l) as [h Hh]; [by eauto|done|].
    rewrite Hnone in Hh. by rewrite lookup_empty in Hh. }
  split; [done|]. split.
  - unfold conserved in Hs. rewrite Hheap, map_size_empty in Hs. lia.
  - intros m Hm. rewrite (Hc _ m Hm), extra_default.
    rewrite refs_zero; [done|]. intros h. rewrite Hnone.
    by rewrite lookup_empty.
Qed.

End storage.

Lemma nothing_leaks_witness :
  (space w_two + size (heap_cells w_two))%nat = 3%nat ∧
  ∃ h, handles w_two !! h = Some (Some 3%positive).
Proof.
  destruct (nothing_leaks (RT:=fragile_ops) false 3%nat w_two reach_two)
    as (H1 & H2 & _).
  split; [exact H1|]. apply H2; [by eexists|done].
Defined.

(** ** Statements within contract have defined behaviour *)

Section safety.
Context {T E : Type} {RT : Regular T E}.
Variable NDEBUG : bool.
Implicit Types w : world T.

Lemma asserted_cells_None w :
  asserted_cells NDEBUG w = None → debug_corner NDEBUG w.
Proof.
  unfold asserted_cells, debug_corner. destruct NDEBUG; [done|].
  destruct T_default as [[e|v]|]; [| |done];
    destruct (cells w !! default_loc); try done.
  intros _. eauto.
Qed.

Lemma safe_asserted {A} w (f : gmap loc (model T) → outcome T E A) :
  (∀ cs, safe NDEBUG w (f cs)) →
  safe NDEBUG w (match asserted_cells NDEBUG w with
                 | None => Terminate
                 | Some cs => f cs
                 end).
Proof.
  intros Hf. destruct (asserted_cells NDEBUG w) eqn:Hcs; [done|].
  by apply asserted_cells_None.
Qed.

Lemma safe_dtor k w h :
  InvB k w → k + 2 < SIZE_MOD → live w h → safe NDEBUG w (dtor NDEBUG h w).
Proof.
  intros HI Hk [p Hh].
  destruct (dtor_cases NDEBUG k w h p HI Hk Hh)
    as [[_ ->]|(j & mj & _ & _ & _ & _ & ->)]; [done|].
  by apply safe_asserted.
Qed.

Lemma safe_assign_new k w h p mk :
  InvB k w → handles w !! h = Some p →
  (∀ j m, p = Some j → cells w !! j = Some m → _count m ≠ 1) →
  safe NDEBUG w (assign_new NDEBUG h mk w).
Proof.
  intros HI Hh Hp.
  by destruct (assign_new_cases NDEBUG k w h p mk HI Hh Hp)
    as [(e & -> & _)|(v & w' & _ & _ & -> & _)].
Qed.

Lemma safe_move_assign k w h x :
  InvB k w → k + 2 < SIZE_MOD → live w h → engaged w x →
  safe NDEBUG w (move_assign NDEBUG h x w).
Proof.
  intros HI Hk [p Hh] [l Hx].
  destruct (decide (h = x)) as [->|Hne].
  { by rewrite (move_assign_self_eq NDEBUG w x l Hx). }
  destruct (dtor_cases NDEBUG k w h p HI Hk Hh)
    as [[Hnl _]|(j & mj & -> & Hj & Hone & Hjd & _)].
  - by rewrite (move_assign_eq NDEBUG w h x p l Hh Hx Hne Hnl).
  - rewrite (move_assign_last_eq NDEBUG w h x j mj l Hh Hx Hne Hj Hone Hjd).
    by apply safe_asserted.
Qed.

(** X15.  Statements within contract have defined behaviour.  In every
    reachable state, a statement whose operands are live objects, not
    moved-from where the member function asserts so, never runs into
    undefined behaviour: no assertion fails, no dead cell is accessed,
    nothing is deleted twice.  It returns, throws, or, only in a build
    with assertions whose first initialisation of [default_s] throws,
    calls [std::terminate]. *)
Theorem well_formed_statements_are_safe capacity w o :
  reachable NDEBUG capacity w → well_formed o w →
  exec NDEBUG o w ≠ Undefined ∧
  (exec NDEBUG o w = Terminate → debug_corner NDEBUG w).
Proof.
  intros Hr Hwf.
  pose proof (reachable_I NDEBUG capacity w Hr) as HI.
  pose proof MAX_OBJECTS_small as Hsmall.
  assert (safe NDEBUG w (exec NDEBUG o w)) as Hsafe.
  2:{ destruct (exec NDEBUG o w); simpl in Hsafe; by split. }
  assert (∀ x l, handles w !! x = Some (Some l) → ∃ m, cells w !! l = Some m)
    as Hcell.
  { intros x l Hx. destruct HI as [[_ Hatt _] _]. by apply (Hatt x l). }
  destruct o as [h|h mk|h x|h x|h|h x|h x|h v|h f|h tr ip|x y]; simpl in *.
  - destruct Hwf as [Hh [r HT]].
    destruct (cells w !! default_loc) as [m|] eqn:Hd.
    { by rewrite (ctor_default_eq w h m Hd Hh). }
    destruct r as [e|v].
    + by rewrite (ctor_default_throw w h e HT Hd).
    + by rewrite (ctor_default_first_eq w h v Hd HT Hh).
  - destruct (space w) as [|n] eqn:Hs.
    { rewrite ctor_value_throw by auto. by rewrite Hs. }
    destruct mk as [e|v].
    + rewrite ctor_value_throw by eauto. by rewrite Hs.
    + by rewrite (ctor_value_eq w h v n Hs Hwf).
  - destruct Hwf as [Hh [l Hx]]. destruct (Hcell x l Hx) as [m Hl].
    by rewrite (ctor_copy_eq w h x l m Hx Hh Hl).
  - destruct Hwf as [Hh [l Hx]].
    by rewrite (ctor_move_eq w h x l Hx Hh).
  - apply (safe_dtor MAX_OBJECTS); [done|lia|done].
  - destruct Hwf as ([p Hh] & [l Hx] & Hne).
    destruct (copy_assign_outcome NDEBUG MAX_OBJECTS w h x p l HI ltac:(lia)
                Hne Hh Hx) as [Hca|(w' & -> & _)]; [|done].
    rewrite Hca. simpl.
    destruct (Hcell x l Hx) as [m Hl].
    destruct (dtor_cases NDEBUG MAX_OBJECTS w h p HI ltac:(lia) Hh)
      as [[Hnl _]|(j & mj & -> & Hj & Hone & Hjd & _)].
    + destruct HI as [[Hc _ _] Hb].
      pose proof (counted_range _ _ _ _ _ Hc Hb Hl).
      rewrite (copy_assign_eq NDEBUG w h x p l m) in Hca; try done; lia.
    + assert (j ≠ l) as Hjl.
      { intros ->. destruct HI as [[Hc _ _] _].
        pose proof (refs_two _ _ _ _ Hne Hh Hx). pose proof (Hc l mj Hj).
        pose proof (extra_range l). lia. }
      destruct HI as [[Hc _ _] Hb].
      pose proof (counted_range _ _ _ _ _ Hc Hb Hl).
      rewrite (copy_assign_last_eq NDEBUG w h x j mj l m) in Hca;
        try done; try lia.
      destruct (asserted_cells NDEBUG w) eqn:Hcs; [done|].
      by apply asserted_cells_None.
  - destruct Hwf as [Hh Hx].
    apply (safe_move_assign MAX_OBJECTS); [done|lia|done..].
  - destruct Hwf as [p Hh].
    rewrite (value_assign_unfold NDEBUG w h p v Hh).
    destruct p as [j|].
    2:{ by apply (safe_assign_new MAX_OBJECTS w h None). }
    destruct (Hcell h j Hh) as [m Hj]. rewrite Hj.
    destruct (_count m =? 1) eqn:Hone.
    + unfold bind, store, throw. destruct (T_assign (_value m) v) as [[e v']|v'];
        by rewrite Hj.
    + apply (safe_assign_new MAX_OBJECTS w h (Some j)); [done..|].
      intros ? ? [= <-] ?. assert (m0 = m) as -> by congruence. lia.
  - destruct Hwf as [l Hh]. destruct (Hcell h l Hh) as [m Hl].
    destruct (write_cases NDEBUG MAX_OBJECTS w h l m HI Hh Hl)
      as [[Hone Hw]|[(Hone & Hwhy & e0 & Hw)|
                     (Hone & Hs & Hcp & Hnx & w1 & Hw & Hhs & Hcs & Hnew)]].
    + rewrite (bind_Return _ _ _ _ _ Hw). unfold bind, load, store.
      rewrite Hl. cbv beta iota. by rewrite Hl.
    + by rewrite (bind_Throw _ _ _ _ _ Hw).
    + rewrite (bind_Return _ _ _ _ _ Hw). unfold bind, load, store.
      rewrite Hnew. cbv beta iota. by rewrite Hnew.
  - destruct Hwf as [l Hh]. destruct (Hcell h l Hh) as [m Hl].
    unfold bind at 1.
    rewrite (write_with_unfold NDEBUG w h l m tr ip Hh Hl).
    destruct (_count m =? 1) eqn:Hone.
    { by destruct (ip (_value m)).2. }
    destruct (tr (_value m)) as [e|v']; [done|].
    assert (∀ j m', Some l = Some j → cells w !! j = Some m' → _count m' ≠ 1)
      as Hp.
    { intros ? ? [= <-] ?. assert (m' = m) as -> by congruence. lia. }
    destruct (assign_new_cases NDEBUG MAX_OBJECTS w h (Some l) (inr v')
                HI Hh Hp)
      as [(e & Ha & _)|(v & w' & _ & _ & Ha & Hhs & _ & _)].
    + by rewrite (bind_Throw _ _ _ _ _ Ha).
    + rewrite (bind_Return _ _ _ _ _ Ha).
      unfold bind, get_self, nonnull, ret.
      by rewrite Hhs, lookup_insert_eq.
  - destruct Hwf as [[px Hx] [py Hy]].
    by rewrite (swap_eq w x y px py Hx Hy).
Qed.

End safety.

Lemma well_formed_statements_are_safe_witness :
  exec (RT:=nat_ops) false (Write 2%positive S) w_shared ≠ Undefined.
Proof.
  apply (well_formed_statements_are_safe (RT:=nat_ops) false 3%nat w_shared
           (Write 2%positive S) reach_shared).
  by exists 1%positive.
Defined.

(** ** What a failed statement leaves behind *)

Section exception_safety.
Context {T E : Type} {RT : Regular T E}.
Variable NDEBUG : bool.
Implicit Types w : world T.

(** X16.  Exception safety.  When a statement within contract throws, no
    object has been created or destroyed, nothing has been allocated or
    freed, and no count has changed: the state is exactly what it was,
    unless the exception came from assigning or modifying in place the
    value of a unique object, and then only that value may differ.  The
    copy and move operations, the destructor and [swap] never throw. *)
Theorem failed_statement_leaves_state capacity w o e w' :
  reachable NDEBUG capacity w → well_formed o w →
  exec NDEBUG o w = Throw e w' →
  declared_noexcept o = false ∧
  (w' = w ∨
   ∃ h l m v',
     modifies o = [h] ∧ handles w !! h = Some (Some l) ∧
     cells w !! l = Some m ∧ _count m = 1 ∧
     w' = upd_cells <[l:=Model 1 v']> w).
Proof.
  intros Hr Hwf Hex.
  pose proof (reachable_I NDEBUG capacity w Hr) as HI.
  pose proof MAX_OBJECTS_small as Hsmall.
  assert (∀ x l, handles w !! x = Some (Some l) → ∃ m, cells w !! l = Some m)
    as Hcell.
  { intros x l Hx. destruct HI as [[_ Hatt _] _]. by apply (Hatt x l). }
  assert (∀ A (m : M T E A) r, noexcept m w = r → r ≠ Throw e w') as Hnx.
  { intros A m r <-. unfold noexcept. by destruct (m w). }
  destruct o as [h|h mk|h x|h x|h|h x|h x|h v|h f|h tr ip|x y]; simpl in *;
    try (exfalso; by eapply Hnx).
  - split; [done|]. left. destruct Hwf as [Hh [r HT]].
    destruct (cells w !! default_loc) as [m|] eqn:Hd.
    { by rewrite (ctor_default_eq w h m Hd Hh) in Hex. }
    destruct r as [e0|v].
    + rewrite (ctor_default_throw w h e0 HT Hd) in Hex. congruence.
    + by rewrite (ctor_default_first_eq w h v Hd HT Hh) in Hex.
  - split; [done|]. left. destruct (space w) as [|n] eqn:Hs.
    { rewrite ctor_value_throw in Hex by auto. congruence. }
    destruct mk as [e0|v].
    + rewrite ctor_value_throw in Hex by eauto. congruence.
    + by rewrite (ctor_value_eq w h v n Hs Hwf) in Hex.
  - split; [done|]. destruct Hwf as [p Hh].
    rewrite (value_assign_unfold NDEBUG w h p v Hh) in Hex.
    assert (∀ mk, (∀ j m, p = Some j → cells w !! j = Some m → _count m ≠ 1) →
              assign_new NDEBUG h mk w = Throw e w' → w' = w) as Hnew.
    { intros mk Hp Ha.
      destruct (assign_new_cases NDEBUG MAX_OBJECTS w h p mk HI Hh Hp)
        as [(e0 & Ha' & _)|(v0 & w0 & _ & _ & Ha' & _)]; congruence. }
    destruct p as [j|]; [|left; by eapply Hnew].
    destruct (Hcell h j Hh) as [m Hj]. rewrite Hj in Hex.
    destruct (_count m =? 1) eqn:Hone.
    + right. assert (_count m = 1) as Hone' by lia.
      destruct (T_assign (_value m) v) as [[e0 v']|v'].
      * unfold bind, store, throw in Hex. rewrite Hj in Hex.
        injection Hex as _ <-. exists h, j, m, v'. by rewrite Hone'.
      * unfold store in Hex. by rewrite Hj in Hex.
    + left. eapply Hnew; [|done]. intros ? ? [= <-] ?.
      assert (m0 = m) as -> by congruence. lia.
  - split; [done|]. left. destruct Hwf as [l Hh].
    destruct (Hcell h l Hh) as [m Hl].
    destruct (write_cases NDEBUG MAX_OBJECTS w h l m HI Hh Hl)
      as [[Hone Hw]|[(Hone & Hwhy & e0 & Hw)|
                     (Hone & Hs & Hcp & Hnx' & w1 & Hw & Hhs & Hcs & Hnew)]].
    + rewrite (bind_Return _ _ _ _ _ Hw) in Hex. unfold bind, load, store in Hex.
      rewrite Hl in Hex. cbv beta iota in Hex. by rewrite Hl in Hex.
    + rewrite (bind_Throw _ _ _ _ _ Hw) in Hex. congruence.
    + rewrite (bind_Return _ _ _ _ _ Hw) in Hex. unfold bind, load, store in Hex.
      rewrite Hnew in Hex. cbv beta iota in Hex. by rewrite Hnew in Hex.
  - split; [done|]. destruct Hwf as [l Hh]. destruct (Hcell h l Hh) as [m Hl].
    unfold bind at 1 in Hex.
    rewrite (write_with_unfold NDEBUG w h l m tr ip Hh Hl) in Hex.
    destruct (_count m =? 1) eqn:Hone.
    { right. assert (_count m = 1) as Hone' by lia.
      destruct (ip (_value m)).2; [|done]. injection Hex as _ <-.
      exists h, l, m, (ip (_value m)).1. by rewrite Hone'. }
    left. destruct (tr (_value m)) as [e0|v']; [congruence|].
    assert (∀ j m', Some l = Some j → cells w !! j = Some m' → _count m' ≠ 1)
      as Hp.
    { intros ? ? [= <-] ?. assert (m' = m) as -> by congruence. lia. }
    destruct (assign_new_cases NDEBUG MAX_OBJECTS w h (Some l) (inr v')
                HI Hh Hp)
      as [(e0 & Ha & _)|(v & w0 & _ & _ & Ha & Hhs & _ & _)].
    + rewrite (bind_Throw _ _ _ _ _ Ha) in Hex. congruence.
    + rewrite (bind_Return _ _ _ _ _ Ha) in Hex.
      unfold bind, get_self, nonnull, ret in Hex.
      by rewrite Hhs, lookup_insert_eq in Hex.
Qed.

End exception_safety.

Lemma failed_statement_leaves_state_witness :
  exec (RT:=fragile_ops) false (Write 1%positive S) w_pair
  = Throw (T_exn tt) w_pair ∧
  declared_noexcept (Write (E:=unit) 1%positive S) = false.
Proof.
  assert (exec (RT:=fragile_ops) false (Write 1%positive S) w_pair
          = Throw (T_exn tt) w_pair) as Hex by (vm_compute; reflexivity).
  split; [exact Hex|].
  apply (failed_statement_leaves_state (RT:=fragile_ops) false 3%nat w_pair
           (Write 1%positive S) (T_exn tt) w_pair reach_pair).
  - by exists 2%positive.
  - exact Hex.
Defined.

(** ** Comparing identical objects *)

Section identical.
Context {T E : Type} {RT : Regular T E}.
Implicit Types w : world T.

(** X17.  Two objects on the same cell, a copy and its source say, are
    compared without [T]'s [==] or [<] being called at all: [==], [<=]
    and [>=] are true, [!=], [<] and [>] are false, the state is as it
    was, and nothing can fail, whatever the comparisons of [T] would
    do. *)
Theorem identical_objects_compare_by_identity w a b l :
  handles w !! a = Some (Some l) → handles w !! b = Some (Some l) →
  op_eq a b w = Return true w ∧ op_ne a b w = Return false w ∧
  op_lt a b w = Return false w ∧ op_gt a b w = Return false w ∧
  op_le a b w = Return true w ∧ op_ge a b w = Return true w.
Proof.
  intros Ha Hb.
  assert (∀ x y, handles w !! x = Some (Some l) →
            handles w !! y = Some (Some l) →
            op_eq x y w = Return true w ∧ op_lt x y w = Return false w)
    as Hid.
  { intros x y Hx Hy. unfold op_eq, op_lt, noexcept.
    rewrite !(bind_Return _ _ _ _ _ (identity_eq w x y l l Hx Hy)).
    by rewrite bool_decide_true. }
  destruct (Hid a b Ha Hb) as [Heq Hlt].
  destruct (Hid b a Hb Ha) as [_ Hgt].
  split_and!; try done.
  - unfold op_ne, noexcept, bind. by rewrite Heq.
  - unfold op_gt, noexcept. by rewrite Hgt.
  - unfold op_le, noexcept, bind. by rewrite Hgt.
  - unfold op_ge, noexcept, bind. by rewrite Hlt.
Qed.

End identical.

Lemma identical_objects_compare_by_identity_witness :
  op_eq (RT:=fragile_ops) 1%positive 2%positive w_pair = Return true w_pair ∧
  op_lt (RT:=fragile_ops) 1%positive 2%positive w_pair = Return false w_pair.
Proof.
  destruct (identical_objects_compare_by_identity (RT:=fragile_ops) w_pair
              1%positive 2%positive 2%positive)
    as (H1 & _ & H2 & _); [reflexivity|reflexivity|].
  by split.
Defined.

(** ** What [unique()] tells *)

Section uniqueness.
Context {T E : Type} {RT : Regular T E}.
Variable NDEBUG : bool.
Implicit Types w : world T.

(** X18.  In every reachable state [unique()] on a non-null object
    completes, changes nothing, and answers [true] exactly when no other
    live object is on the same cell and the cell is not [default_s]: the
    count it reads is the number of owners. *)
Theorem unique_means_sole_owner capacity w h l :
  reachable NDEBUG capacity w → handles w !! h = Some (Some l) →
  ∃ b, unique (E:=E) h w = Return b w ∧
       (b = true ↔
        l ≠ default_loc ∧ ∀ x, x ≠ h → handles w !! x ≠ Some (Some l)).
Proof.
  intros Hr Hh.
  destruct (reachable_I NDEBUG capacity w Hr) as [[Hc Hatt _] _].
  destruct (Hatt h l Hh) as [m Hl].
  exists (_count m =? 1). split; [by apply (unique_eq w h l m)|].
  pose proof (Hc l m Hl) as Hcm.
  pose proof (refs_delete (handles w) h (Some l) l Hh) as Hrefs.
  unfold hit in Hrefs. rewrite decide_True in Hrefs by done.
  rewrite Z.eqb_eq. split.
  - intros Hone. split.
    + intros ->. rewrite extra_default in Hcm. lia.
    + intros x Hne. by apply (sole_owner w h x l m).
  - intros [Hd Hsole]. rewrite extra_other in Hcm by done.
    rewrite (refs_zero (delete h (handles w)) l) in Hrefs; [lia|].
    intros x. destruct (decide (x = h)) as [->|Hne].
    + by rewrite lookup_delete_eq.
    + rewrite lookup_delete_ne by done. by apply Hsole.
Qed.

End uniqueness.

Lemma unique_means_sole_owner_witness :
  ∃ b, unique (E:=unit) 1%positive w_two = Return b w_two ∧
       (b = true ↔
        2%positive ≠ default_loc ∧
        ∀ x, x ≠ 1%positive → handles w_two !! x ≠ Some (Some 2%positive)).
Proof.
  apply (unique_means_sole_owner (RT:=fragile_ops) false 3%nat w_two
           1%positive 2%positive reach_two).
  reflexivity.
Defined.
